(** * The merlin dataloader core: chunk batching, sharding and sparse checks

    A shallow embedding of [merlin/loader/loader_base.py] (classes
    [LoaderBase] and [ChunkQueue]) and the properties its specification
    states about it.

    Conventions of the embedding:
    - Python integers are [Z].  [math.ceil(a / b)] and [int(a / b)] go
      through a float quotient in the source; the embedding uses the exact
      quotient, which agrees with the float one for row counts below 2^53.
    - A raised exception is the [Raise] case of [result], a call that
      never returns its [Blocked] case; a method that mutates its object
      returns the object next to the result.
    - The worker thread is given twice.  [ChunkQueue] has its methods as
      the thread runs them by itself, [q_out] being the record of what it
      enqueues; [Threads] has the thread step by step on the queue of
      capacity [1], next to the consumer and under any schedule.
    - A data frame is the list of its rows, in order; [reset_index] only
      renames index labels and is the identity on that list.
    - Dictionaries are [gmap], Python sets [gset], lists are lists. *)

From Stdlib Require Import ZArith Lia List Permutation.
From Stdlib Require Import DecimalString.
From stdpp Require Import base option list gmap strings fin_maps.

Local Open Scope Z_scope.

(** ** Python values, exceptions and fallible computations *)

Module Py.

Inductive exn : Type :=
  | ZeroDivisionError
  | IndexError
  | StopIteration
  | KeyError (key : string)
  | ValueError (msg : string)
  | TypeError (msg : string)
  | RuntimeError (msg : string).

(** The outcome of a call: a value, a raised exception, or [Blocked] for
    a call that waits on a queue nobody will fill. *)
Inductive result (A : Type) : Type :=
  | Ok (a : A)
  | Raise (e : exn)
  | Blocked.

Arguments Ok {A} a.
Arguments Raise {A} e.
Arguments Blocked {A}.

Definition is_ok {A : Type} (m : result A) : bool :=
  match m with Ok _ => true | _ => false end.

(** Computations over a mutable object of type [S]: the object after the
    call, next to the outcome.  An exception keeps the mutations made
    before it was raised. *)
Definition st (S A : Type) : Type := S -> S * result A.

Definition raise {S A : Type} (e : exn) : st S A := fun s => (s, Raise e).
Definition gets {S A : Type} (f : S -> A) : st S A := fun s => (s, Ok (f s)).
Definition modify {S : Type} (f : S -> S) : st S unit := fun s => (f s, Ok tt).
Definition lift {S A : Type} (r : result A) : st S A := fun s => (s, r).

(** [len(l)]. *)
Definition len {A : Type} (l : list A) : Z := Z.of_nat (length l).

(** [str(n)] for an integer. *)
Definition str (n : Z) : string := NilZero.string_of_int (Z.to_int n).

(** [x or d] for an optional integer: [None] and [0] are falsy. *)
Definition or_default (x : option Z) (d : Z) : Z :=
  match x with
  | Some v => if v =? 0 then d else v
  | None => d
  end.

(** Normalisation of one bound of a slice [l[lo:hi]] over a sequence of
    length [n]: a negative bound counts from the end, and every bound is
    clipped to [0, n]. *)
Definition clip (n i : Z) : Z :=
  if i <? 0 then Z.max 0 (i + n) else Z.min i n.

(** [l[lo:hi]]; [None] is an omitted bound. *)
Definition slice {A : Type} (l : list A) (lo hi : option Z) : list A :=
  let n := len l in
  let a := from_option (clip n) 0 lo in
  let b := from_option (clip n) n hi in
  take (Z.to_nat (b - a)) (drop (Z.to_nat a) l).

(** [arange(n)]: the list [0, ..., n-1]; empty for [n <= 0]. *)
Definition arange (n : Z) : list Z := seqZ 0 n.

(** Sum of a list of integers. *)
Definition sumZ (l : list Z) : Z := foldr Z.add 0 l.

End Py.

Import Py.

#[global] Instance result_ret : MRet result := fun A a => Ok a.
#[global] Instance result_bind : MBind result := fun A B k m =>
  match m with
  | Ok a => k a
  | Raise e => Raise e
  | Blocked => Blocked
  end.

#[global] Instance st_ret {S : Type} : MRet (st S) := fun A a s => (s, Ok a).
#[global] Instance st_bind {S : Type} : MBind (st S) := fun A B k m s =>
  match m s with
  | (s', Ok a) => k a s'
  | (s', Raise e) => (s', Raise e)
  | (s', Blocked) => (s', Blocked)
  end.

(** ** External collaborators

    The tensor runtime of the training framework, the row shuffle of
    [merlin.io] and the random generator of the array library are outside
    the loader; the loader is parametric in them. *)

Class Runtime : Type := {
  (** one row of a data frame *)
  Row : Type;
  (** a tensor of the training framework (or [None]) *)
  tensor : Type;
  (** one leaf value of a list column *)
  elem : Type;
  (** state of the global random generator *)
  RandomState : Type;
  (** [merlin.io.shuffle_df] *)
  shuffle_df : list Row -> list Row;
  (** [_tensor_split(tensor, n, axis=1)] of the framework subclass *)
  _tensor_split : tensor -> Z -> list tensor;
  (** [_build_sparse_tensor] of the framework subclass *)
  _build_sparse_tensor :
    list elem -> list Z -> list Z -> Z -> Z -> bool -> tensor;
  (** [_pull_values_offsets] of the framework subclass on a lone tensor *)
  _pull_values_offsets_lone : tensor -> list elem * list Z * list Z * Z;
  (** [merlin.core.dispatch.generate_local_seed] *)
  generate_local_seed : Z -> Z -> RandomState -> RandomState;
  (** [cp.random.seed] *)
  random_seed : Z -> RandomState -> RandomState;
  (** [cp.random.shuffle] *)
  random_shuffle : list Z -> RandomState -> list Z * RandomState;
}.

(** ** The schema consumed at construction ([merlin.schema]) *)

Inductive Tags : Type :=
  | CATEGORICAL
  | CONTINUOUS
  | TARGET
  | OtherTag (name : string).

#[global] Instance Tags_eq_dec : EqDecision Tags.
Proof. solve_decision. Defined.

(** The bounds [value_count.min] and [value_count.max] of a list column. *)
Module ValueCount.
Record t : Type := { min : Z; max : Z }.
End ValueCount.

Record ColumnSchema : Type := {
  dtype : string;
  tags : list Tags;
  is_list : bool;
  is_ragged : bool;
  (** [None] when the schema declares no value count (a falsy value) *)
  value_count : option ValueCount.t;
}.

(** [schema.column_schemas]: an ordered dictionary from column name to
    column schema. *)
Abbreviation Schema := (list (string * ColumnSchema)).

(** [schema.select_by_tag(tag).column_names]. *)
Definition select_by_tag (schema : Schema) (tag : Tags) : list string :=
  (filter (fun c => bool_decide (tag ∈ tags c.2)) schema).*1.

(** ** The dataset ([merlin.io.Dataset]) *)

Section Dataset.
Context `{Runtime}.

Record Dataset : Type := {
  (** [dataset.schema], inferred if the dataset came without one *)
  schema : Schema;
  (** the partitions, in storage order *)
  partitions : list (list Row);
  (** the exception that reading a partition raises, if any *)
  read_error : Z -> option exn;
}.

Definition npartitions (ds : Dataset) : Z := len (partitions ds).

Definition get_partition (ds : Dataset) (i : Z) : result (list Row) :=
  match read_error ds i with
  | Some e => Raise e
  | None =>
      if (0 <=? i) && (i <? npartitions ds)
      then from_option Ok (Raise IndexError) (partitions ds !! Z.to_nat i)
      else Raise IndexError
  end.

(** [dataset.to_iter(indices, epochs)], the partition stream of section 6
    of the specification: the outcome of each successive [next], the
    partitions of [indices] in order, once per epoch. *)
Definition to_iter (ds : Dataset) (indices : list Z) (epochs : Z)
  : list (result (list Row)) :=
  mjoin (replicate (Z.to_nat epochs) (get_partition ds <$> indices)).

(** [len(itr)] of that iterator: the rows of the partitions of
    [indices], times the number of epochs. *)
Definition iter_len (ds : Dataset) (indices : list Z) (epochs : Z) : Z :=
  sumZ ((fun i => from_option len 0 (partitions ds !! Z.to_nat i)) <$> indices) * epochs.

End Dataset.

(** ** [LoaderBase]: attributes fixed by the constructor *)

Section LoaderBase.
Context `{Runtime}.

Record LoaderBase : Type := {
  dataset : Dataset;
  batch_size : Z;
  shuffle : bool;
  seed_fn : option (RandomState -> Z);
  parts_per_chunk : Z;
  global_size : Z;
  global_rank : Z;
  drop_last : bool;
  sparse_names : list string;
  sparse_max : gmap string Z;
  sparse_as_dense : gset string;
  dtype_reverse_map : gmap string (list string);
  cat_names : list string;
  cont_names : list string;
  label_names : list string;
  (** the class attribute [_use_nnz] *)
  _use_nnz : bool;
}.

(** One entry of a batch dictionary [X]: a framework tensor, or the
    [(values, index)] pair of a list column. *)
Inductive Entry : Type :=
  | Lone (t : tensor)
  | Pair (values : list elem) (index : list Z).

(** [math.ceil(num_samples / step_size)].  The division raises on a zero
    step; otherwise the ceiling of the quotient is [-((-a) // b)]. *)
Definition _num_steps (num_samples step_size : Z) : result Z :=
  if step_size =? 0 then Raise ZeroDivisionError
  else Ok (- ((- num_samples) / step_size)).

(** [LoaderBase._get_segment_lengths]. *)
Definition _get_segment_lengths (self : LoaderBase) (num_samples : Z)
  : result (list Z) :=
  steps ← _num_steps num_samples (batch_size self);
  let num_full_batches := steps - 1 in
  let idx := replicate (Z.to_nat num_full_batches) (batch_size self) in
  Ok (idx ++ [num_samples - num_full_batches * batch_size self]).

(** Modelled from the spec: [_split_fn] is left to the framework
    subclasses (the base class raises [NotImplementedError]).  It is the
    [split(tensor, sizes, axis)] primitive of section 6 along the row
    axis: consecutive pieces of the given sizes. *)
Fixpoint _split_fn {A : Type} (tensor : list A) (idx : list Z) : list (list A) :=
  match idx with
  | [] => []
  | n :: idx' =>
      take (Z.to_nat n) tensor :: _split_fn (drop (Z.to_nat n) tensor) idx'
  end.

(** [LoaderBase.make_tensors], as far as rows are concerned: the rows
    that each batch of the chunk [gdf] holds.  The column-wise layout of
    one batch is the subject of [_handle_tensors]. *)
Definition make_tensors (self : LoaderBase) (gdf : list Row)
  : result (list (list Row)) :=
  split_idx ← _get_segment_lengths self (len gdf);
  Ok (if 1 <? len split_idx then _split_fn gdf split_idx
      else (fun _ => gdf) <$> split_idx).

(** *** Sparse materialisation *)

(** [offsets[1:] - offsets[:-1]]. *)
Definition diff (offsets : list Z) : list Z :=
  zip_with Z.sub (slice offsets (Some 1) None) (slice offsets None (Some (-1))).

(** Running totals of per-row counts, starting at [0]. *)
Fixpoint cumulative (start : Z) (counts : list Z) : list Z :=
  match counts with
  | [] => []
  | c :: counts' => start :: cumulative (start + c) counts'
  end.

(** Modelled from the spec: [_pull_values_offsets] is defined by the
    framework subclasses only.  Following 4.4, the per-row lengths are
    computed from the offsets, the boundary that closes the last row
    being the number of values, or are the supplied counts in counts
    mode; the case of a lone tensor is left to the runtime. *)
Definition _pull_values_offsets (self : LoaderBase) (values_offset : Entry)
  : list elem * list Z * list Z * Z :=
  match values_offset with
  | Pair values index =>
      if _use_nnz self
      then (values, cumulative 0 index, index, len index)
      else
        let offsets := index ++ [len values] in
        (values, offsets, diff offsets, len index)
  | Lone t => _pull_values_offsets_lone t
  end.

(** Modelled from the spec: [_get_max_seq_len] is defined by the
    framework subclasses only; 4.4 has [observed_max = max(lengths)]. *)
Definition _get_max_seq_len (diff_offsets : list Z) : Z :=
  match diff_offsets with
  | [] => 0
  | d :: ds => foldr Z.max d ds
  end.

Definition seq_too_long_message (seq_limit max_seq_len : Z) : string :=
  "The default sequence length has been configured "
  +:+ "to " +:+ str seq_limit +:+ " but the "
  +:+ "largest sequence in this batch have " +:+ str max_seq_len +:+ " length".

(** [LoaderBase._to_sparse_tensor]. *)
Definition _to_sparse_tensor (self : LoaderBase) (values_offset : Entry)
    (column_name : string) : result tensor :=
  match sparse_max self !! column_name with
  | None => Raise (KeyError column_name)
  | Some seq_limit =>
      let '(values, offsets, diff_offsets, num_rows) :=
        _pull_values_offsets self values_offset in
      let max_seq_len := _get_max_seq_len diff_offsets in
      if seq_limit <? max_seq_len
      then Raise (ValueError (seq_too_long_message seq_limit max_seq_len))
      else
        let sparse_as_dense := bool_decide (column_name ∈ sparse_as_dense self) in
        Ok (_build_sparse_tensor values offsets diff_offsets num_rows
              seq_limit sparse_as_dense)
  end.

(** *** [_handle_tensors] *)

(** One element of [tensors]: the tensor of the scalar columns of a
    dtype group, alone or in a tuple with the dictionary of the list
    columns of the group. *)
Definition Group : Type := tensor * option (gmap string (list elem * list Z)).

(** [d.update(zip(names, tensors))]. *)
Definition update_zip (d : gmap string Entry) (names : list string)
    (tensors : list tensor) : gmap string Entry :=
  foldl (fun m kv => <[kv.1 := Lone kv.2]> m) d (zip names tensors).

(** The first loop of [_handle_tensors]: the dictionary [X] of every
    column of the batch. *)
Definition assemble_columns (tensors : list Group) (tensor_names : list (list string))
  : gmap string Entry :=
  foldl (fun X tn =>
    let '((tensor, lists_opt), names) := tn in
    let lists : gmap string Entry :=
      from_option (fmap (fun vi : list elem * list Z => Pair vi.1 vi.2)) ∅ lists_opt in
    let names := filter (fun i => lists !! i = None) names in
    let lists :=
      if 1 <? len names then update_zip lists names (_tensor_split tensor (len names))
      else match names with
           | [name] => <[name := Lone tensor]> lists
           | _ => lists
           end in
    lists ∪ X) ∅ (zip tensors tensor_names).

(** The second loop of [_handle_tensors]: sparse materialisation of the
    columns of [sparse_names] that have an entry in [sparse_max]. *)
Fixpoint materialize_sparse (self : LoaderBase) (names : list string)
    (X : gmap string Entry) : result (gmap string Entry) :=
  match names with
  | [] => Ok X
  | column_name :: names' =>
      if bool_decide (is_Some (sparse_max self !! column_name)) then
        match X !! column_name with
        | None => Raise (KeyError column_name)
        | Some values_offset =>
            t ← _to_sparse_tensor self values_offset column_name;
            materialize_sparse self names' (<[column_name := Lone t]> X)
        end
      else materialize_sparse self names' X
  end.

(** [LoaderBase._handle_tensors], for a loader without transforms. *)
Definition _handle_tensors (self : LoaderBase) (tensors : list Group)
    (tensor_names : list (list string))
  : result (gmap string Entry * option Entry) :=
  let X := assemble_columns tensors tensor_names in
  X ← materialize_sparse self (sparse_names self) X;
  match label_names self with
  | [] => Ok (X, None)
  | label :: _ =>
      match X !! label with
      | None => Raise (KeyError label)
      | Some labels => Ok (delete label X, Some labels)
      end
  end.

End LoaderBase.

(** ** [ChunkQueue]: the background producer

    [q_out] is the channel from the single producer to the single
    consumer.  [_buff] creates it as [queue.Queue(1)]: a [put] on a full
    queue waits, re-checking the stop flag, until the consumer has taken
    the pending item.  This module has the methods as the thread runs
    them by itself, without a consumer: [q_out] is then the record of
    what the thread enqueues, in order, and [put] does not wait.  The
    module [Threads] has the same thread step by step on the queue of
    capacity [1], next to the consumer; [load_chunks_outputs] relates the
    two. *)

Module ChunkQueue.

(** How the body of the [for] loop of [chunk_logic] leaves: to the next
    round, or by [return]. *)
Inductive flow (A : Type) : Type :=
  | Next (a : A)
  | Return.
Arguments Next {A} a.
Arguments Return {A}.

Section ChunkQueue.
Context `{Runtime}.

(** An item of [q_out]: the batches of one chunk, or an exception. *)
Inductive packet : Type :=
  | Batches (chunks : list (list Row))
  | Failure (e : exn).

Record t : Type := {
  num_parts : Z;
  shuffle : bool;
  (** [_stop_event.is_set()] *)
  _stop_event : bool;
  q_out : list packet;
  itr : list (result (list Row));
  (** [len(itr)] *)
  itr_len : Z;
}.

Definition set_stop_event (b : bool) (self : t) : t :=
  {| num_parts := num_parts self; shuffle := shuffle self; _stop_event := b;
     q_out := q_out self; itr := itr self; itr_len := itr_len self |}.

Definition set_q_out (q : list packet) (self : t) : t :=
  {| num_parts := num_parts self; shuffle := shuffle self;
     _stop_event := _stop_event self;
     q_out := q; itr := itr self; itr_len := itr_len self |}.

Definition __len__ (self : t) : Z := itr_len self.

Definition stopped (self : t) : bool := _stop_event self.

Definition empty (self : t) : bool := bool_decide (q_out self = []).

(** [q_out.get()]: waits on an empty queue. *)
Definition get : st t packet := fun self =>
  match q_out self with
  | [] => (self, Blocked)
  | packet :: rest => (set_q_out rest self, Ok packet)
  end.

(** [put], for the thread running by itself: returns [True] without
    enqueueing when the queue is stopped, and otherwise appends to the
    record [q_out].  The wait on a full queue is in [Threads.step]. *)
Definition put (packet : packet) : st t bool := fun self =>
  if stopped self then (self, Ok true)
  else (set_q_out (q_out self ++ [packet]) self, Ok false).

(** The generator [batch], as the list of the outcomes of its
    successive [next]: groups of [num_parts] partitions, a shorter last
    group, and the exception of the underlying iterator if it raises. *)
Fixpoint batch_from (num_parts : Z) (current : list (list Row))
    (itr : list (result (list Row))) : list (result (list (list Row))) :=
  match itr with
  | [] => if 0 <? len current then [Ok current] else []
  | Ok value :: itr' =>
      let current := current ++ [value] in
      if len current =? num_parts
      then Ok current :: batch_from num_parts [] itr'
      else batch_from num_parts current itr'
  | Raise StopIteration :: _ => if 0 <? len current then [Ok current] else []
  | Raise e :: _ => [Raise e]
  | Blocked :: _ => [Blocked]
  end.

Definition batch (self : t) (itr : list (result (list Row)))
  : list (result (list (list Row))) :=
  batch_from (num_parts self) [] itr.

(** [get_batch_div_chunk]: [int(n / batch_size)] truncates the quotient
    towards zero. *)
Definition get_batch_div_chunk (chunks : list Row) (batch_size : Z)
  : result (list Row * list Row) :=
  if batch_size =? 0 then Raise ZeroDivisionError
  else
    let spill_idx := (len chunks ÷ batch_size) * batch_size in
    let spill := slice chunks (Some spill_idx) None in
    let chunks := slice chunks None (Some spill_idx) in
    Ok (chunks, spill).

(** The [for] loop of [chunk_logic] over the groups of [batch]. *)
Fixpoint chunk_logic_loop (dataloader : LoaderBase)
    (groups : list (result (list (list Row)))) (spill : option (list Row))
  : st t (flow (option (list Row))) :=
  match groups with
  | [] => mret (Next spill)
  | Raise e :: _ => raise e
  | Blocked :: _ => lift Blocked
  | Ok chunks :: groups' =>
      is_stopped ← gets stopped;
      if is_stopped : bool then mret Return
      else
        let chunks :=
          match spill with
          | Some sp => if bool_decide (sp = []) then chunks else sp :: chunks
          | None => chunks
          end in
        let chunks := concat chunks in
        '(chunks, spill) ← lift (get_batch_div_chunk chunks (batch_size dataloader));
        shuffled ← gets shuffle;
        let chunks := if shuffled : bool then shuffle_df chunks else chunks in
        if 0 <? len chunks then
          tensors ← lift (make_tensors dataloader chunks);
          was_stopped ← put (Batches tensors);
          if was_stopped : bool then mret Return
          else chunk_logic_loop dataloader groups' (Some spill)
        else chunk_logic_loop dataloader groups' (Some spill)
  end.

(** [chunk_logic]. *)
Definition chunk_logic (dataloader : LoaderBase)
    (itr : list (result (list Row))) : st t unit :=
  self ← gets id;
  out ← chunk_logic_loop dataloader (batch self itr) None;
  match out with
  | Return => mret tt
  | Next spill =>
      match spill with
      | Some sp =>
          if negb (drop_last dataloader) && negb (bool_decide (sp = [])) then
            tensors ← lift (make_tensors dataloader sp);
            _ ← put (Batches tensors);
            mret tt
          else mret tt
      | None => mret tt
      end
  end.

(** [load_chunks]: the device context is a scope of the tensor runtime
    and has no effect on the rows. *)
Definition load_chunks (dataloader : LoaderBase) : st t unit := fun self =>
  match chunk_logic dataloader (itr self) self with
  | (self', Raise e) =>
      match put (Failure e) self' with
      | (self'', _) => (self'', Ok tt)
      end
  | r => r
  end.

Definition stop : st t unit :=
  modify (fun self => set_q_out [] (set_stop_event true self)).

Definition start : st t unit := modify (set_stop_event false).

End ChunkQueue.
End ChunkQueue.

(** ** [LoaderBase]: the consumer-facing object *)

Section Loader.
Context `{Runtime}.

Record Thread : Type := { is_alive : bool }.

(** A loader object: the attributes fixed by the constructor and the
    mutable ones.  The private attributes [__buff] and [__buff_len] are
    the caches behind the properties [_buff] and [_buff_len]. *)
Record Loader : Type := {
  attrs : LoaderBase;
  indices : list Z;
  random_state : RandomState;
  _epochs : Z;
  num_rows_processed : Z;
  __buff : option ChunkQueue.t;
  __buff_len : option Z;
  _batch_itr : option (list (list Row));
  _workers : option (list Thread);
}.

Definition set_indices (v : list Z) (r : RandomState) (self : Loader) : Loader :=
  {| attrs := attrs self; indices := v; random_state := r;
     _epochs := _epochs self; num_rows_processed := num_rows_processed self;
     __buff := __buff self; __buff_len := __buff_len self;
     _batch_itr := _batch_itr self; _workers := _workers self |}.

Definition set_epochs (v : Z) (self : Loader) : Loader :=
  {| attrs := attrs self; indices := indices self; random_state := random_state self;
     _epochs := v; num_rows_processed := num_rows_processed self;
     __buff := __buff self; __buff_len := __buff_len self;
     _batch_itr := _batch_itr self; _workers := _workers self |}.

Definition set_num_rows_processed (v : Z) (self : Loader) : Loader :=
  {| attrs := attrs self; indices := indices self; random_state := random_state self;
     _epochs := _epochs self; num_rows_processed := v;
     __buff := __buff self; __buff_len := __buff_len self;
     _batch_itr := _batch_itr self; _workers := _workers self |}.

Definition set_buff (v : option ChunkQueue.t) (self : Loader) : Loader :=
  {| attrs := attrs self; indices := indices self; random_state := random_state self;
     _epochs := _epochs self; num_rows_processed := num_rows_processed self;
     __buff := v; __buff_len := __buff_len self;
     _batch_itr := _batch_itr self; _workers := _workers self |}.

Definition set_buff_len (v : option Z) (self : Loader) : Loader :=
  {| attrs := attrs self; indices := indices self; random_state := random_state self;
     _epochs := _epochs self; num_rows_processed := num_rows_processed self;
     __buff := __buff self; __buff_len := v;
     _batch_itr := _batch_itr self; _workers := _workers self |}.

Definition set_batch_itr (v : option (list (list Row))) (self : Loader) : Loader :=
  {| attrs := attrs self; indices := indices self; random_state := random_state self;
     _epochs := _epochs self; num_rows_processed := num_rows_processed self;
     __buff := __buff self; __buff_len := __buff_len self;
     _batch_itr := v; _workers := _workers self |}.

Definition set_workers (v : option (list Thread)) (self : Loader) : Loader :=
  {| attrs := attrs self; indices := indices self; random_state := random_state self;
     _epochs := _epochs self; num_rows_processed := num_rows_processed self;
     __buff := __buff self; __buff_len := __buff_len self;
     _batch_itr := _batch_itr self; _workers := v |}.

(** *** Construction *)

Definition dense_without_value_count_message (col_name : string) : string :=
  "Dense column " +:+ col_name +:+ " doesn't have the max value_count defined"
  +:+ " in the schema".

Definition no_columns_message : string :=
  "Neither Categorical or Continuous columns were found by the dataloader. "
  +:+ "You must either specify the cat_names, cont_names and "
  +:+ "label_names properties or supply a schema.pbtxt file in dataset directory.".

(** The loop of [__init__] over [dataset.schema.column_schemas]. *)
Fixpoint scan_columns (columns : Schema)
    (dtype_reverse_map : gmap string (list string)) (sparse_names : list string)
    (sparse_max : gmap string Z) (sparse_as_dense : gset string)
  : result (gmap string (list string) * list string * gmap string Z * gset string) :=
  match columns with
  | [] => Ok (dtype_reverse_map, sparse_names, sparse_max, sparse_as_dense)
  | (col_name, col_spec) :: columns' =>
      let dtype_reverse_map :=
        <[dtype col_spec := default [] (dtype_reverse_map !! dtype col_spec) ++ [col_name]]>
          dtype_reverse_map in
      if is_list col_spec then
        let sparse_names := sparse_names ++ [col_name] in
        let sparse_max :=
          match value_count col_spec with
          | Some vc =>
              if ValueCount.min vc =? ValueCount.max vc
              then <[col_name := ValueCount.max vc]> sparse_max
              else sparse_max
          | None => sparse_max
          end in
        if negb (is_ragged col_spec) then
          let sparse_as_dense := {[col_name]} ∪ sparse_as_dense in
          match value_count col_spec with
          | None => Raise (ValueError (dense_without_value_count_message col_name))
          | Some _ =>
              scan_columns columns' dtype_reverse_map sparse_names sparse_max
                sparse_as_dense
          end
        else
          scan_columns columns' dtype_reverse_map sparse_names sparse_max
            sparse_as_dense
      else
        scan_columns columns' dtype_reverse_map sparse_names sparse_max sparse_as_dense
  end.

(** [LoaderBase.__init__] without transforms.  [dataset] is the dataset
    as lines 83 to 88 leave it: for a dataset that comes without a
    schema, [schema dataset] is the one that [dataset.infer_schema()]
    returns and that the constructor stores in it. *)
Definition __init__ (dataset : Dataset) (batch_size : Z) (shuffle : bool)
    (seed_fn : option (RandomState -> Z)) (parts_per_chunk : Z)
    (global_size global_rank : option Z) (drop_last : bool)
    (use_nnz : bool) (rng : RandomState) : result Loader :=
  '(dtype_reverse_map, sparse_names, sparse_max, sparse_as_dense) ←
    scan_columns (schema dataset) ∅ [] ∅ ∅;
  if bool_decide (size dtype_reverse_map = 0%nat)
  then Raise (ValueError no_columns_message)
  else
    Ok {| attrs :=
            {| dataset := dataset; batch_size := batch_size; shuffle := shuffle;
               seed_fn := seed_fn; parts_per_chunk := parts_per_chunk;
               global_size := or_default global_size 1;
               global_rank := or_default global_rank 0;
               drop_last := drop_last;
               sparse_names := sparse_names; sparse_max := sparse_max;
               sparse_as_dense := sparse_as_dense;
               dtype_reverse_map := dtype_reverse_map;
               cat_names := select_by_tag (schema dataset) CATEGORICAL;
               cont_names := select_by_tag (schema dataset) CONTINUOUS;
               label_names := select_by_tag (schema dataset) TARGET;
               _use_nnz := use_nnz |};
          indices := arange (npartitions dataset);
          random_state := rng;
          _epochs := 1;
          num_rows_processed := 0;
          __buff := None; __buff_len := None;
          _batch_itr := None; _workers := None |}.

(** *** Sharding *)

(** [LoaderBase._indices_for_process]. *)
Definition _indices_for_process (self : Loader) : result (list Z) :=
  if len (indices self) <? global_size (attrs self) then Raise IndexError
  else
    per_worker ← _num_steps (len (indices self)) (global_size (attrs self));
    let start := global_rank (attrs self) * per_worker in
    Ok (slice (indices self) (Some start) (Some (start + per_worker))).

(** [LoaderBase._shuffle_indices]. *)
Definition _shuffle_indices : st Loader unit :=
  modify (fun self =>
    let rank := global_rank (attrs self) in
    let size := global_size (attrs self) in
    let rs := generate_local_seed rank size (random_state self) in
    let rs :=
      match seed_fn (attrs self) with
      | Some f => random_seed (f rs) rs
      | None => rs
      end in
    let '(shuffled, rs) := random_shuffle (indices self) rs in
    set_indices shuffled (generate_local_seed rank size rs) self).

(** [LoaderBase._data_iter]: the iterator and its length. *)
Definition _data_iter (self : Loader) (epochs : Z)
  : result (list (result (list Row)) * Z) :=
  indices ← _indices_for_process self;
  Ok (to_iter (dataset (attrs self)) indices epochs,
      iter_len (dataset (attrs self)) indices epochs).

(** *** The producer behind the loader *)

(** The property [_buff]: the queue is created on first use. *)
Definition _buff : st Loader ChunkQueue.t := fun self =>
  match __buff self with
  | Some q => (self, Ok q)
  | None =>
      match _data_iter self (_epochs self) with
      | Ok (itr, n) =>
          let q :=
            {| ChunkQueue.num_parts := parts_per_chunk (attrs self);
               ChunkQueue.shuffle := shuffle (attrs self);
               ChunkQueue._stop_event := false;
               ChunkQueue.q_out := [];
               ChunkQueue.itr := itr;
               ChunkQueue.itr_len := n |} in
          (set_buff (Some q) self, Ok q)
      | Raise e => (self, Raise e)
      | Blocked => (self, Blocked)
      end
  end.

(** A method call [self._buff.m(...)]: the queue is shared, so what the
    call does to it is seen through [self._buff] afterwards. *)
Definition on_buff {A : Type} (m : st ChunkQueue.t A) : st Loader A :=
  q ← _buff;
  let '(q', r) := m q in
  _ ← modify (set_buff (Some q'));
  lift r.

(** The property [_buff_len]. *)
Definition _buff_len : st Loader Z :=
  cached ← gets __buff_len;
  match cached with
  | Some n => mret n
  | None =>
      q ← _buff;
      _ ← modify (set_buff_len (Some (ChunkQueue.__len__ q)));
      mret (ChunkQueue.__len__ q)
  end.

(** [LoaderBase.__len__]. *)
Definition __len__ : st Loader Z :=
  self ← gets id;
  n ← _buff_len;
  batches ← lift (_num_steps n (batch_size (attrs self)));
  if drop_last (attrs self) && (0 <? n `mod` batch_size (attrs self))
  then mret (batches - 1)
  else mret batches.

(** The property [_working]. *)
Definition _working (self : Loader) : bool :=
  match _workers self with
  | Some ts => existsb is_alive ts
  | None => false
  end.

(** [LoaderBase.stop].  Joining a worker waits until it has returned;
    what it enqueued meanwhile is cleared right after. *)
Definition stop : st Loader unit :=
  workers ← gets _workers;
  _ ← match workers with
      | Some ts =>
          q ← _buff;
          _ ← (if negb (ChunkQueue.stopped q) then on_buff ChunkQueue.stop else mret tt);
          _ ← modify (set_workers None);
          on_buff (modify (ChunkQueue.set_q_out []))
      | None => mret tt
      end;
  modify (set_batch_itr None).

(** [LoaderBase._set_epochs]. *)
Definition _set_epochs (epochs : Z) : st Loader unit :=
  _ ← stop;
  _ ← modify (set_buff None);
  _ ← modify (set_buff_len None);
  modify (set_epochs epochs).

(** [LoaderBase.__iter__] followed by the whole run of the thread that
    it starts, on the record [q_out]: the state in which the consumer
    finds the loader when it does nothing until the thread has returned.
    The call as the source has it, which starts the thread and returns,
    is [Threads.__iter__]. *)
Definition __iter__ : st Loader unit :=
  _ ← stop;
  _ ← modify (set_num_rows_processed 0);
  q ← _buff;
  _ ← (if ChunkQueue.stopped q then on_buff ChunkQueue.start else mret tt);
  self ← gets id;
  _ ← (if shuffle (attrs self) then _shuffle_indices else mret tt);
  _ ← modify (set_workers (Some []));
  _ ← on_buff (ChunkQueue.load_chunks (attrs self));
  modify (set_workers (Some [ {| is_alive := false |} ])).

(** [LoaderBase._fetch_chunk]. *)
Definition _fetch_chunk : st Loader unit :=
  chunks ← on_buff ChunkQueue.get;
  match chunks with
  | ChunkQueue.Failure e => _ ← stop; raise e
  | ChunkQueue.Batches batches => modify (set_batch_itr (Some batches))
  end.

End Loader.

(** ** Reference notions used by the statements *)

(** The block of partition indices of shard [r] when each shard takes
    [per_shard] of [P] partitions: [[r * per_shard, r * per_shard + per_shard)]
    clipped to [[0, P)]. *)
Definition shard_block (P per_shard r : Z) : list Z :=
  let lo := Z.min (r * per_shard) P in
  let hi := Z.min (r * per_shard + per_shard) P in
  seqZ lo (hi - lo).

(** Names of the list columns of a schema, in order. *)
Definition list_columns (columns : Schema) : list string :=
  (filter (fun c => is_list c.2 = true) columns).*1.

(** A list column has a fixed length when its value count exists and has
    [min] equal to [max]. *)
Definition has_fixed_length (spec : ColumnSchema) : Prop :=
  is_list spec = true /\
  exists vc, value_count spec = Some vc /\ ValueCount.min vc = ValueCount.max vc.

(** A list column declared dense (not ragged) that has no value count. *)
Definition dense_without_value_count (spec : ColumnSchema) : Prop :=
  is_list spec = true /\ is_ragged spec = false /\ value_count spec = None.

(** A column tagged categorical, continuous or target. *)
Definition has_role (spec : ColumnSchema) : Prop :=
  CATEGORICAL ∈ tags spec \/ CONTINUOUS ∈ tags spec \/ TARGET ∈ tags spec.

(** A computation keeps a property of the object it runs on. *)
Definition preserves {S A : Type} (P : S -> Prop) (m : st S A) : Prop :=
  forall s, P s -> P (m s).1.

(** A runtime on which the embedding can be evaluated: rows and leaf
    values are numbers, a tensor is the list of the numbers it holds, and
    both shuffles reverse their argument. *)
Definition list_runtime : Runtime :=
  {| Row := Z;
     tensor := list Z;
     elem := Z;
     RandomState := Z;
     shuffle_df := reverse;
     _tensor_split := fun t n => (fun x => [x]) <$> t;
     _build_sparse_tensor := fun values offsets diff_offsets num_rows seq_limit dense =>
       values;
     _pull_values_offsets_lone := fun t => (t, arange (len t + 1), (fun _ => 1) <$> t, len t);
     generate_local_seed := fun rank size rs => rs + rank;
     random_seed := fun seed rs => seed;
     random_shuffle := fun l rs => (reverse l, rs + 1) |}.

(** Loader attributes over that runtime, for a dataset of the given
    partitions whose schema has the single continuous column [x]. *)
Definition example_attrs (parts : list (list Z)) (batch_size parts_per_chunk : Z)
    (shuffle drop_last : bool) (global_size global_rank : Z)
  : @LoaderBase list_runtime :=
  {| dataset :=
       {| schema := [("x", {| dtype := "float32"; tags := [CONTINUOUS];
                              is_list := false; is_ragged := false;
                              value_count := None |})];
          partitions := parts : list (list (@Row list_runtime));
          read_error := fun _ => None |};
     batch_size := batch_size; shuffle := shuffle; seed_fn := None;
     parts_per_chunk := parts_per_chunk;
     global_size := global_size; global_rank := global_rank;
     drop_last := drop_last;
     sparse_names := []; sparse_max := ∅; sparse_as_dense := ∅;
     dtype_reverse_map := {["float32" := ["x"]]};
     cat_names := []; cont_names := ["x"]; label_names := [];
     _use_nnz := false |}.

(** A dataset without partitions whose schema has the list column [seq]
    of fixed length [5], the ragged list column [tags] without a value
    count, and the target column [y]. *)
Definition sequence_dataset : @Dataset list_runtime :=
  {| schema :=
       [("seq", {| dtype := "int64"; tags := [CATEGORICAL];
                   is_list := true; is_ragged := true;
                   value_count :=
                     Some {| ValueCount.min := 5; ValueCount.max := 5 |} |});
        ("tags", {| dtype := "int64"; tags := [CATEGORICAL];
                    is_list := true; is_ragged := true;
                    value_count := None |});
        ("y", {| dtype := "float32"; tags := [TARGET];
                 is_list := false; is_ragged := false;
                 value_count := None |})];
     partitions := [];
     read_error := fun _ => None |}.

(** The attributes that the constructor derives from that dataset. *)
Definition sequence_attrs : @LoaderBase list_runtime :=
  {| dataset := sequence_dataset;
     batch_size := 2; shuffle := false; seed_fn := None; parts_per_chunk := 1;
     global_size := 1; global_rank := 0; drop_last := false;
     sparse_names := ["seq"; "tags"]; sparse_max := {["seq" := 5]};
     sparse_as_dense := ∅;
     dtype_reverse_map := {["int64" := ["seq"; "tags"]; "float32" := ["y"]]};
     cat_names := ["seq"; "tags"]; cont_names := []; label_names := ["y"];
     _use_nnz := false |}.

Definition sequence_loader : @Loader list_runtime :=
  {| attrs := sequence_attrs;
     indices := [];
     random_state := 0 : @RandomState list_runtime;
     _epochs := 1;
     num_rows_processed := 0;
     __buff := None; __buff_len := None;
     _batch_itr := None; _workers := None |}.

(** A dataset whose only column carries none of the tags [CATEGORICAL],
    [CONTINUOUS] and [TARGET]. *)
Definition untagged_dataset : @Dataset list_runtime :=
  {| schema := [("x", {| dtype := "float32"; tags := [];
                         is_list := false; is_ragged := false;
                         value_count := None |})];
     partitions := [[1; 2; 3]] : list (list (@Row list_runtime));
     read_error := fun _ => None |}.

(** A loader over those attributes, as the constructor leaves it. *)
Definition example_loader (parts : list (list Z)) (batch_size parts_per_chunk : Z)
    (shuffle drop_last : bool) (global_size global_rank : Z)
  : @Loader list_runtime :=
  {| attrs := example_attrs parts batch_size parts_per_chunk shuffle drop_last
                global_size global_rank;
     indices := arange (len parts);
     random_state := 0 : @RandomState list_runtime;
     _epochs := 1;
     num_rows_processed := 0;
     __buff := None; __buff_len := None;
     _batch_itr := None; _workers := None |}.

(** Ten partitions of a hundred rows each, numbered from [0] to [999]. *)
Definition ten_partitions : list (list Z) :=
  (fun p => seqZ (100 * p) 100) <$> seqZ 0 10.

(** A queue over [example_attrs] whose iterator raises on its first
    [next]. *)
Definition failing_queue (stop_event : bool) : @ChunkQueue.t list_runtime :=
  {| ChunkQueue.num_parts := 1;
     ChunkQueue.shuffle := false;
     ChunkQueue._stop_event := stop_event;
     ChunkQueue.q_out := [];
     ChunkQueue.itr := [Raise (RuntimeError "read failed")];
     ChunkQueue.itr_len := 0 |}.

(** A queue that is not stopped over an iterator yielding [parts]. *)
Definition example_queue (parts : list (list Z)) (num_parts : Z) (shuffle : bool)
  : @ChunkQueue.t list_runtime :=
  {| ChunkQueue.num_parts := num_parts;
     ChunkQueue.shuffle := shuffle;
     ChunkQueue._stop_event := false;
     ChunkQueue.q_out := [];
     ChunkQueue.itr := Ok <$> (parts : list (list (@Row list_runtime)));
     ChunkQueue.itr_len := len (concat parts) |}.

(** The batches of the packets of a queue, in order. *)
Definition queued_batches `{Runtime} (q : ChunkQueue.t) : list (list Row) :=
  concat ((fun packet =>
             match packet with
             | ChunkQueue.Batches batches => batches
             | ChunkQueue.Failure _ => []
             end) <$> ChunkQueue.q_out q).

(** The row counts of the batches of the packets of a queue, packet by
    packet. *)
Definition batch_sizes `{Runtime} (q : ChunkQueue.t) : list (list Z) :=
  (fun packet =>
     match packet with
     | ChunkQueue.Batches batches => len <$> batches
     | ChunkQueue.Failure _ => []
     end) <$> ChunkQueue.q_out q.

(** Names of the columns of a schema that have dtype [d], in order. *)
Definition columns_of_dtype (columns : Schema) (d : string) : list string :=
  (filter (fun c => dtype c.2 = d) columns).*1.


(** What the worker may append to the queue: packets of batches, then at
    most one exception. *)
Definition worker_output `{Runtime} (extra : list ChunkQueue.packet) : Prop :=
  exists (packets : list (list (list Row))) (failure : list ChunkQueue.packet),
    extra = (ChunkQueue.Batches <$> packets) ++ failure /\
    (failure = [] \/ exists e, failure = [ChunkQueue.Failure e]).


(** The loader has a queue, and the queue reads the stream [stream] of
    length [n]. *)
Definition reads `{Runtime} (stream : list (result (list Row))) (n : Z) (s : Loader) : Prop :=
  exists q, __buff s = Some q /\ ChunkQueue.itr q = stream /\ ChunkQueue.itr_len q = n.


(** The loader shards as [self] does, and its queue, if it has one, reads
    what [_data_iter] gives on [self]. *)
Definition shards_as `{Runtime} (self s : Loader) : Prop :=
  attrs s = attrs self /\ indices s = indices self /\ _epochs s = _epochs self /\
  forall q, __buff s = Some q ->
    _data_iter self (_epochs self) = Ok (ChunkQueue.itr q, ChunkQueue.itr_len q).


(** The loader keeps its attributes, its number of epochs and, up to
    their order, its partition indices. *)
Definition keeps_indices `{Runtime} (self s : Loader) : Prop :=
  attrs s = attrs self /\ _epochs s = _epochs self /\
  indices s ≡ₚ indices self /\
  (shuffle (attrs self) = false ->
   indices s = indices self /\ random_state s = random_state self).


(** *** The consumer *)

Section Consumer.
Context `{Runtime}.

(** [handle rows] stands for the call [_handle_tensors(batch, names)] that
    the generator returned by [make_tensors] runs on the tensors of the
    rows of one batch when it is asked for that batch; [tensor_len] is
    [len] of a tensor of the framework. *)
Context (handle : list Row -> result (gmap string Entry * option Entry)).
Context (tensor_len : tensor -> Z).

(** [len(sub)] for a member of a batch that is not a dictionary: a
    tensor, or a pair of values and offsets. *)
Definition entry_len (entry : Entry) : Z :=
  match entry with
  | Lone t => tensor_len t
  | Pair _ _ => 2
  end.

(** [next(self._batch_itr)].  The generator is finished once the call it
    runs has raised; a [StopIteration] raised inside a generator leaves
    it as a [RuntimeError]. *)
Definition next_batch : st Loader (gmap string Entry * option Entry) := fun self =>
  match _batch_itr self with
  | None => (self, Raise (TypeError "'NoneType' object is not an iterator"))
  | Some [] => (self, Raise StopIteration)
  | Some (rows :: rest) =>
      match handle rows with
      | Ok batch => (set_batch_itr (Some rest) self, Ok batch)
      | Raise StopIteration =>
          (set_batch_itr (Some []) self,
           Raise (RuntimeError "generator raised StopIteration"))
      | Raise e => (set_batch_itr (Some []) self, Raise e)
      | Blocked => (self, Blocked)
      end
  end.

(** The loop [for sub in batch] at the end of [_get_next_batch], over the
    features and the labels: the first member that is not [None] and has
    a positive [len] is counted. *)
Definition count_batch (batch : gmap string Entry * option Entry) : Z :=
  let '(X, labels) := batch in
  if 0 <? Z.of_nat (size X) then Z.of_nat (size X)
  else
    match labels with
    | Some sub => if 0 <? entry_len sub then entry_len sub else 0
    | None => 0
    end.

(** [LoaderBase._get_next_batch]. *)
Definition _get_next_batch : st Loader (gmap string Entry * option Entry) :=
  workers ← gets _workers;
  _ ← (if workers is None then __iter__ else mret tt);
  batch_itr ← gets _batch_itr;
  _ ← (if batch_itr is None then _fetch_chunk else mret tt);
  batch ← (fun self =>
             match next_batch self with
             | (self, Raise StopIteration) =>
                 (working ← gets _working;
                  exhausted ← (if working : bool then mret false
                               else q ← _buff; mret (ChunkQueue.empty q));
                  if exhausted : bool then
                    _ ← modify (set_workers None);
                    _ ← modify (set_batch_itr None);
                    raise StopIteration
                  else
                    _ ← _fetch_chunk;
                    next_batch) self
             | r => r
             end);
  _ ← modify (fun self =>
                set_num_rows_processed (num_rows_processed self + count_batch batch) self);
  mret batch.

(** [n] successive calls of [_get_next_batch], with the batches they
    return. *)
Fixpoint next_n (n : nat) : st Loader (list (gmap string Entry * option Entry)) :=
  match n with
  | O => mret []
  | S n' =>
      batch ← _get_next_batch;
      batches ← next_n n';
      mret (batch :: batches)
  end.

(** The batches that the consumer still holds or finds queued, in the
    order in which it will reach them. *)
Definition backlog (self : Loader) : list (list Row) :=
  default [] (_batch_itr self)
  ++ match __buff self with
     | Some q => queued_batches q
     | None => []
     end.

(** The worker of the loader has finished, and what it left in the queue
    are lists of batches, none of them empty; a consumer that has not
    fetched anything yet finds something queued. *)
Definition draining (self : Loader) : Prop :=
  is_Some (_workers self) /\ _working self = false /\
  exists q,
    __buff self = Some q /\
    Forall (fun packet =>
              exists batches, packet = ChunkQueue.Batches batches /\ batches <> [])
      (ChunkQueue.q_out q) /\
    (_batch_itr self = None -> ChunkQueue.q_out q <> []).

End Consumer.

(** A conversion for [list_runtime]: the single feature column [x] holds
    the rows of the batch; there are no labels. *)
Definition example_handle (rows : list (@Row list_runtime))
  : result (gmap string (@Entry list_runtime) * option (@Entry list_runtime)) :=
  Ok ({[ "x" := @Lone list_runtime rows ]}, None).

(** One tensor group with the columns [seq] and [tags] as pairs of values
    and offsets, and one with the scalar column [y]. *)
Definition sequence_tensors : list (@Group list_runtime) :=
  [([] : @tensor list_runtime,
    Some {[ "seq" := ([1; 2; 3; 4; 5], [0]);
            "tags" := ([1; 2; 3; 4; 5; 6; 7; 8], [0]) ]});
   ([7], None)].

(** [len] of a tensor of [list_runtime]. *)
Definition example_tensor_len (t : @tensor list_runtime) : Z := len t.

(** ** The worker thread and the bounded queue

    [__iter__] starts the worker as a daemon thread and returns; from
    then on the worker and the consumer run side by side and meet at the
    stop flag and at [q_out], which [_buff] creates as [queue.Queue(1)].
    Here the worker is the sequence of its accesses to the two, each of
    them one step; the consumer lets the worker take the steps that a
    schedule gives it before each of its own accesses, and waits in
    [q_out.get()] and in [join()] while the worker runs.  The statements
    over this module hold for every schedule. *)

Module Threads.

Section Process.
Context `{Runtime}.

(** What is left of the run of the worker. *)
Inductive process : Type :=
  (** the thread has returned *)
  | Exit
  (** the thread is about to return from [load_chunks]; it is still
      alive *)
  | Return
  (** the thread waits on its iterator for ever *)
  | Hang
  (** at [if self.stopped] in [chunk_logic] *)
  | Check (k : bool -> process)
  (** at the head of the loop of [put(packet)]; [k] takes what [put]
      returns *)
  | Put (packet : ChunkQueue.packet) (k : bool -> process)
  (** in the loop of [put(packet)], past the test of the stop flag, at
      [q_out.put(packet, timeout=put_wait)] *)
  | Putting (packet : ChunkQueue.packet) (k : bool -> process).

(** The bound of [q_out]: [_buff] passes [1] for [qsize]. *)
Definition qsize : Z := 1.

(** The [for] loop of [chunk_logic]; [except] is the handler that an
    exception reaches, [after] what follows the loop. *)
Fixpoint chunk_logic_loop (dataloader : LoaderBase) (shuffle : bool)
    (groups : list (result (list (list Row)))) (spill : option (list Row))
    (except : exn -> process) (after : option (list Row) -> process) : process :=
  match groups with
  | [] => after spill
  | Raise e :: _ => except e
  | Blocked :: _ => Hang
  | Ok chunks :: groups' =>
      Check (fun is_stopped =>
        if is_stopped : bool then Return
        else
          let chunks :=
            match spill with
            | Some sp => if bool_decide (sp = []) then chunks else sp :: chunks
            | None => chunks
            end in
          let chunks := concat chunks in
          match ChunkQueue.get_batch_div_chunk chunks (batch_size dataloader) with
          | Ok (chunks, spill) =>
              let chunks := if shuffle then shuffle_df chunks else chunks in
              if 0 <? len chunks then
                match make_tensors dataloader chunks with
                | Ok tensors =>
                    Put (ChunkQueue.Batches tensors) (fun was_stopped =>
                      if was_stopped : bool then Return
                      else chunk_logic_loop dataloader shuffle groups' (Some spill)
                             except after)
                | Raise e => except e
                | Blocked => Hang
                end
              else chunk_logic_loop dataloader shuffle groups' (Some spill) except after
          | Raise e => except e
          | Blocked => Hang
          end)
  end.

(** [chunk_logic]. *)
Definition chunk_logic (dataloader : LoaderBase) (self : ChunkQueue.t)
    (itr : list (result (list Row))) (except : exn -> process) : process :=
  chunk_logic_loop dataloader (ChunkQueue.shuffle self) (ChunkQueue.batch self itr) None
    except
    (fun spill =>
       match spill with
       | Some sp =>
           if negb (drop_last dataloader) && negb (bool_decide (sp = [])) then
             match make_tensors dataloader sp with
             | Ok tensors => Put (ChunkQueue.Batches tensors) (fun _ => Return)
             | Raise e => except e
             | Blocked => Hang
             end
           else Return
       | None => Return
       end).

(** [load_chunks], the target of the thread. *)
Definition load_chunks (dataloader : LoaderBase) (self : ChunkQueue.t) : process :=
  chunk_logic dataloader self (ChunkQueue.itr self)
    (fun e => Put (ChunkQueue.Failure e) (fun _ => Return)).

(** [t.is_alive()]. *)
Definition alive (w : process) : bool :=
  match w with
  | Exit => false
  | _ => true
  end.

(** One step of the worker on the queue.  A [q_out.put] that finds the
    queue full times out and the loop of [put] starts over. *)
Definition step (w : process) (q : ChunkQueue.t) : process * ChunkQueue.t :=
  match w with
  | Exit => (Exit, q)
  | Return => (Exit, q)
  | Hang => (Hang, q)
  | Check k => (k (ChunkQueue.stopped q), q)
  | Put packet k =>
      if ChunkQueue.stopped q then (k true, q) else (Putting packet k, q)
  | Putting packet k =>
      if len (ChunkQueue.q_out q) <? qsize
      then (k false, ChunkQueue.set_q_out (ChunkQueue.q_out q ++ [packet]) q)
      else (Put packet k, q)
  end.

Fixpoint steps (n : nat) (w : process) (q : ChunkQueue.t) : process * ChunkQueue.t :=
  match n with
  | O => (w, q)
  | S n' => let '(w', q') := step w q in steps n' w' q'
  end.

(** The worker running by itself until something is queued, or until it
    has returned or hangs: what goes on while the consumer waits in
    [q_out.get()]. *)
Fixpoint until_put (w : process) (q : ChunkQueue.t) : process * ChunkQueue.t :=
  match ChunkQueue.q_out q with
  | _ :: _ => (w, q)
  | [] =>
      match w with
      | Exit => (Exit, q)
      | Return => (Exit, q)
      | Hang => (Hang, q)
      | Check k => until_put (k (ChunkQueue.stopped q)) q
      | Put packet k =>
          if ChunkQueue.stopped q then until_put (k true) q
          else (k false, ChunkQueue.set_q_out [packet] q)
      | Putting packet k => (k false, ChunkQueue.set_q_out [packet] q)
      end
  end.

(** The worker running by itself until it has returned: what goes on
    while the consumer waits in [t.join()].  The wait has no end when the
    worker hangs, or when it is in [put] on a full queue with the stop
    flag clear. *)
Fixpoint join (w : process) (q : ChunkQueue.t) : ChunkQueue.t * result unit :=
  match w with
  | Exit => (q, Ok tt)
  | Return => (q, Ok tt)
  | Hang => (q, Blocked)
  | Check k => join (k (ChunkQueue.stopped q)) q
  | Put packet k =>
      if ChunkQueue.stopped q then join (k true) q
      else if len (ChunkQueue.q_out q) <? qsize
           then join (k false) (ChunkQueue.set_q_out (ChunkQueue.q_out q ++ [packet]) q)
           else (q, Blocked)
  | Putting packet k =>
      if len (ChunkQueue.q_out q) <? qsize
      then join (k false) (ChunkQueue.set_q_out (ChunkQueue.q_out q ++ [packet]) q)
      else if ChunkQueue.stopped q then join (k true) q
           else (q, Blocked)
  end.

(** The loader together with the thread that its last [__iter__]
    started ([Exit] before the first one), and the number of accesses of
    the consumer to the stop flag, the queue and the thread so far. *)
Record System : Type := {
  loader : Loader;
  worker : process;
  ticks : nat;
}.

Definition set_loader (v : Loader) (sys : System) : System :=
  {| loader := v; worker := worker sys; ticks := ticks sys |}.

Definition set_worker (v : process) (sys : System) : System :=
  {| loader := loader sys; worker := v; ticks := ticks sys |}.

(** A call that only concerns the consumer. *)
Definition on_loader {A : Type} (m : st Loader A) : st System A := fun sys =>
  let '(self, r) := m (loader sys) in (set_loader self sys, r).

(** The worker takes [n] steps on the queue of the loader. *)
Definition advance (n : nat) (sys : System) : System :=
  match __buff (loader sys) with
  | Some q =>
      let '(w, q') := steps n (worker sys) q in
      set_worker w (set_loader (set_buff (Some q') (loader sys)) sys)
  | None => sys
  end.

(** The packets that the worker still enqueues if the stop flag stays
    clear and the consumer keeps taking what is queued. *)
Fixpoint outputs (w : process) : list ChunkQueue.packet :=
  match w with
  | Exit => []
  | Return => []
  | Hang => []
  | Check k => outputs (k false)
  | Put packet k => packet :: outputs (k false)
  | Putting packet k => packet :: outputs (k false)
  end.

(** The batches of a sequence of packets, in order. *)
Definition packet_batches (packets : list ChunkQueue.packet) : list (list Row) :=
  concat ((fun packet =>
             match packet with
             | ChunkQueue.Batches batches => batches
             | ChunkQueue.Failure _ => []
             end) <$> packets).

(** A list of batches that is not empty. *)
Definition some_batches (packet : ChunkQueue.packet) : Prop :=
  exists batches, packet = ChunkQueue.Batches batches /\ batches <> [].

(** The consumer is [self] up to the queue, the stop flag is clear, and
    [pending] is what is queued followed by what the worker still
    enqueues. *)
Definition serves (self : Loader) (pending : list ChunkQueue.packet) (sys : System)
  : Prop :=
  exists q,
    loader sys = set_buff (Some q) self /\
    ChunkQueue.stopped q = false /\
    ChunkQueue.q_out q ++ outputs (worker sys) = pending.

End Process.

Section Calls.
Context `{Runtime}.

(** [sched i] is the number of steps that the worker takes between the
    access number [i] of the consumer and the one before; [handle] and
    [tensor_len] are as for [next_batch] and [count_batch]. *)
Context (sched : nat -> nat).
Context (handle : list Row -> result (gmap string Entry * option Entry)).
Context (tensor_len : tensor -> Z).

(** What the worker does before the next access of the consumer. *)
Definition tick : st System unit :=
  modify (fun sys =>
    let sys' := advance (sched (ticks sys)) sys in
    {| loader := loader sys'; worker := worker sys'; ticks := S (ticks sys) |}).

(** An access of the consumer to the queue of the loader. *)
Definition on_queue {A : Type} (m : st ChunkQueue.t A) : st System A :=
  _ ← tick;
  on_loader (on_buff m).

(** [self._buff.get()]: the consumer waits while the queue is empty. *)
Definition get : st System ChunkQueue.packet :=
  _ ← on_loader _buff;
  _ ← tick;
  _ ← modify (fun sys =>
         match __buff (loader sys) with
         | Some q =>
             let '(w, q') := until_put (worker sys) q in
             set_worker w (set_loader (set_buff (Some q') (loader sys)) sys)
         | None => sys
         end);
  on_loader (on_buff ChunkQueue.get).

(** [self._working]: the threads of [_workers] are the worker. *)
Definition _working : st System bool :=
  _ ← tick;
  gets (fun sys =>
    match _workers (loader sys) with
    | Some ts => existsb (fun _ => alive (worker sys)) ts
    | None => false
    end).

(** [for t in self._workers: t.join()]. *)
Fixpoint join_all (ts : list Thread) : st System unit :=
  match ts with
  | [] => mret tt
  | _ :: ts' =>
      _ ← (fun sys =>
             match __buff (loader sys) with
             | Some q =>
                 let '(q', r) := join (worker sys) q in
                 (match r with
                  | Ok _ => set_worker Exit
                  | _ => id
                  end (set_loader (set_buff (Some q') (loader sys)) sys), r)
             | None => (sys, Ok tt)
             end);
      join_all ts'
  end.

(** [LoaderBase.stop]. *)
Definition stop : st System unit :=
  workers ← gets (fun sys => _workers (loader sys));
  _ ← match workers with
      | Some ts =>
          q ← on_loader _buff;
          _ ← (if negb (ChunkQueue.stopped q) then
                 _ ← on_queue (modify (ChunkQueue.set_stop_event true));
                 on_queue (modify (ChunkQueue.set_q_out []))
               else mret tt);
          _ ← join_all ts;
          _ ← on_loader (modify (set_workers None));
          on_queue (modify (ChunkQueue.set_q_out []))
      | None => mret tt
      end;
  on_loader (modify (set_batch_itr None)).

(** [LoaderBase.__iter__]: the thread is started on [load_chunks] of the
    queue and the call returns. *)
Definition __iter__ : st System unit :=
  _ ← stop;
  _ ← on_loader (modify (set_num_rows_processed 0));
  q ← on_loader _buff;
  _ ← (if ChunkQueue.stopped q then on_queue ChunkQueue.start else mret tt);
  self ← gets loader;
  _ ← (if shuffle (attrs self) then on_loader _shuffle_indices else mret tt);
  _ ← on_loader (modify (set_workers (Some [])));
  q ← on_loader _buff;
  _ ← modify (set_worker (load_chunks (attrs self) q));
  on_loader (modify (set_workers (Some [ {| is_alive := true |} ]))).

(** [LoaderBase._fetch_chunk]. *)
Definition _fetch_chunk : st System unit :=
  chunks ← get;
  match chunks with
  | ChunkQueue.Failure e => _ ← stop; raise e
  | ChunkQueue.Batches batches => on_loader (modify (set_batch_itr (Some batches)))
  end.

(** [LoaderBase._get_next_batch]. *)
Definition _get_next_batch : st System (gmap string Entry * option Entry) :=
  workers ← gets (fun sys => _workers (loader sys));
  _ ← (if workers is None then __iter__ else mret tt);
  batch_itr ← gets (fun sys => _batch_itr (loader sys));
  _ ← (if batch_itr is None then _fetch_chunk else mret tt);
  batch ← (fun sys =>
             match on_loader (next_batch handle) sys with
             | (sys, Raise StopIteration) =>
                 (working ← _working;
                  exhausted ← (if working : bool then mret false
                               else on_queue (gets ChunkQueue.empty));
                  if exhausted : bool then
                    _ ← on_loader (modify (set_workers None));
                    _ ← on_loader (modify (set_batch_itr None));
                    raise StopIteration
                  else
                    _ ← _fetch_chunk;
                    on_loader (next_batch handle)) sys
             | r => r
             end);
  _ ← on_loader (modify (fun self =>
         set_num_rows_processed
           (num_rows_processed self + count_batch tensor_len batch) self));
  mret batch.

(** [n] successive calls of [_get_next_batch], with the batches they
    return. *)
Fixpoint next_n (n : nat) : st System (list (gmap string Entry * option Entry)) :=
  match n with
  | O => mret []
  | S n' =>
      batch ← _get_next_batch;
      batches ← next_n n';
      mret (batch :: batches)
  end.

End Calls.

End Threads.

(** *** Notions used by the statements on threads and on tensor groups *)

Section StatementNotions.
Context `{Runtime}.

(** A call on the loader that neither reads nor writes its queue. *)
Definition buff_free {A : Type} (m : st Loader A) : Prop :=
  forall v self, m (set_buff v self) = (set_buff v (m self).1, (m self).2).

(** No list of batches that the thread enqueues is empty. *)
Definition filled (packet : ChunkQueue.packet) : Prop :=
  match packet with
  | ChunkQueue.Batches batches => batches <> []
  | ChunkQueue.Failure _ => True
  end.

(** The loader has a queue, and its stop flag is clear. *)
Definition started (self : Loader) : Prop :=
  exists q, __buff self = Some q /\ ChunkQueue.stopped q = false.

(** One round of the first loop of [_handle_tensors]. *)
Definition assemble_step (X : gmap string Entry) (tn : Group * list string)
  : gmap string Entry :=
  let '((tensor, lists_opt), names) := tn in
  let lists : gmap string Entry :=
    from_option (fmap (fun vi : list elem * list Z => Pair vi.1 vi.2)) ∅ lists_opt in
  let names := filter (fun i => lists !! i = None) names in
  let lists :=
    if 1 <? len names then update_zip lists names (_tensor_split tensor (len names))
    else match names with
         | [name] => <[name := Lone tensor]> lists
         | _ => lists
         end in
  lists ∪ X.

End StatementNotions.

(** *** Further concrete loaders and schedules *)

(** A dataset of three partitions whose schema has the list column [seq]
    of fixed length [5], the ragged list column [tags] without a value
    count, and the target column [y]. *)
Definition session_dataset : @Dataset list_runtime :=
  {| schema :=
       [("seq", {| dtype := "int64"; tags := [CATEGORICAL];
                   is_list := true; is_ragged := false;
                   value_count :=
                     Some {| ValueCount.min := 5; ValueCount.max := 5 |} |});
        ("tags", {| dtype := "int64"; tags := [CATEGORICAL];
                    is_list := true; is_ragged := true;
                    value_count := None |});
        ("y", {| dtype := "float32"; tags := [TARGET];
                 is_list := false; is_ragged := false;
                 value_count := None |})];
     partitions := [[1; 2; 3]; [4; 5]; [6]] : list (list (@Row list_runtime));
     read_error := fun _ => None |}.

(** The loader that the constructor builds over that dataset. *)
Definition session_loader : @Loader list_runtime :=
  {| attrs :=
       {| dataset := session_dataset;
          batch_size := 2; shuffle := false; seed_fn := None; parts_per_chunk := 1;
          global_size := 1; global_rank := 0; drop_last := false;
          sparse_names := ["seq"; "tags"]; sparse_max := {["seq" := 5]};
          sparse_as_dense := {["seq"]};
          dtype_reverse_map := {["int64" := ["seq"; "tags"]; "float32" := ["y"]]};
          cat_names := ["seq"; "tags"]; cont_names := []; label_names := ["y"];
          _use_nnz := false |};
     indices := [0; 1; 2];
     random_state := 0 : @RandomState list_runtime;
     _epochs := 1;
     num_rows_processed := 0;
     __buff := None; __buff_len := None;
     _batch_itr := None; _workers := None |}.

(** One tensor group with the columns [seq] and [tags] of two rows as
    pairs of values and offsets, and one with the scalar column [y]. *)
Definition session_tensors : list (@Group list_runtime) :=
  [([] : @tensor list_runtime,
    Some {[ "seq" := ([1; 2; 3; 4; 5; 6; 7; 8; 9; 10], [0; 5]);
            "tags" := ([1; 2; 3; 4; 5; 6; 7; 8], [0; 7]) ]});
   ([7; 8], None)].

(** Five partitions of one row each. *)
Definition five_partitions : list (list Z) := [[1]; [2]; [3]; [4]; [5]].

(** A system whose loader is fresh: no thread has been started. *)
Definition fresh_system (self : @Loader list_runtime) : @Threads.System list_runtime :=
  {| Threads.loader := self; Threads.worker := Threads.Exit; Threads.ticks := 0 |}.

(** The schedule on which the worker takes [n] steps before each access
    of the consumer. *)
Definition steady (n : nat) : nat -> nat := fun _ => n.

(** Unfolding of the monadic combinators down to pairs and matches. *)
Ltac st_unfold :=
  unfold mbind, mret, st_bind, st_ret, result_bind, result_ret,
    raise, gets, modify, lift in *.

(** * Properties *)

(** ** Integer arithmetic and slices *)

Section Arith.

Lemma _num_steps_pos n b :
  0 < b -> exists k, _num_steps n b = Ok k /\ (k - 1) * b < n <= k * b.
Proof.
  intros Hb. unfold _num_steps.
  destruct (Z.eqb_spec b 0) as [->|_]; [lia|].
  eexists; split; [reflexivity|].
  pose proof (Z.div_mod (- n) b ltac:(lia)) as Hdm.
  pose proof (Z.mod_pos_bound (- n) b Hb) as Hm.
  nia.
Qed.

Lemma ceiling_unique n b k k' :
  0 < b -> (k - 1) * b < n <= k * b -> (k' - 1) * b < n <= k' * b -> k = k'.
Proof. intros Hb H1 H2. nia. Qed.

Lemma sumZ_app l1 l2 : sumZ (l1 ++ l2) = sumZ l1 + sumZ l2.
Proof.
  unfold sumZ. induction l1 as [|x l1 IH]; simpl; [reflexivity | rewrite IH; lia].
Qed.

Lemma sumZ_replicate n x : sumZ (replicate n x) = Z.of_nat n * x.
Proof.
  induction n as [|n IH]; [reflexivity|].
  rewrite Nat2Z.inj_succ. unfold sumZ in *. cbn [replicate foldr]. rewrite IH. lia.
Qed.

Lemma len_app {A} (l1 l2 : list A) : len (l1 ++ l2) = len l1 + len l2.
Proof. unfold len. rewrite length_app. lia. Qed.

Lemma len_nonneg {A} (l : list A) : 0 <= len l.
Proof. unfold len. lia. Qed.

Lemma len_nil_inv {A} (l : list A) : len l = 0 -> l = [].
Proof. unfold len. destruct l; simpl; [reflexivity | lia]. Qed.

Lemma slice_to {A} (l : list A) k :
  0 <= k -> slice l None (Some k) = take (Z.to_nat k) l.
Proof.
  intros Hk. unfold slice, clip, len. cbn [from_option].
  destruct (Z.ltb_spec k 0) as [?|_]; [lia|].
  rewrite Z.sub_0_r. change (Z.to_nat 0) with 0%nat. rewrite drop_0.
  destruct (Z.le_ge_cases k (Z.of_nat (length l))).
  - rewrite Z.min_l by lia. reflexivity.
  - rewrite Z.min_r by lia. rewrite Nat2Z.id.
    rewrite !take_ge by lia. reflexivity.
Qed.

Lemma slice_from {A} (l : list A) k :
  0 <= k -> slice l (Some k) None = drop (Z.to_nat k) l.
Proof.
  intros Hk. unfold slice, clip, len. cbn [from_option].
  destruct (Z.ltb_spec k 0) as [?|_]; [lia|].
  destruct (Z.le_ge_cases k (Z.of_nat (length l))).
  - rewrite Z.min_l by lia. apply take_ge. rewrite length_drop. lia.
  - rewrite Z.min_r by lia. rewrite Nat2Z.id.
    rewrite !drop_ge by lia. apply take_nil.
Qed.

Lemma slice_seqZ P lo hi :
  0 <= lo -> 0 <= hi -> 0 <= P ->
  slice (arange P) (Some lo) (Some hi)
  = seqZ (Z.min lo P) (Z.min hi P - Z.min lo P).
Proof.
  intros Hlo Hhi HP. unfold slice, clip, len, arange. cbn [from_option].
  rewrite length_seqZ, Z2Nat.id by lia.
  destruct (Z.ltb_spec lo 0) as [?|_]; [lia|].
  destruct (Z.ltb_spec hi 0) as [?|_]; [lia|].
  apply list_eq. intros i.
  rewrite lookup_take, lookup_drop.
  destruct (decide (Z.of_nat i < Z.min hi P - Z.min lo P)) as [Hi|Hi].
  - rewrite decide_True by lia.
    rewrite !lookup_seqZ_lt by lia. f_equal. lia.
  - rewrite (lookup_seqZ_ge (Z.min lo P)) by lia.
    rewrite decide_False by lia. reflexivity.
Qed.

Lemma aligned_bounds (n b : Z) :
  0 <= n -> 1 <= b -> 0 <= n / b * b <= n /\ n - n / b * b = n `mod` b.
Proof.
  intros Hn Hb.
  pose proof (Z.div_mod n b ltac:(lia)) as Hdm.
  pose proof (Z.mod_pos_bound n b ltac:(lia)) as Hm.
  assert (0 <= n / b) by (apply Z.div_pos; lia).
  nia.
Qed.

Lemma len_take_aligned {A} (l : list A) (b : Z) :
  1 <= b -> len (take (Z.to_nat (len l / b * b)) l) = len l / b * b.
Proof.
  intros Hb. destruct (aligned_bounds (len l) b (len_nonneg l) Hb) as [Hk _].
  unfold len in *. rewrite length_take. lia.
Qed.

Lemma len_drop_aligned {A} (l : list A) (b : Z) :
  1 <= b -> len (drop (Z.to_nat (len l / b * b)) l) = len l `mod` b.
Proof.
  intros Hb. destruct (aligned_bounds (len l) b (len_nonneg l) Hb) as [Hk Hm].
  unfold len in *. rewrite length_drop. lia.
Qed.

End Arith.

(** ** Segment lengths, chunk division and the number of batches *)

Section Batching.
Context `{Runtime}.

Lemma get_segment_lengths_eq (self : LoaderBase) n k :
  _num_steps n (batch_size self) = Ok k ->
  _get_segment_lengths self n
  = Ok (replicate (Z.to_nat (k - 1)) (batch_size self)
        ++ [n - (k - 1) * batch_size self]).
Proof. intros Hk. unfold _get_segment_lengths. rewrite Hk. reflexivity. Qed.

(** C4. For [num_samples >= 1] and [batch_size >= 1],
    [_get_segment_lengths] returns a list whose length is the ceiling
    [k] of [num_samples / batch_size]; every entry but the last is
    [batch_size], the last is [num_samples - (k - 1) * batch_size], and
    the entries sum to [num_samples]. *)
Theorem get_segment_lengths_spec (self : LoaderBase) (n : Z)
    (Hb : 1 <= batch_size self) (Hn : 1 <= n) :
  exists (k : Z) (idx : list Z),
    (k - 1) * batch_size self < n <= k * batch_size self /\
    _get_segment_lengths self n = Ok idx /\
    len idx = k /\
    (forall i : nat, Z.of_nat i < k - 1 -> idx !! i = Some (batch_size self)) /\
    last idx = Some (n - (k - 1) * batch_size self) /\
    sumZ idx = n.
Proof.
  destruct (_num_steps_pos n (batch_size self) ltac:(lia)) as (k & Hk & Hceil).
  assert (1 <= k) by nia.
  exists k. eexists. split; [exact Hceil|].
  split; [apply get_segment_lengths_eq, Hk|].
  split; [unfold len; rewrite length_app, length_replicate; simpl; lia|].
  split.
  - intros i Hi. rewrite lookup_app_l by (rewrite length_replicate; lia).
    apply lookup_replicate_2. lia.
  - split; [apply last_snoc|].
    rewrite sumZ_app, sumZ_replicate, Z2Nat.id by lia.
    unfold sumZ. simpl. lia.
Qed.

Lemma get_batch_div_chunk_eq (chunks : list Row) (b : Z) :
  1 <= b ->
  ChunkQueue.get_batch_div_chunk chunks b
  = Ok (take (Z.to_nat (len chunks / b * b)) chunks,
        drop (Z.to_nat (len chunks / b * b)) chunks).
Proof.
  intros Hb.
  destruct (aligned_bounds (len chunks) b (len_nonneg chunks) Hb) as [Hk _].
  unfold ChunkQueue.get_batch_div_chunk.
  destruct (Z.eqb_spec b 0) as [?|_]; [lia|].
  rewrite Z.quot_div_nonneg by (pose proof (len_nonneg chunks); lia).
  rewrite slice_from, slice_to by lia. reflexivity.
Qed.

(** C3. For a table of [n] rows and [batch_size >= 1],
    [get_batch_div_chunk] returns the pair of the first
    [floor(n / batch_size) * batch_size] rows and of the remaining
    [n mod batch_size] rows, both in their original order; the two put
    end to end are the table. *)
Theorem get_batch_div_chunk_spec (chunks : list Row) (b : Z) (Hb : 1 <= b) :
  exists head tail : list Row,
    ChunkQueue.get_batch_div_chunk chunks b = Ok (head, tail) /\
    head = take (Z.to_nat (len chunks / b * b)) chunks /\
    tail = drop (Z.to_nat (len chunks / b * b)) chunks /\
    len head = len chunks / b * b /\
    len tail = len chunks `mod` b /\
    head ++ tail = chunks.
Proof.
  eexists _, _. split; [apply get_batch_div_chunk_eq, Hb|].
  split; [reflexivity|]. split; [reflexivity|].
  split; [apply len_take_aligned, Hb|].
  split; [apply len_drop_aligned, Hb|].
  apply take_drop.
Qed.

End Batching.

Section Counting.
Context `{Runtime}.

(** C8. The length of the loader is the ceiling [k] of [N / batch_size],
    where [N] is what [_buff_len] returns (the rows of this shard over
    the configured epochs), minus one exactly when [drop_last] is set
    and [N mod batch_size] is not zero. *)
Theorem len_spec (self self' : Loader) (N : Z)
    (Hb : 1 <= batch_size (attrs self))
    (HN : _buff_len self = (self', Ok N)) :
  exists k : Z,
    (k - 1) * batch_size (attrs self) < N <= k * batch_size (attrs self) /\
    __len__ self
    = (self', Ok (if drop_last (attrs self)
                     && negb (N `mod` batch_size (attrs self) =? 0)
                  then k - 1 else k)).
Proof.
  destruct (_num_steps_pos N (batch_size (attrs self)) ltac:(lia)) as (k & Hk & Hceil).
  exists k. split; [exact Hceil|].
  pose proof (Z.mod_pos_bound N (batch_size (attrs self)) ltac:(lia)) as Hm.
  unfold __len__. st_unfold. cbn [id]. rewrite HN, Hk.
  destruct (drop_last (attrs self)); cbn [andb]; [|reflexivity].
  destruct (Z.ltb_spec 0 (N `mod` batch_size (attrs self))),
    (Z.eqb_spec (N `mod` batch_size (attrs self)) 0); cbn [negb]; (reflexivity || lia).
Qed.

Lemma elem_of_shard_block P per_shard r i :
  i ∈ shard_block P per_shard r
  <-> r * per_shard <= i < r * per_shard + per_shard /\ i < P.
Proof. unfold shard_block. rewrite elem_of_seqZ. lia. Qed.

End Counting.

(** ** Sparse materialisation *)

Section Sparse.
Context `{Runtime}.

Lemma foldr_max_spec (d : Z) (ds : list Z) :
  foldr Z.max d ds ∈ d :: ds /\ forall x, x ∈ d :: ds -> x <= foldr Z.max d ds.
Proof.
  induction ds as [|y ds [IHin IHle]]; cbn [foldr].
  - split; [left|]. intros x Hx. apply list_elem_of_singleton in Hx. lia.
  - split.
    + destruct (Z.max_spec y (foldr Z.max d ds)) as [[_ ->]|[_ ->]].
      * apply elem_of_cons in IHin as [->|Hin]; [left | right; right; exact Hin].
      * right; left.
    + intros x Hx. apply elem_of_cons in Hx as [->|Hx].
      * specialize (IHle d ltac:(left)). lia.
      * apply elem_of_cons in Hx as [->|Hx]; [lia|].
        specialize (IHle x ltac:(right; exact Hx)). lia.
Qed.

Lemma get_max_seq_len_spec (lengths : list Z) :
  lengths <> [] ->
  _get_max_seq_len lengths ∈ lengths /\
  forall d, d ∈ lengths -> d <= _get_max_seq_len lengths.
Proof. destruct lengths as [|d ds]; [congruence|]. intros _. apply foldr_max_spec. Qed.

Lemma diff_cons_cons (a b : Z) (l : list Z) :
  diff (a :: b :: l) = (b - a) :: diff (b :: l).
Proof.
  unfold diff. rewrite !slice_from by lia.
  change (Z.to_nat 1) with 1%nat. cbn [drop].
  unfold slice, clip, len. cbn [from_option length].
  change (-1 <? 0) with true. cbv iota. rewrite !drop_0.
  rewrite !Z.max_r by lia.
  replace (Z.to_nat (-1 + Z.of_nat (S (S (length l))) - 0)) with (S (length l)) by lia.
  replace (Z.to_nat (-1 + Z.of_nat (S (length l)) - 0)) with (length l) by lia.
  reflexivity.
Qed.

(** Entry [i] of [diff offsets] is [offsets[i+1] - offsets[i]]. *)
Lemma diff_lookup (offsets : list Z) (i : nat) (a b : Z) :
  offsets !! i = Some a -> offsets !! S i = Some b ->
  diff offsets !! i = Some (b - a).
Proof.
  revert i. induction offsets as [|x [|y l] IH]; intros i Ha Hb.
  - discriminate.
  - destruct i; discriminate.
  - rewrite diff_cons_cons. destruct i as [|i]; cbn in *.
    + congruence.
    + apply IH; assumption.
Qed.

Lemma length_diff (offsets : list Z) : length (diff offsets) = pred (length offsets).
Proof.
  induction offsets as [|x [|y l] IH]; try reflexivity.
  rewrite diff_cons_cons. cbn [length] in *. rewrite IH. reflexivity.
Qed.

(** C2. For a column with a configured maximum [seq_limit] and the
    [(values, index)] pair of a batch with at least one row,
    [_to_sparse_tensor] raises if and only if the largest per-row length
    exceeds [seq_limit].  That largest length is the maximum of the
    per-row lengths, which in offsets mode are the differences of
    successive offsets.  When it raises, the exception is a [ValueError]
    whose message spells out both [seq_limit] and the observed maximum
    and no tensor is returned; otherwise the tensor is built with
    [seq_limit] as its width. *)
Theorem to_sparse_tensor_raises_iff (self : LoaderBase) (column_name : string)
    (seq_limit : Z) (values : list elem) (index : list Z)
    (Hmax : sparse_max self !! column_name = Some seq_limit)
    (Hrows : index <> []) :
  exists (offsets lengths : list Z) (num_rows : Z),
    _pull_values_offsets self (Pair values index)
    = (values, offsets, lengths, num_rows) /\
    (_use_nnz self = false ->
     forall (i : nat) (a b : Z),
       offsets !! i = Some a -> offsets !! S i = Some b ->
       lengths !! i = Some (b - a)) /\
    length lengths = length index /\
    let observed := _get_max_seq_len lengths in
    observed ∈ lengths /\
    (forall d, d ∈ lengths -> d <= observed) /\
    ((exists e, _to_sparse_tensor self (Pair values index) column_name = Raise e)
     <-> seq_limit < observed) /\
    (seq_limit < observed ->
     exists pre mid post : string,
       _to_sparse_tensor self (Pair values index) column_name
       = Raise (ValueError
                  (pre +:+ str seq_limit +:+ mid +:+ str observed +:+ post))) /\
    (observed <= seq_limit ->
     _to_sparse_tensor self (Pair values index) column_name
     = Ok (_build_sparse_tensor values offsets lengths num_rows seq_limit
             (bool_decide (column_name ∈ sparse_as_dense self)))).
Proof.
  set (res := _pull_values_offsets self (Pair values index)).
  destruct res as [[[vs offsets] lengths] num_rows] eqn:Hres.
  assert (Hvs : vs = values).
  { unfold res, _pull_values_offsets in Hres.
    destruct (_use_nnz self); congruence. }
  subst vs. exists offsets, lengths, num_rows.
  split; [reflexivity|].
  assert (Hlen : length lengths = length index).
  { unfold res, _pull_values_offsets in Hres. destruct (_use_nnz self).
    - congruence.
    - cbv zeta in Hres. injection Hres as <- <- _. rewrite length_diff, length_app.
      simpl. lia. }
  assert (Hne : lengths <> []).
  { intros ->. destruct index; [congruence | discriminate]. }
  destruct (get_max_seq_len_spec lengths Hne) as [Hin Hle].
  split.
  { intros Hmode i a b Ha Hb.
    unfold res, _pull_values_offsets in Hres. rewrite Hmode in Hres.
    cbv zeta in Hres. injection Hres as <- <- _. apply diff_lookup; assumption. }
  split; [exact Hlen|].
  cbv zeta. split; [exact Hin|]. split; [exact Hle|].
  assert (Hcall :
    _to_sparse_tensor self (Pair values index) column_name
    = if seq_limit <? _get_max_seq_len lengths
      then Raise (ValueError (seq_too_long_message seq_limit (_get_max_seq_len lengths)))
      else Ok (_build_sparse_tensor values offsets lengths num_rows seq_limit
                 (bool_decide (column_name ∈ sparse_as_dense self)))).
  { unfold _to_sparse_tensor. rewrite Hmax. fold res. rewrite Hres. reflexivity. }
  rewrite Hcall.
  destruct (Z.ltb_spec seq_limit (_get_max_seq_len lengths)) as [Hlt|Hge].
  - split; [split; [intros _; exact Hlt | intros _; eexists; reflexivity]|].
    split; [|lia].
    intros _.
    exists "The default sequence length has been configured to ",
      " but the largest sequence in this batch have ", " length".
    reflexivity.
  - split; [split; [intros [e He]; discriminate | lia]|].
    split; [lia|]. intros _. reflexivity.
Qed.

End Sparse.

(** ** Construction from a schema *)

Section Construction.
Context `{Runtime}.

Lemma elem_of_list_columns (columns : Schema) (c : string) :
  c ∈ list_columns columns
  <-> exists spec, (c, spec) ∈ columns /\ is_list spec = true.
Proof.
  unfold list_columns. rewrite list_elem_of_fmap. split.
  - intros ([c' spec] & -> & Hin). apply list_elem_of_filter in Hin as [Hl Hin].
    exists spec. split; assumption.
  - intros (spec & Hin & Hl). exists (c, spec). split; [reflexivity|].
    apply list_elem_of_filter. split; assumption.
Qed.

Lemma NoDup_list_columns (columns : Schema) :
  NoDup columns.*1 -> NoDup (list_columns columns).
Proof.
  unfold list_columns. induction columns as [|[c spec] columns IH]; intros Hnd.
  - constructor.
  - cbn in Hnd. apply NoDup_cons in Hnd as [Hnotin Hnd].
    rewrite filter_cons. case_decide; [|apply IH, Hnd].
    cbn. apply NoDup_cons. split; [|apply IH, Hnd].
    intros Hin. apply Hnotin.
    apply list_elem_of_fmap in Hin as ([c' spec'] & -> & Hin).
    apply list_elem_of_filter in Hin as [_ Hin].
    apply list_elem_of_fmap. exists (c', spec'). split; [reflexivity | exact Hin].
Qed.

Lemma schema_functional (columns : Schema) (c : string) (spec spec' : ColumnSchema) :
  NoDup columns.*1 -> (c, spec) ∈ columns -> (c, spec') ∈ columns -> spec = spec'.
Proof.
  induction columns as [|[c0 spec0] columns IH]; intros Hnd H1 H2.
  - inversion H1.
  - cbn in Hnd. apply NoDup_cons in Hnd as [Hnotin Hnd].
    apply elem_of_cons in H1 as [H1|H1], H2 as [H2|H2].
    + congruence.
    + injection H1 as -> ->. exfalso. apply Hnotin.
      apply list_elem_of_fmap. exists (c0, spec'). split; [reflexivity | exact H2].
    + injection H2 as -> ->. exfalso. apply Hnotin.
      apply list_elem_of_fmap. exists (c0, spec). split; [reflexivity | exact H1].
    + apply IH; assumption.
Qed.

(** What the loop over the columns leaves in [sparse_names] and
    [sparse_max] when it ends without raising. *)
Lemma scan_columns_ok (columns : Schema) :
  forall dtype_reverse_map sparse_names sparse_max sparse_as_dense drm sn sm sd,
    scan_columns columns dtype_reverse_map sparse_names sparse_max sparse_as_dense
    = Ok (drm, sn, sm, sd) ->
    NoDup columns.*1 ->
    sn = sparse_names ++ list_columns columns /\
    (forall c, c ∉ columns.*1 -> sm !! c = sparse_max !! c) /\
    (forall c spec, (c, spec) ∈ columns ->
       is_Some (sm !! c) <-> has_fixed_length spec \/ is_Some (sparse_max !! c)).
Proof.
  induction columns as [|[c0 spec0] columns IH];
    intros drm0 sn0 sm0 sd0 drm sn sm sd Hscan Hnd.
  - cbn in Hscan. injection Hscan as <- <- <- <-.
    split; [unfold list_columns; cbn; rewrite app_nil_r; reflexivity|].
    split; [reflexivity|]. intros c spec Hin. inversion Hin.
  - cbn in Hnd. apply NoDup_cons in Hnd as [Hnotin Hnd].
    cbn [scan_columns] in Hscan.
    set (sm1 := match value_count spec0 with
                | Some vc =>
                    if ValueCount.min vc =? ValueCount.max vc
                    then <[c0 := ValueCount.max vc]> sm0 else sm0
                | None => sm0
                end) in *.
    assert (Hsm1_other : forall c, c <> c0 -> sm1 !! c = sm0 !! c).
    { intros c Hc. unfold sm1. destruct (value_count spec0) as [vc|]; [|reflexivity].
      destruct (ValueCount.min vc =? ValueCount.max vc); [|reflexivity].
      apply lookup_insert_ne. congruence. }
    assert (Hsm1_self : is_list spec0 = true ->
              (is_Some (sm1 !! c0) <-> has_fixed_length spec0 \/ is_Some (sm0 !! c0))).
    { intros Hl. unfold sm1, has_fixed_length.
      destruct (value_count spec0) as [vc|].
      - destruct (Z.eqb_spec (ValueCount.min vc) (ValueCount.max vc)) as [Heq|Hne].
        + rewrite lookup_insert_eq. split; [|eauto].
          intros _. left. split; [exact Hl|]. exists vc. split; [reflexivity | exact Heq].
        + split; [tauto|]. intros [(_ & vc' & Hvc & Heq)|?]; [|assumption].
          injection Hvc as <-. contradiction.
      - split; [tauto|]. intros [(_ & vc' & Hvc & _)|?]; [discriminate | assumption]. }
    destruct (is_list spec0) eqn:Hl.
    + assert (Hrest : exists sd1,
                scan_columns columns
                  (<[dtype spec0 := default [] (drm0 !! dtype spec0) ++ [c0]]> drm0)
                  (sn0 ++ [c0]) sm1 sd1 = Ok (drm, sn, sm, sd)).
      { destruct (is_ragged spec0); cbn [negb] in Hscan.
        - eexists. exact Hscan.
        - destruct (value_count spec0); [|discriminate]. eexists. exact Hscan. }
      destruct Hrest as (sd1 & Hrest).
      destruct (IH _ _ _ _ _ _ _ _ Hrest Hnd) as (Hsn & Hout & Hin).
      split.
      { rewrite Hsn, <- app_assoc. unfold list_columns. rewrite filter_cons. cbn.
        rewrite decide_True by exact Hl. reflexivity. }
      split.
      { intros c Hc. cbn in Hc. apply not_elem_of_cons in Hc as [Hc0 Hc].
        rewrite Hout by exact Hc. apply Hsm1_other, Hc0. }
      intros c spec Hcin. apply elem_of_cons in Hcin as [Heq|Hcin].
      * injection Heq as -> ->. rewrite Hout by exact Hnotin. apply Hsm1_self. reflexivity.
      * rewrite (Hin c spec Hcin). rewrite Hsm1_other; [reflexivity|].
        intros ->. apply Hnotin. apply list_elem_of_fmap.
        exists (c0, spec). split; [reflexivity | exact Hcin].
    + destruct (IH _ _ _ _ _ _ _ _ Hscan Hnd) as (Hsn & Hout & Hin).
      split.
      { rewrite Hsn. unfold list_columns. rewrite filter_cons. cbn.
        rewrite decide_False by (rewrite Hl; discriminate). reflexivity. }
      split.
      { intros c Hc. cbn in Hc. apply not_elem_of_cons in Hc as [Hc0 Hc].
        apply Hout, Hc. }
      intros c spec Hcin. apply elem_of_cons in Hcin as [Heq|Hcin].
      * injection Heq as -> ->. rewrite Hout by exact Hnotin.
        unfold has_fixed_length. rewrite Hl. split; [tauto|].
        intros [[? _]|?]; [discriminate | assumption].
      * apply Hin, Hcin.
Qed.

(** What the second loop of [_handle_tensors] leaves in [X]. *)
Lemma materialize_sparse_spec (self : LoaderBase) (names : list string) :
  NoDup names ->
  forall X X1 : gmap string Entry,
    materialize_sparse self names X = Ok X1 ->
    forall c : string,
      (c ∈ names /\ is_Some (sparse_max self !! c) ->
       exists v t, X !! c = Some v /\ _to_sparse_tensor self v c = Ok t /\
                   X1 !! c = Some (Lone t)) /\
      (~ (c ∈ names /\ is_Some (sparse_max self !! c)) -> X1 !! c = X !! c).
Proof.
  induction names as [|name names IH]; intros Hnd X X1 Hrun c.
  - cbn in Hrun. injection Hrun as <-. split.
    + intros [Hin _]. inversion Hin.
    + reflexivity.
  - apply NoDup_cons in Hnd as [Hnotin Hnd].
    cbn [materialize_sparse] in Hrun. case_bool_decide as Hmax.
    + destruct (X !! name) as [v|] eqn:Hv; [|discriminate].
      destruct (_to_sparse_tensor self v name) as [t| |] eqn:Ht; try discriminate.
      cbn in Hrun. specialize (IH Hnd _ _ Hrun).
      destruct (decide (c = name)) as [->|Hne].
      * split.
        -- intros _. exists v, t. split; [exact Hv|]. split; [exact Ht|].
           destruct (IH name) as [_ Hkeep]. rewrite Hkeep by tauto.
           apply lookup_insert_eq.
        -- intros Hnot. exfalso. apply Hnot. split; [left | exact Hmax].
      * destruct (IH c) as [Hyes Hno].
        rewrite lookup_insert_ne in Hyes, Hno by congruence. split.
        -- intros [Hin Hsome]. apply Hyes. split; [|exact Hsome].
           apply elem_of_cons in Hin as [?|?]; [contradiction | assumption].
        -- intros Hnot. apply Hno. intros [Hin Hsome]. apply Hnot.
           split; [right; exact Hin | exact Hsome].
    + specialize (IH Hnd _ _ Hrun). destruct (IH c) as [Hyes Hno]. split.
      * intros [Hin Hsome]. apply Hyes. split; [|exact Hsome].
        apply elem_of_cons in Hin as [->|?]; [contradiction | assumption].
      * intros Hnot. apply Hno. intros [Hin Hsome]. apply Hnot.
        split; [right; exact Hin | exact Hsome].
Qed.

(** The attributes that a successful construction derives from the
    schema. *)
Lemma init_ok_inv (dataset : Dataset) (batch_size : Z) (shuffle : bool)
    (seed_fn : option (RandomState -> Z)) (parts_per_chunk : Z)
    (global_size global_rank : option Z) (drop_last use_nnz : bool)
    (rng : RandomState) (L : Loader) :
  __init__ dataset batch_size shuffle seed_fn parts_per_chunk global_size
    global_rank drop_last use_nnz rng = Ok L ->
  exists drm sd,
    scan_columns (schema dataset) ∅ [] ∅ ∅
    = Ok (drm, sparse_names (attrs L), sparse_max (attrs L), sd) /\
    label_names (attrs L) = select_by_tag (schema dataset) TARGET.
Proof.
  unfold __init__. intros Hinit.
  destruct (scan_columns (schema dataset) ∅ [] ∅ ∅) as [[[[drm sn] sm] sd]| |];
    try discriminate.
  cbn in Hinit. case_bool_decide; [discriminate|].
  injection Hinit as <-. exists drm, sd. split; reflexivity.
Qed.

(** For a loader built from a schema, a column is picked for sparse
    materialisation (it is in [sparse_names] and has an entry in
    [sparse_max]) if and only if it is a list column whose value count
    exists and has [min] equal to [max].  [_handle_tensors] replaces the
    entry of exactly those columns by the result of [_to_sparse_tensor];
    the entry of any other column, such as the [(values, index)] pair of a
    ragged list column without a value count or with [min <> max], is
    returned as assembled, [_to_sparse_tensor] and its length check never
    seeing it. *)
Lemma sparse_materialized_eq (dataset : Dataset) (batch_size : Z)
    (shuffle : bool) (seed_fn : option (RandomState -> Z)) (parts_per_chunk : Z)
    (global_size global_rank : option Z) (drop_last use_nnz : bool)
    (rng : RandomState) (L : Loader)
    (Hinit : __init__ dataset batch_size shuffle seed_fn parts_per_chunk
               global_size global_rank drop_last use_nnz rng = Ok L)
    (Hnodup : NoDup (schema dataset).*1) :
  (forall c spec, (c, spec) ∈ schema dataset ->
     (c ∈ sparse_names (attrs L) /\ is_Some (sparse_max (attrs L) !! c))
     <-> has_fixed_length spec) /\
  (forall tensors tensor_names X labels,
     _handle_tensors (attrs L) tensors tensor_names = Ok (X, labels) ->
     forall c spec, (c, spec) ∈ schema dataset ->
       head (label_names (attrs L)) <> Some c ->
       (has_fixed_length spec ->
        exists v t,
          assemble_columns tensors tensor_names !! c = Some v /\
          _to_sparse_tensor (attrs L) v c = Ok t /\
          X !! c = Some (Lone t)) /\
       (~ has_fixed_length spec ->
        X !! c = assemble_columns tensors tensor_names !! c)).
Proof.
  destruct (init_ok_inv _ _ _ _ _ _ _ _ _ _ _ Hinit) as (drm & sd & Hscan & _).
  destruct (scan_columns_ok _ _ _ _ _ _ _ _ _ Hscan Hnodup) as (Hsn & _ & Hsm).
  cbn in Hsn.
  assert (Hpick : forall c spec, (c, spec) ∈ schema dataset ->
            (c ∈ sparse_names (attrs L) /\ is_Some (sparse_max (attrs L) !! c))
            <-> has_fixed_length spec).
  { intros c spec Hin. rewrite (Hsm c spec Hin), Hsn, elem_of_list_columns.
    rewrite lookup_empty. split.
    - intros [_ [Hfix|Hs]]; [exact Hfix | destruct Hs; discriminate].
    - intros Hfix. split; [|left; exact Hfix].
      exists spec. split; [exact Hin | apply Hfix]. }
  split; [exact Hpick|].
  intros tensors tensor_names X labels Hrun c spec Hin Hlabel.
  unfold _handle_tensors in Hrun.
  destruct (materialize_sparse (attrs L) (sparse_names (attrs L))
              (assemble_columns tensors tensor_names)) as [X1| |] eqn:Hmat;
    try discriminate.
  cbn in Hrun.
  assert (HX : X !! c = X1 !! c).
  { destruct (label_names (attrs L)) as [|label rest].
    - injection Hrun as <- _. reflexivity.
    - destruct (X1 !! label); [|discriminate]. injection Hrun as <- _.
      apply lookup_delete_ne. cbn in Hlabel. congruence. }
  assert (Hnd : NoDup (sparse_names (attrs L))).
  { rewrite Hsn. apply NoDup_list_columns, Hnodup. }
  destruct (materialize_sparse_spec _ _ Hnd _ _ Hmat c) as [Hyes Hno].
  rewrite HX. split.
  - intros Hfix. apply Hyes, Hpick with spec; assumption.
  - intros Hnfix. apply Hno. intros Hsel. apply Hnfix.
    apply (Hpick c spec Hin), Hsel.
Qed.

(** *** Which schemas the constructor rejects *)

Lemma scan_columns_raises (columns : Schema) :
  (exists c spec, (c, spec) ∈ columns /\ dense_without_value_count spec) ->
  forall dtype_reverse_map sparse_names sparse_max sparse_as_dense,
    exists c,
      scan_columns columns dtype_reverse_map sparse_names sparse_max sparse_as_dense
      = Raise (ValueError (dense_without_value_count_message c)).
Proof.
  induction columns as [|[c0 spec0] columns IH]; intros (c & spec & Hin & Hbad).
  - inversion Hin.
  - intros drm sn sm sd. cbn [scan_columns].
    destruct (decide (dense_without_value_count spec0)) as [(Hl & Hr & Hv)|Hgood].
    + exists c0. rewrite Hl, Hr, Hv. reflexivity.
    + assert (Hrest : exists c spec, (c, spec) ∈ columns /\ dense_without_value_count spec).
      { apply elem_of_cons in Hin as [Heq|Hin].
        - injection Heq as -> ->. contradiction.
        - exists c, spec. split; assumption. }
      destruct (is_list spec0) eqn:Hl; [|apply (IH Hrest)].
      destruct (is_ragged spec0) eqn:Hr; cbn [negb]; [apply (IH Hrest)|].
      destruct (value_count spec0) eqn:Hv; [apply (IH Hrest)|].
      exfalso. apply Hgood. repeat split; assumption.
Qed.

Lemma scan_columns_total (columns : Schema) :
  forall dtype_reverse_map sparse_names sparse_max sparse_as_dense,
    (forall c spec, (c, spec) ∈ columns -> ~ dense_without_value_count spec) ->
    exists drm sn sm sd,
      scan_columns columns dtype_reverse_map sparse_names sparse_max sparse_as_dense
      = Ok (drm, sn, sm, sd) /\
      (dtype_reverse_map <> ∅ \/ columns <> [] -> drm <> ∅).
Proof.
  induction columns as [|[c0 spec0] columns IH]; intros drm sn sm sd Hgood.
  - exists drm, sn, sm, sd. split; [reflexivity|]. intros [?|?]; congruence.
  - cbn [scan_columns].
    assert (Hgood' : forall c spec, (c, spec) ∈ columns -> ~ dense_without_value_count spec).
    { intros c spec Hin. apply (Hgood c spec). right. exact Hin. }
    assert (Hne : <[dtype spec0 := default [] (drm !! dtype spec0) ++ [c0]]> drm <> ∅)
      by apply insert_non_empty.
    assert (Hstep : forall sn' sm' sd',
              exists drm1 sn1 sm1 sd1,
                scan_columns columns
                  (<[dtype spec0 := default [] (drm !! dtype spec0) ++ [c0]]> drm)
                  sn' sm' sd' = Ok (drm1, sn1, sm1, sd1) /\
                (drm <> ∅ \/ (c0, spec0) :: columns <> [] -> drm1 <> ∅)).
    { intros sn' sm' sd'.
      destruct (IH (<[dtype spec0 := default [] (drm !! dtype spec0) ++ [c0]]> drm)
                  sn' sm' sd' Hgood') as (drm1 & sn1 & sm1 & sd1 & Hrun & Hkeep).
      exists drm1, sn1, sm1, sd1. split; [exact Hrun|]. intros _. apply Hkeep. left. exact Hne. }
    destruct (is_list spec0) eqn:Hl; [|apply Hstep].
    destruct (is_ragged spec0) eqn:Hr; cbn [negb]; [apply Hstep|].
    destruct (value_count spec0) eqn:Hv; [apply Hstep|].
    exfalso. apply (Hgood c0 spec0); [left | repeat split; assumption].
Qed.

(** The constructor raises exactly for a schema with a dense list column
    that lacks a value count, or with no column at all, that is, for a
    dataset without a schema, with none in the inferred one either. *)
Lemma init_raises_iff (dataset : Dataset) (batch_size : Z) (shuffle : bool)
    (seed_fn : option (RandomState -> Z)) (parts_per_chunk : Z)
    (global_size global_rank : option Z) (drop_last use_nnz : bool)
    (rng : RandomState) :
  is_ok (__init__ dataset batch_size shuffle seed_fn parts_per_chunk global_size
           global_rank drop_last use_nnz rng) = false
  <-> (exists c spec, (c, spec) ∈ schema dataset /\ dense_without_value_count spec)
      \/ schema dataset = [].
Proof.
  unfold __init__.
  assert (Hdec : (exists c spec, (c, spec) ∈ schema dataset
                                 /\ dense_without_value_count spec)
                 \/ ~ (exists c spec, (c, spec) ∈ schema dataset
                                      /\ dense_without_value_count spec)).
  { destruct (decide (Exists (fun cs : string * ColumnSchema =>
                                dense_without_value_count cs.2) (schema dataset)))
      as [Hex|Hnex].
    - left. apply Exists_exists in Hex as ([c spec] & Hin & Hbad).
      exists c, spec. split; assumption.
    - right. intros (c & spec & Hin & Hbad). apply Hnex.
      apply Exists_exists. exists (c, spec). split; assumption. }
  destruct Hdec as [Hbad|Hgood].
  - destruct (scan_columns_raises _ Hbad ∅ [] ∅ ∅) as (c & ->). cbn. tauto.
  - destruct (scan_columns_total (schema dataset) ∅ [] ∅ ∅)
      as (drm & sn & sm & sd & Hrun & Hne).
    { intros c spec Hin Hb. apply Hgood. exists c, spec. split; assumption. }
    rewrite Hrun. cbn. destruct (schema dataset) as [|col columns] eqn:Hs.
    + cbn in Hrun. injection Hrun as <- _ _ _.
      rewrite bool_decide_eq_true_2 by apply map_size_empty. cbn.
      split; [intros _; right; reflexivity | reflexivity].
    + rewrite bool_decide_eq_false_2.
      * cbn. split; [discriminate|]. intros [?|?]; [contradiction | discriminate].
      * apply map_size_non_empty_iff, Hne. right. discriminate.
Qed.

Lemma init_rejects_dense_list_without_value_count (dataset : Dataset)
    (batch_size : Z) (shuffle : bool) (seed_fn : option (RandomState -> Z))
    (parts_per_chunk : Z) (global_size global_rank : option Z)
    (drop_last use_nnz : bool) (rng : RandomState) :
  (exists c spec, (c, spec) ∈ schema dataset /\ dense_without_value_count spec) ->
  exists c,
    __init__ dataset batch_size shuffle seed_fn parts_per_chunk global_size
      global_rank drop_last use_nnz rng
    = Raise (ValueError (dense_without_value_count_message c)).
Proof.
  intros Hbad. unfold __init__.
  destruct (scan_columns_raises _ Hbad ∅ [] ∅ ∅) as (c & ->).
  exists c. reflexivity.
Qed.

Lemma init_rejects_empty_schema (dataset : Dataset)
    (batch_size : Z) (shuffle : bool) (seed_fn : option (RandomState -> Z))
    (parts_per_chunk : Z) (global_size global_rank : option Z)
    (drop_last use_nnz : bool) (rng : RandomState) :
  schema dataset = [] ->
  __init__ dataset batch_size shuffle seed_fn parts_per_chunk global_size
    global_rank drop_last use_nnz rng
  = Raise (ValueError no_columns_message).
Proof. intros Hnil. unfold __init__. rewrite Hnil. reflexivity. Qed.

End Construction.

(** C7. The constructor raises for a dense list column without a value
    count ([init_rejects_dense_list_without_value_count]), but its second
    guard only looks for a schema without any column: on a schema whose
    single column is tagged neither categorical, continuous nor target it
    returns a loader, whose [cat_names], [cont_names] and [label_names]
    are all empty. *)
Theorem init_accepts_schema_without_role_columns :
  (forall c spec, (c, spec) ∈ schema untagged_dataset -> ~ has_role spec) /\
  (forall c spec, (c, spec) ∈ schema untagged_dataset ->
     ~ dense_without_value_count spec) /\
  exists L : Loader,
    __init__ untagged_dataset 2 false None 1 None None false false 0 = Ok L /\
    cat_names (attrs L) = [] /\
    cont_names (attrs L) = [] /\
    label_names (attrs L) = [].
Proof.
  split; [|split].
  - intros c spec Hin. apply list_elem_of_singleton in Hin. injection Hin as -> ->.
    unfold has_role. cbn. rewrite !elem_of_nil. tauto.
  - intros c spec Hin. apply list_elem_of_singleton in Hin. injection Hin as -> ->.
    intros [Hl _]. discriminate.
  - eexists. split; [vm_compute; reflexivity|]. repeat split.
Qed.

Example init_sequence_loader :
  __init__ sequence_dataset 2 false None 1 None None false false 0
  = Ok sequence_loader.
Proof. vm_compute. reflexivity. Qed.

(** One batch over [sequence_dataset]: the fixed-length column [seq] is
    materialised, the ragged column [tags] keeps its pair although its
    row has eight values, and the target [y] is split off. *)
Example handle_tensors_sequence_batch :
  _handle_tensors sequence_attrs
    [([] : @tensor list_runtime,
      Some {[ "seq" := ([1; 2; 3; 4; 5], [0]);
              "tags" := ([1; 2; 3; 4; 5; 6; 7; 8], [0]) ]});
     ([7], None)]
    [["seq"; "tags"]; ["y"]]
  = Ok ({[ "seq" := @Lone list_runtime [1; 2; 3; 4; 5];
           "tags" := @Pair list_runtime [1; 2; 3; 4; 5; 6; 7; 8] [0] ]},
        Some (@Lone list_runtime [7])).
Proof. vm_compute. reflexivity. Qed.


(** ** Stopping and restarting the loader *)

Section Preservation.
Context {S : Type} (P : S -> Prop).

Lemma preserves_ret {A} (a : A) : preserves P (mret a).
Proof. intros s Hs. exact Hs. Qed.

Lemma preserves_raise {A} (e : exn) : preserves P (raise e : st S A).
Proof. intros s Hs. exact Hs. Qed.

Lemma preserves_lift {A} (r : result A) : preserves P (lift r).
Proof. intros s Hs. exact Hs. Qed.

Lemma preserves_gets {A} (f : S -> A) : preserves P (gets f).
Proof. intros s Hs. exact Hs. Qed.

Lemma preserves_modify (f : S -> S) :
  (forall s, P s -> P (f s)) -> preserves P (modify f).
Proof. intros Hf s Hs. apply Hf, Hs. Qed.

Lemma preserves_bind {A B} (m : st S A) (k : A -> st S B) :
  preserves P m -> (forall a, preserves P (k a)) -> preserves P (m ≫= k).
Proof.
  intros Hm Hk s Hs. unfold mbind, st_bind.
  specialize (Hm s Hs). destruct (m s) as [s' [a| |]]; cbn in *.
  - apply Hk, Hm.
  - exact Hm.
  - exact Hm.
Qed.

End Preservation.

Section Lifecycle.
Context `{Runtime}.

Lemma bind_ok_inv {S A B} (m : st S A) (k : A -> st S B) (s s' : S) (b : B) :
  (m ≫= k) s = (s', Ok b) ->
  exists s1 a, m s = (s1, Ok a) /\ k a s1 = (s', Ok b).
Proof.
  unfold mbind, st_bind. destruct (m s) as [s1 [a| |]]; intros Hk; try discriminate.
  exists s1, a. split; [reflexivity | exact Hk].
Qed.

(** Properties of the loader that do not depend on its queue. *)
Section BuffIndependent.
Context (P : Loader -> Prop).
Context (HP : forall s v, P s -> P (set_buff v s)).

Lemma preserves_buff : preserves P _buff.
Proof.
  intros self Hs. unfold _buff.
  destruct (__buff self); [exact Hs|].
  destruct (_data_iter self (_epochs self)) as [[it n]| |]; [|exact Hs..].
  apply HP, Hs.
Qed.

Lemma preserves_on_buff {A} (m : st ChunkQueue.t A) : preserves P (on_buff m).
Proof.
  unfold on_buff. apply preserves_bind; [apply preserves_buff|].
  intros q. destruct (m q) as [q' r].
  apply preserves_bind; [|intros; apply preserves_lift].
  apply preserves_modify. intros s Hs. apply HP, Hs.
Qed.

End BuffIndependent.

Lemma stop_ok_inv (self self1 : Loader) :
  stop self = (self1, Ok tt) -> _workers self1 = None /\ _batch_itr self1 = None.
Proof.
  unfold stop. intros Hstop.
  apply bind_ok_inv in Hstop as (s1 & workers & Hget & Hstop).
  injection Hget as <- <-.
  apply bind_ok_inv in Hstop as (s2 & [] & Hbranch & Hlast).
  injection Hlast as <-. split; [|reflexivity]. cbn.
  destruct (_workers self) as [ts|] eqn:Hws.
  - apply bind_ok_inv in Hbranch as (s3 & q & _ & Hbranch).
    apply bind_ok_inv in Hbranch as (s4 & [] & _ & Hbranch).
    apply bind_ok_inv in Hbranch as (s5 & [] & Hset & Hclear).
    injection Hset as <-.
    pose proof (preserves_on_buff (fun s => _workers s = None)
                  (fun s v Hs => Hs) (modify (ChunkQueue.set_q_out []))
                  (set_workers None s4) eq_refl) as Hkeep.
    rewrite Hclear in Hkeep. exact Hkeep.
  - injection Hbranch as <-. exact Hws.
Qed.

Lemma set_batch_itr_None_id (self : Loader) :
  _batch_itr self = None -> set_batch_itr None self = self.
Proof. destruct self; cbn. intros ->. reflexivity. Qed.

Lemma preserves_counter_iter_tail :
  preserves (fun s => num_rows_processed s = 0)
    (q ← _buff;
     _ ← (if ChunkQueue.stopped q then on_buff ChunkQueue.start else mret tt);
     self ← gets id;
     _ ← (if shuffle (attrs self) then _shuffle_indices else mret tt);
     _ ← modify (set_workers (Some []));
     _ ← on_buff (ChunkQueue.load_chunks (attrs self));
     modify (set_workers (Some [ {| is_alive := false |} ]))).
Proof.
  assert (Hbuff : forall s v, num_rows_processed s = 0
                              -> num_rows_processed (set_buff v s) = 0)
    by (intros s v Hs; exact Hs).
  apply preserves_bind; [apply preserves_buff, Hbuff|]. intros q.
  apply preserves_bind.
  { destruct (ChunkQueue.stopped q);
      [apply preserves_on_buff, Hbuff | apply preserves_ret]. }
  intros _. apply preserves_bind; [apply preserves_gets|]. intros self0.
  apply preserves_bind.
  { destruct (shuffle (attrs self0)); [|apply preserves_ret].
    unfold _shuffle_indices. apply preserves_modify. intros s Hs.
    destruct (random_shuffle _ _). exact Hs. }
  intros _. apply preserves_bind; [apply preserves_modify; intros s Hs; exact Hs|].
  intros _. apply preserves_bind; [apply preserves_on_buff, Hbuff|].
  intros _. apply preserves_modify. intros s Hs. exact Hs.
Qed.

(** C9. Once [stop] has returned, calling it again returns at once and
    leaves the loader as it is, worker list, queue and cached batch
    iterator included; and a following [__iter__] leaves the
    processed-row counter at [0]. *)
Theorem stop_idempotent_and_iter_resets (self self1 : Loader)
    (Hstop : stop self = (self1, Ok tt)) :
  stop self1 = (self1, Ok tt) /\
  num_rows_processed (__iter__ self1).1 = 0.
Proof.
  destruct (stop_ok_inv _ _ Hstop) as [Hw Hb].
  assert (Hagain : stop self1 = (self1, Ok tt)).
  { unfold stop. st_unfold. rewrite Hw. cbn.
    rewrite set_batch_itr_None_id by exact Hb. reflexivity. }
  split; [exact Hagain|].
  unfold __iter__. unfold mbind at 1. unfold st_bind at 1. rewrite Hagain.
  unfold mbind at 1. unfold st_bind at 1. cbn [modify].
  apply preserves_counter_iter_tail. reflexivity.
Qed.

End Lifecycle.

(** ** Failures of the worker *)

Section Failures.
Context `{Runtime}.



End Failures.


(** ** Row accounting over one epoch *)

Section Epoch.
Context `{Runtime}.

Lemma split_fn_spec {A : Type} (idx : list Z) :
  forall tensor : list A,
    Forall (fun n => 0 <= n) idx ->
    sumZ idx = len tensor ->
    concat (_split_fn tensor idx) = tensor /\ len <$> _split_fn tensor idx = idx.
Proof.
  induction idx as [|n idx IH]; intros tensor Hpos Hsum.
  - cbn in *. symmetry in Hsum. apply len_nil_inv in Hsum. subst. split; reflexivity.
  - apply Forall_cons in Hpos as [Hn Hpos].
    assert (Hrest : 0 <= sumZ idx).
    { clear -Hpos. induction Hpos; unfold sumZ in *; cbn; lia. }
    change (sumZ (n :: idx)) with (n + sumZ idx) in Hsum.
    unfold len in *. cbn [_split_fn].
    destruct (IH (drop (Z.to_nat n) tensor) Hpos) as [Hcat Hlen].
    { rewrite length_drop. lia. }
    split.
    + cbn [concat]. rewrite Hcat. apply take_drop.
    + cbn [fmap list_fmap]. fold (@fmap list _ _ _ (@len A)). rewrite Hlen.
      f_equal. rewrite length_take. lia.
Qed.

(** The batches of a non-empty chunk are its rows cut in order into
    pieces of [batch_size] rows, the last one holding the remainder. *)
Lemma make_tensors_spec (self : LoaderBase) (gdf : list Row) :
  1 <= batch_size self -> 1 <= len gdf ->
  exists batches : list (list Row),
    make_tensors self gdf = Ok batches /\
    concat batches = gdf /\
    Forall (fun batch => 1 <= len batch <= batch_size self) batches /\
    (len gdf `mod` batch_size self = 0 ->
     Forall (fun batch => len batch = batch_size self) batches).
Proof.
  intros Hb Hn.
  destruct (_num_steps_pos (len gdf) (batch_size self) ltac:(lia)) as (k & Hk & Hceil).
  assert (Hk1 : 1 <= k) by nia.
  set (idx := replicate (Z.to_nat (k - 1)) (batch_size self)
              ++ [len gdf - (k - 1) * batch_size self]).
  assert (Hidx : _get_segment_lengths self (len gdf) = Ok idx)
    by apply get_segment_lengths_eq, Hk.
  assert (Hpos : Forall (fun n => 1 <= n <= batch_size self) idx).
  { apply Forall_app. split.
    - apply Forall_replicate. lia.
    - apply Forall_singleton. lia. }
  assert (Hsum : sumZ idx = len gdf).
  { unfold idx. rewrite sumZ_app, sumZ_replicate, Z2Nat.id by lia.
    unfold sumZ. cbn. lia. }
  assert (Hfull : len gdf `mod` batch_size self = 0 ->
                  Forall (fun n => n = batch_size self) idx).
  { intros Hmod. apply Forall_app. split; [apply Forall_replicate; reflexivity|].
    apply Forall_singleton.
    pose proof (Z.div_mod (len gdf) (batch_size self) ltac:(lia)) as Hdm.
    rewrite Hmod, Z.add_0_r in Hdm.
    set (full := len gdf `div` batch_size self) in *.
    assert (full = k) by nia. nia. }
  assert (Hsplit : exists batches,
            (if 1 <? len idx then _split_fn gdf idx else (fun _ => gdf) <$> idx) = batches
            /\ concat batches = gdf /\ len <$> batches = idx).
  { destruct (Z.ltb_spec 1 (len idx)) as [Hlong|Hshort].
    - eexists. split; [reflexivity|]. apply split_fn_spec; [|exact Hsum].
      eapply Forall_impl; [exact Hpos|]. cbn. lia.
    - assert (Hone : k = 1).
      { unfold idx, len in Hshort. rewrite length_app, length_replicate in Hshort.
        cbn in Hshort. lia. }
      subst k. subst idx. change (Z.to_nat (1 - 1)) with 0%nat.
      cbn [replicate app fmap list_fmap].
      eexists. split; [reflexivity|]. cbn [concat]. rewrite app_nil_r.
      split; [reflexivity|]. cbn. f_equal. lia. }
  destruct Hsplit as (batches & Hbatches & Hcat & Hlen).
  exists batches. split.
  { unfold make_tensors. rewrite Hidx. cbn. rewrite Hbatches. reflexivity. }
  split; [exact Hcat|].
  rewrite <- Hlen in Hpos, Hfull. split.
  - apply Forall_fmap in Hpos. exact Hpos.
  - intros Hmod. specialize (Hfull Hmod). apply Forall_fmap in Hfull. exact Hfull.
Qed.

(** The groups of [batch] hold the partitions of the iterator, in order. *)
Lemma batch_from_ok (num_parts : Z) (parts : list (list Row)) :
  forall current : list (list Row),
    exists groups : list (list (list Row)),
      ChunkQueue.batch_from num_parts current (Ok <$> parts) = Ok <$> groups /\
      concat groups = current ++ parts.
Proof.
  induction parts as [|value parts IH]; intros current.
  - cbn. destruct (Z.ltb_spec 0 (len current)) as [Hlen|Hlen].
    + exists [current]. split; [reflexivity|]. cbn. rewrite !app_nil_r. reflexivity.
    + exists []. split; [reflexivity|].
      assert (current = []) as -> by (apply len_nil_inv; pose proof (len_nonneg current); lia).
      reflexivity.
  - cbn [fmap list_fmap ChunkQueue.batch_from].
    fold (@fmap list _ _ _ (@Ok (list Row))).
    destruct (len (current ++ [value]) =? num_parts).
    + destruct (IH []) as (groups & Hrun & Hcat).
      exists ((current ++ [value]) :: groups). split.
      * rewrite Hrun. reflexivity.
      * cbn [concat]. rewrite Hcat. cbn. rewrite <- app_assoc. reflexivity.
    + destruct (IH (current ++ [value])) as (groups & Hrun & Hcat).
      exists groups. split; [exact Hrun|]. rewrite Hcat, <- app_assoc. reflexivity.
Qed.

(** Cutting the aligned prefix of [chunks ++ rest] in two steps: first
    the aligned prefix of [chunks], then that of what is left. *)
Lemma aligned_prefix_step {A : Type} (chunks rest : list A) (b : Z) :
  1 <= b ->
  let k1 := Z.to_nat (len chunks / b * b) in
  let left := drop k1 chunks ++ rest in
  let k := Z.to_nat (len (chunks ++ rest) / b * b) in
  let k' := Z.to_nat (len left / b * b) in
  take k (chunks ++ rest) = take k1 chunks ++ take k' left /\
  drop k (chunks ++ rest) = drop k' left.
Proof.
  intros Hb k1 left k k'.
  pose proof (len_nonneg chunks) as Hn.
  pose proof (Z.div_mod (len chunks) b ltac:(lia)) as Hdm.
  pose proof (Z.mod_pos_bound (len chunks) b ltac:(lia)) as Hm.
  assert (Hq : 0 <= len chunks / b) by (apply Z.div_pos; lia).
  assert (Hk1 : (k1 <= length chunks)%nat) by (unfold k1, len in *; nia).
  assert (Hleft : len left = len (chunks ++ rest) + (- (len chunks / b)) * b).
  { unfold left. rewrite !len_app. unfold len at 1. rewrite length_drop.
    unfold k1, len in *. nia. }
  assert (Hk : k = (k1 + k')%nat).
  { unfold k, k'. rewrite Hleft, Z.div_add by lia.
    assert (0 <= len left / b) by (apply Z.div_pos; [apply len_nonneg | lia]).
    rewrite Hleft, Z.div_add in H0 by lia. unfold k1. nia. }
  rewrite Hk.
  rewrite <- (take_drop k1 chunks) at 1 3. rewrite <- !app_assoc. fold left.
  split.
  - apply take_app_add'. rewrite length_take. lia.
  - apply drop_app_add'. rewrite length_take. lia.
Qed.

Lemma concat_with_spill (spill : option (list Row)) (chunks : list (list Row)) :
  concat match spill with
         | Some sp => if bool_decide (sp = []) then chunks else sp :: chunks
         | None => chunks
         end
  = default [] spill ++ concat chunks.
Proof.
  destruct spill as [sp|]; [|reflexivity].
  case_bool_decide as Hsp; [subst; reflexivity | reflexivity].
Qed.

Lemma set_q_out_id (q : ChunkQueue.t) : ChunkQueue.set_q_out (ChunkQueue.q_out q) q = q.
Proof. destruct q; reflexivity. Qed.

(** One round of the loop of [chunk_logic] on a queue that is not
    stopped. *)
Lemma chunk_logic_loop_step (dataloader : LoaderBase) (q : ChunkQueue.t)
    (chunks : list (list Row)) (groups : list (result (list (list Row))))
    (spill : option (list Row)) (head tail : list Row) :
  ChunkQueue.stopped q = false ->
  ChunkQueue.get_batch_div_chunk (default [] spill ++ concat chunks)
    (batch_size dataloader) = Ok (head, tail) ->
  let shuffled := if ChunkQueue.shuffle q then shuffle_df head else head in
  (forall tensors,
     0 < len shuffled -> make_tensors dataloader shuffled = Ok tensors ->
     ChunkQueue.chunk_logic_loop dataloader (Ok chunks :: groups) spill q
     = ChunkQueue.chunk_logic_loop dataloader groups (Some tail)
         (ChunkQueue.set_q_out (ChunkQueue.q_out q ++ [ChunkQueue.Batches tensors]) q)) /\
  (len shuffled <= 0 ->
   ChunkQueue.chunk_logic_loop dataloader (Ok chunks :: groups) spill q
   = ChunkQueue.chunk_logic_loop dataloader groups (Some tail) q).
Proof.
  intros Hq Hdiv shuffled.
  assert (Hstart :
    ChunkQueue.chunk_logic_loop dataloader (Ok chunks :: groups) spill q
    = if 0 <? len shuffled
      then match make_tensors dataloader shuffled with
           | Ok tensors =>
               ChunkQueue.chunk_logic_loop dataloader groups (Some tail)
                 (ChunkQueue.set_q_out
                    (ChunkQueue.q_out q ++ [ChunkQueue.Batches tensors]) q)
           | Raise e => (q, Raise e)
           | Blocked => (q, Blocked)
           end
      else ChunkQueue.chunk_logic_loop dataloader groups (Some tail) q).
  { cbn [ChunkQueue.chunk_logic_loop]. st_unfold. cbn beta.
    rewrite Hq. rewrite concat_with_spill, Hdiv. cbn beta iota.
    fold shuffled. destruct (0 <? len shuffled); [|reflexivity].
    destruct (make_tensors dataloader shuffled); try reflexivity.
    unfold ChunkQueue.put. rewrite Hq. reflexivity. }
  split.
  - intros tensors Hlen Htensors. rewrite Hstart, Htensors.
    destruct (Z.ltb_spec 0 (len shuffled)); [reflexivity | lia].
  - intros Hlen. rewrite Hstart.
    destruct (Z.ltb_spec 0 (len shuffled)); [lia | reflexivity].
Qed.

(** What the loop of [chunk_logic] enqueues and what it leaves as spill,
    on a queue that is not stopped and stays so. *)
Lemma chunk_logic_loop_spec (dataloader : LoaderBase)
    (groups : list (list (list Row))) :
  1 <= batch_size dataloader ->
  (forall chunk, shuffle_df chunk ≡ₚ chunk) ->
  forall (spill : option (list Row)) (q : ChunkQueue.t),
    ChunkQueue.stopped q = false ->
    len (default [] spill) < batch_size dataloader ->
    exists (packets : list (list (list Row))) (spill' : option (list Row)),
      ChunkQueue.chunk_logic_loop dataloader (Ok <$> groups) spill q
      = (ChunkQueue.set_q_out
           (ChunkQueue.q_out q ++ (ChunkQueue.Batches <$> packets)) q,
         Ok (ChunkQueue.Next spill')) /\
      let input := default [] spill ++ concat (concat groups) in
      let k := Z.to_nat (len input / batch_size dataloader * batch_size dataloader) in
      concat (concat packets) ≡ₚ take k input /\
      (ChunkQueue.shuffle q = false -> concat (concat packets) = take k input) /\
      default [] spill' = drop k input /\
      Forall (fun batch => len batch = batch_size dataloader) (concat packets).
Proof.
  intros Hb Hshuffle.
  induction groups as [|chunks groups IH]; intros spill q Hq Hspill.
  - exists [], spill. cbn [fmap list_fmap concat]. rewrite !app_nil_r.
    split; [rewrite set_q_out_id; reflexivity|].
    rewrite Z.div_small by (pose proof (len_nonneg (default [] spill)); lia).
    cbn. repeat split; constructor.
  - set (b := batch_size dataloader) in *.
    set (head := take (Z.to_nat (len (default [] spill ++ concat chunks) / b * b))
                   (default [] spill ++ concat chunks)).
    set (tail := drop (Z.to_nat (len (default [] spill ++ concat chunks) / b * b))
                   (default [] spill ++ concat chunks)).
    pose proof (get_batch_div_chunk_eq (default [] spill ++ concat chunks) b Hb) as Hdiv.
    fold head tail in Hdiv.
    assert (Hhead : head = take (Z.to_nat (len (default [] spill ++ concat chunks) / b * b))
                             (default [] spill ++ concat chunks)) by reflexivity.
    assert (Htail : tail = drop (Z.to_nat (len (default [] spill ++ concat chunks) / b * b))
                             (default [] spill ++ concat chunks)) by reflexivity.
    assert (Hlen_head : len head = len (default [] spill ++ concat chunks) / b * b)
      by apply len_take_aligned, Hb.
    assert (Hlen_tail : len tail = len (default [] spill ++ concat chunks) `mod` b)
      by apply len_drop_aligned, Hb.
    clearbody head tail.
    pose proof (chunk_logic_loop_step dataloader q chunks (Ok <$> groups) spill
                  head tail Hq Hdiv) as Hstep.
    cbv zeta in Hstep. destruct Hstep as [Hput Hskip].
    set (shuffled := if ChunkQueue.shuffle q then shuffle_df head else head) in *.
    assert (Hperm : shuffled ≡ₚ head).
    { unfold shuffled. destruct (ChunkQueue.shuffle q); [apply Hshuffle | reflexivity]. }
    assert (Hsame : ChunkQueue.shuffle q = false -> shuffled = head).
    { unfold shuffled. intros ->. reflexivity. }
    assert (Hlen_shuffled : len shuffled = len head).
    { unfold len. rewrite Hperm. reflexivity. }
    assert (Htail_small : len (default [] (Some tail)) < b).
    { cbn. rewrite Hlen_tail. apply Z.mod_pos_bound. lia. }
    pose proof (aligned_prefix_step (default [] spill ++ concat chunks)
                  (concat (concat groups)) b Hb) as Halign.
    cbv zeta in Halign. rewrite <- Hhead, <- Htail in Halign.
    destruct Halign as [Htake Hdrop].
    cbn [fmap list_fmap]. fold (@fmap list _ _ _ (@Ok (list (list Row)))).
    cbn [concat]. rewrite concat_app, app_assoc. cbv zeta.
    destruct (Z.ltb_spec 0 (len shuffled)) as [Hpos|Hzero].
    + destruct (make_tensors_spec dataloader shuffled Hb ltac:(lia))
        as (tensors & Htensors & Hcat & _ & Hfull).
      rewrite (Hput tensors Hpos Htensors).
      destruct (IH (Some tail)
                  (ChunkQueue.set_q_out
                     (ChunkQueue.q_out q ++ [ChunkQueue.Batches tensors]) q))
        as (packets & spill' & Hrun & Hp & He & Hs & Hall);
        [exact Hq | exact Htail_small |].
      cbv zeta in Hp, He, Hs. cbn [default from_option id] in Hp, He, Hs.
      exists (tensors :: packets), spill'. split.
      { rewrite Hrun. destruct q. cbn. rewrite <- app_assoc. reflexivity. }
      cbn [concat]. rewrite concat_app, Hcat, Htake, Hdrop.
      split; [rewrite Hp, Hperm; reflexivity|].
      split; [intros Hns; rewrite (He Hns), (Hsame Hns); reflexivity|].
      split; [exact Hs|].
      apply Forall_app. split; [|exact Hall].
      apply Hfull. rewrite Hlen_shuffled, Hlen_head. apply Z_mod_mult.
    + rewrite (Hskip Hzero).
      destruct (IH (Some tail) q) as (packets & spill' & Hrun & Hp & He & Hs & Hall);
        [exact Hq | exact Htail_small |].
      cbv zeta in Hp, He, Hs. cbn [default from_option id] in Hp, He, Hs.
      exists packets, spill'. split; [exact Hrun|].
      assert (Hnil : head = []).
      { apply len_nil_inv. pose proof (len_nonneg head). lia. }
      rewrite Htake, Hdrop, Hnil. cbn [app].
      repeat split; assumption.
Qed.

(** What the thread enqueues.  Take a queue that is not stopped, over an
    iterator that yields the partitions [parts], [R] rows in all, and a
    loader with [batch_size >= 1]; the partitions are grouped by any
    [num_parts].  Then [load_chunks], run by itself, enqueues lists of
    batches whose
    row counts sum to [R], or to [floor(R / batch_size) * batch_size]
    under [drop_last].  The batches hold, each row once, all the input
    rows, or under [drop_last] all but the last [R mod batch_size] ones,
    the final undersized spill; without shuffling they hold them in the
    input order.  No batch is empty or longer than [batch_size]. *)
Lemma load_chunks_rows_accounted (dataloader : LoaderBase) (q : ChunkQueue.t)
    (parts : list (list Row))
    (Hb : 1 <= batch_size dataloader)
    (Hshuffle : forall chunk : list Row, shuffle_df chunk ≡ₚ chunk)
    (Hitr : ChunkQueue.itr q = Ok <$> parts)
    (Hq : ChunkQueue.stopped q = false) :
  let rows := concat parts in
  let R := len rows in
  let b := batch_size dataloader in
  let kept := if drop_last dataloader then take (Z.to_nat (R / b * b)) rows else rows in
  exists packets : list (list (list Row)),
    ChunkQueue.load_chunks dataloader q
    = (ChunkQueue.set_q_out
         (ChunkQueue.q_out q ++ (ChunkQueue.Batches <$> packets)) q, Ok tt) /\
    sumZ (len <$> concat packets) = (if drop_last dataloader then R / b * b else R) /\
    concat (concat packets) ≡ₚ kept /\
    (ChunkQueue.shuffle q = false -> concat (concat packets) = kept) /\
    Forall (fun batch => 1 <= len batch <= b) (concat packets).
Proof.
  intros rows R b kept.
  destruct (batch_from_ok (ChunkQueue.num_parts q) parts []) as (groups & Hgroups & Hcat).
  cbn [app] in Hcat.
  destruct (chunk_logic_loop_spec dataloader groups Hb Hshuffle None q Hq)
    as (packets & spill & Hloop & Hp & He & Hs & Hall).
  { unfold len. cbn. lia. }
  cbv zeta in Hp, He, Hs. cbn [default from_option id app] in Hp, He, Hs.
  rewrite Hcat in Hp, He, Hs. fold rows R b in Hp, He, Hs.
  set (k := Z.to_nat (R / b * b)) in *.
  pose proof (len_nonneg rows) as HR. fold R in HR.
  pose proof (Z.div_mod R b ltac:(lia)) as Hdm.
  pose proof (Z.mod_pos_bound R b ltac:(lia)) as Hm.
  assert (Hquot : 0 <= R / b) by (apply Z.div_pos; lia).
  assert (Hk : (k <= length rows)%nat) by (unfold k, R, len in *; nia).
  assert (Hfull : Forall (fun batch => 1 <= len batch <= b) (concat packets)).
  { eapply Forall_impl; [exact Hall|]. cbn. intros batch ->. fold b. lia. }
  assert (Hloop' :
    ChunkQueue.chunk_logic dataloader (ChunkQueue.itr q) q
    = match spill with
      | Some sp =>
          if negb (drop_last dataloader) && negb (bool_decide (sp = [])) then
            (tensors ← lift (make_tensors dataloader sp);
             _ ← ChunkQueue.put (ChunkQueue.Batches tensors);
             mret tt)
              (ChunkQueue.set_q_out
                 (ChunkQueue.q_out q ++ (ChunkQueue.Batches <$> packets)) q)
          else (ChunkQueue.set_q_out
                  (ChunkQueue.q_out q ++ (ChunkQueue.Batches <$> packets)) q, Ok tt)
      | None => (ChunkQueue.set_q_out
                   (ChunkQueue.q_out q ++ (ChunkQueue.Batches <$> packets)) q, Ok tt)
      end).
  { unfold ChunkQueue.chunk_logic, ChunkQueue.batch.
    unfold mbind at 1. unfold st_bind at 1. cbn [gets id].
    unfold mbind at 1. unfold st_bind at 1.
    rewrite Hitr, Hgroups, Hloop.
    destruct spill as [sp|]; [|reflexivity].
    destruct (negb (drop_last dataloader) && negb (bool_decide (sp = []))); reflexivity. }
  assert (Hsum : forall batches : list (list Row),
            sumZ (len <$> batches) = len (concat batches)).
  { induction batches as [|x batches IHb]; [reflexivity|].
    cbn [fmap list_fmap concat]. rewrite len_app, <- IHb. reflexivity. }
  assert (Hdone : forall packets',
            ChunkQueue.chunk_logic dataloader (ChunkQueue.itr q) q
            = (ChunkQueue.set_q_out
                 (ChunkQueue.q_out q ++ (ChunkQueue.Batches <$> packets')) q, Ok tt) ->
            concat (concat packets') ≡ₚ kept ->
            (ChunkQueue.shuffle q = false -> concat (concat packets') = kept) ->
            Forall (fun batch => 1 <= len batch <= b) (concat packets') ->
            exists packets : list (list (list Row)),
              ChunkQueue.load_chunks dataloader q
              = (ChunkQueue.set_q_out
                   (ChunkQueue.q_out q ++ (ChunkQueue.Batches <$> packets)) q, Ok tt) /\
              sumZ (len <$> concat packets)
              = (if drop_last dataloader then R / b * b else R) /\
              concat (concat packets) ≡ₚ kept /\
              (ChunkQueue.shuffle q = false -> concat (concat packets) = kept) /\
              Forall (fun batch => 1 <= len batch <= b) (concat packets)).
  { intros packets' Hrun Hperm Heq Hbatches. exists packets'.
    split; [unfold ChunkQueue.load_chunks; rewrite Hrun; reflexivity|].
    split; [|split; [exact Hperm | split; [exact Heq | exact Hbatches]]].
    rewrite Hsum. unfold len at 1. rewrite Hperm. unfold kept.
    destruct (drop_last dataloader); [|reflexivity].
    rewrite length_take. fold k. unfold k in *. lia. }
  assert (Hall_rows : default [] spill = [] -> take k rows = rows).
  { intros Hnil. rewrite Hnil in Hs. rewrite <- (take_drop k rows) at 2.
    rewrite <- Hs, app_nil_r. reflexivity. }
  destruct spill as [sp|]; cbn [default from_option id] in Hs, Hall_rows.
  - destruct (drop_last dataloader) eqn:Hdrop; cbn [negb andb] in Hloop'.
    + apply (Hdone packets Hloop'); unfold kept; rewrite ?Hdrop; assumption.
    + case_bool_decide as Hsp; cbn [negb] in Hloop'.
      * rewrite (Hall_rows Hsp) in Hp, He.
        apply (Hdone packets Hloop'); unfold kept; rewrite ?Hdrop; assumption.
      * assert (Hsp_len : 1 <= len sp < b).
        { rewrite Hs. unfold len. rewrite length_drop.
          assert (length sp <> 0%nat) by (destruct sp; [congruence | discriminate]).
          rewrite Hs, length_drop in H0. unfold k, R, len in *. lia. }
        destruct (make_tensors_spec dataloader sp Hb ltac:(lia))
          as (tensors & Htensors & Hcat_sp & Hsizes & _).
        apply (Hdone (packets ++ [tensors])).
        -- rewrite Hloop'. st_unfold. rewrite Htensors.
           unfold ChunkQueue.put, ChunkQueue.stopped in *. cbn. rewrite Hq.
           rewrite fmap_app, app_assoc. reflexivity.
        -- unfold kept. rewrite !concat_app. cbn [concat].
           rewrite !app_nil_r, Hcat_sp, Hp, Hs. rewrite take_drop. reflexivity.
        -- intros Hns. unfold kept. rewrite !concat_app. cbn [concat].
           rewrite !app_nil_r, Hcat_sp, (He Hns), Hs. apply take_drop.
        -- rewrite concat_app. cbn [concat]. rewrite app_nil_r.
           apply Forall_app. split; [exact Hfull | exact Hsizes].
  - rewrite (Hall_rows eq_refl) in Hp, He.
    apply (Hdone packets Hloop'); unfold kept; rewrite ?(Hall_rows eq_refl);
      destruct (drop_last dataloader); assumption.
Qed.

End Epoch.

(** The scenario of the specification: ten partitions of a hundred rows,
    batches of 64 rows, two partitions per chunk, no shuffling.  The
    worker enqueues sixteen batches, fifteen of 64 rows and a last one of
    40 rows, and the rows come out in input order. *)
Example load_chunks_ten_partitions :
  let q := (ChunkQueue.load_chunks (example_attrs ten_partitions 64 2 false false 1 0)
              (example_queue ten_partitions 2 false)).1 in
  batch_sizes q = [[64; 64; 64]; [64; 64; 64]; [64; 64; 64]; [64; 64; 64];
                   [64; 64; 64]; [40]] /\
  concat (queued_batches q) = seqZ 0 1000.
Proof. vm_compute. split; reflexivity. Qed.

(** The same through the loader: [__iter__] starts the worker on the
    queue of the loader. *)
Example iter_ten_partitions :
  (batch_sizes <$> __buff (__iter__ (example_loader ten_partitions 64 2 false false 1 0)).1)
  = Some [[64; 64; 64]; [64; 64; 64]; [64; 64; 64]; [64; 64; 64];
          [64; 64; 64]; [40]].
Proof. vm_compute. reflexivity. Qed.

(** With [drop_last] the last 40 rows are not enqueued. *)
Example load_chunks_ten_partitions_drop_last :
  batch_sizes (ChunkQueue.load_chunks
                 (example_attrs ten_partitions 64 2 false true 1 0)
                 (example_queue ten_partitions 2 false)).1
  = [[64; 64; 64]; [64; 64; 64]; [64; 64; 64]; [64; 64; 64]; [64; 64; 64]].
Proof. vm_compute. reflexivity. Qed.

Lemma get_segment_lengths_spec_witness :
  exists (k : Z) (idx : list Z),
    (k - 1) * 64 < 1000 <= k * 64 /\
    _get_segment_lengths (example_attrs [] 64 2 false false 1 0) 1000 = Ok idx /\
    len idx = k /\
    (forall i : nat, Z.of_nat i < k - 1 -> idx !! i = Some 64) /\
    last idx = Some (1000 - (k - 1) * 64) /\
    sumZ idx = 1000.
Proof.
  apply (get_segment_lengths_spec (example_attrs [] 64 2 false false 1 0) 1000);
    simpl; lia.
Defined.

Lemma get_batch_div_chunk_spec_witness :
  exists head tail : list Z,
    ChunkQueue.get_batch_div_chunk (H := list_runtime) [10; 11; 12; 13; 14; 15; 16] 3
    = Ok (head, tail) /\
    head = [10; 11; 12; 13; 14; 15] /\
    tail = [16] /\
    len head = 6 /\
    len tail = 1 /\
    head ++ tail = [10; 11; 12; 13; 14; 15; 16].
Proof.
  apply (@get_batch_div_chunk_spec list_runtime [10; 11; 12; 13; 14; 15; 16] 3). lia.
Defined.

Lemma len_spec_witness :
  exists k : Z,
    (k - 1) * 64 < 1000 <= k * 64 /\
    __len__ (example_loader ten_partitions 64 2 false true 1 0)
    = ((_buff_len (example_loader ten_partitions 64 2 false true 1 0)).1,
       Ok (if true && negb (1000 `mod` 64 =? 0) then k - 1 else k)).
Proof.
  apply (len_spec (example_loader ten_partitions 64 2 false true 1 0)
           (_buff_len (example_loader ten_partitions 64 2 false true 1 0)).1 1000).
  - simpl. lia.
  - vm_compute. reflexivity.
Defined.

Lemma to_sparse_tensor_raises_iff_witness :
  let values : list (@elem list_runtime) := [1; 2; 3; 4; 5; 6; 7; 8] in
  let index : list Z := [0; 2] in
  exists (offsets lengths : list Z) (num_rows : Z),
    _pull_values_offsets sequence_attrs (Pair values index)
    = (values, offsets, lengths, num_rows) /\
    (_use_nnz sequence_attrs = false ->
     forall (i : nat) (a b : Z),
       offsets !! i = Some a -> offsets !! S i = Some b ->
       lengths !! i = Some (b - a)) /\
    length lengths = length index /\
    let observed := _get_max_seq_len lengths in
    observed ∈ lengths /\
    (forall d, d ∈ lengths -> d <= observed) /\
    ((exists e, _to_sparse_tensor sequence_attrs (Pair values index) "seq" = Raise e)
     <-> 5 < observed) /\
    (5 < observed ->
     exists pre mid post : string,
       _to_sparse_tensor sequence_attrs (Pair values index) "seq"
       = Raise (ValueError (pre +:+ str 5 +:+ mid +:+ str observed +:+ post))) /\
    (observed <= 5 ->
     _to_sparse_tensor sequence_attrs (Pair values index) "seq"
     = Ok (_build_sparse_tensor values offsets lengths num_rows 5
             (bool_decide ("seq" ∈ sparse_as_dense sequence_attrs)))).
Proof.
  intros values index.
  apply (to_sparse_tensor_raises_iff sequence_attrs "seq" 5 values index).
  - reflexivity.
  - discriminate.
Defined.

Lemma stop_idempotent_and_iter_resets_witness :
  let started := (__iter__ (example_loader ten_partitions 64 2 false false 1 0)).1 in
  let stopped := (stop started).1 in
  stop stopped = (stopped, Ok tt) /\
  num_rows_processed (__iter__ stopped).1 = 0.
Proof.
  cbv zeta.
  apply (stop_idempotent_and_iter_resets
           (__iter__ (example_loader ten_partitions 64 2 false false 1 0)).1).
  vm_compute. reflexivity.
Defined.


(** ** The generator [batch] *)

Section QueueExtras.
Context `{Runtime}.

Lemma batch_from_groups (num_parts : Z) (parts : list (list Row)) :
  1 <= num_parts ->
  forall current : list (list Row),
    len current < num_parts ->
    exists groups : list (list (list Row)),
      ChunkQueue.batch_from num_parts current (Ok <$> parts) = Ok <$> groups /\
      concat groups = current ++ parts /\
      Forall (fun group => 1 <= len group <= num_parts) groups /\
      (forall (i : nat) group,
         groups !! i = Some group -> (S i < length groups)%nat ->
         len group = num_parts).
Proof.
  intros Hn. induction parts as [|value parts IH]; intros current Hcur.
  - cbn. destruct (Z.ltb_spec 0 (len current)) as [Hlen|Hlen].
    + exists [current]. split; [reflexivity|]. cbn. rewrite !app_nil_r.
      split; [reflexivity|]. split; [apply Forall_singleton; lia|].
      intros [|i] group Hg Hi; cbn in Hi; lia.
    + exists []. split; [reflexivity|].
      assert (current = []) as -> by (apply len_nil_inv; pose proof (len_nonneg current); lia).
      split; [reflexivity|]. split; [constructor|].
      intros i group Hg. destruct i; discriminate.
  - cbn [fmap list_fmap ChunkQueue.batch_from].
    fold (@fmap list _ _ _ (@Ok (list Row))).
    assert (Hlen : len (current ++ [value]) = len current + 1).
    { rewrite len_app. reflexivity. }
    destruct (Z.eqb_spec (len (current ++ [value])) num_parts) as [Hfull|Hpart].
    + destruct (IH []) as (groups & Hrun & Hcat & Hall & Hinner).
      { unfold len. cbn. lia. }
      exists ((current ++ [value]) :: groups). split; [rewrite Hrun; reflexivity|].
      split; [cbn [concat]; rewrite Hcat; cbn; rewrite <- app_assoc; reflexivity|].
      split; [apply Forall_cons; split; [pose proof (len_nonneg current); lia | exact Hall]|].
      intros [|i] group Hg Hi; cbn in Hg.
      * injection Hg as <-. exact Hfull.
      * apply (Hinner i group Hg). cbn in Hi. lia.
    + destruct (IH (current ++ [value])) as (groups & Hrun & Hcat & Hall & Hinner); [lia|].
      exists groups. split; [exact Hrun|].
      split; [rewrite Hcat, <- app_assoc; reflexivity|]. split; assumption.
Qed.

(** X1. With [num_parts >= 1] and an iterator that yields the partitions
    [parts], the generator [batch] yields them in order, grouped: every
    group holds between one and [num_parts] partitions, and every group
    but the last holds exactly [num_parts]. *)
Theorem batch_groups_of_num_parts (self : ChunkQueue.t) (parts : list (list Row))
    (Hn : 1 <= ChunkQueue.num_parts self) :
  exists groups : list (list (list Row)),
    ChunkQueue.batch self (Ok <$> parts) = Ok <$> groups /\
    concat groups = parts /\
    Forall (fun group => 1 <= len group <= ChunkQueue.num_parts self) groups /\
    (forall (i : nat) group,
       groups !! i = Some group -> (S i < length groups)%nat ->
       len group = ChunkQueue.num_parts self).
Proof.
  unfold ChunkQueue.batch.
  destruct (batch_from_groups (ChunkQueue.num_parts self) parts Hn [])
    as (groups & Hrun & Hcat & Hall & Hinner).
  { unfold len. cbn. lia. }
  exists groups. repeat split; assumption.
Qed.

Lemma batch_from_unbounded (num_parts : Z) (parts : list (list Row)) :
  num_parts <= 0 ->
  forall current : list (list Row),
    ChunkQueue.batch_from num_parts current (Ok <$> parts)
    = if 0 <? len (current ++ parts) then [Ok (current ++ parts)] else [].
Proof.
  intros Hn. induction parts as [|value parts IH]; intros current.
  - cbn. rewrite app_nil_r. reflexivity.
  - cbn [fmap list_fmap ChunkQueue.batch_from].
    fold (@fmap list _ _ _ (@Ok (list Row))).
    destruct (Z.eqb_spec (len (current ++ [value])) num_parts) as [Hfull|_].
    + rewrite len_app in Hfull. pose proof (len_nonneg current). unfold len in Hfull at 2.
      cbn in Hfull. lia.
    + rewrite IH, <- app_assoc. reflexivity.
Qed.

(** X2. With [num_parts <= 0] the test [len(current) == num_parts] never
    holds: [batch] yields all the partitions of a non-empty iterator as
    one single group. *)
Theorem batch_single_group_when_num_parts_not_positive (self : ChunkQueue.t)
    (parts : list (list Row))
    (Hn : ChunkQueue.num_parts self <= 0) (Hparts : parts <> []) :
  ChunkQueue.batch self (Ok <$> parts) = [Ok parts].
Proof.
  unfold ChunkQueue.batch. rewrite batch_from_unbounded by exact Hn. cbn [app].
  destruct (Z.ltb_spec 0 (len parts)) as [_|Hlen]; [reflexivity|].
  exfalso. apply Hparts, len_nil_inv. pose proof (len_nonneg parts). lia.
Qed.

End QueueExtras.

(** ** What the worker does to its queue *)

Section WorkerExtras.
Context `{Runtime}.

Lemma set_q_out_set_q_out (q : ChunkQueue.t) (a b : list ChunkQueue.packet) :
  ChunkQueue.set_q_out a (ChunkQueue.set_q_out b q) = ChunkQueue.set_q_out a q.
Proof. reflexivity. Qed.

Lemma put_appends (packet : ChunkQueue.packet) (q : ChunkQueue.t) :
  exists r,
    ChunkQueue.put packet q
    = (ChunkQueue.set_q_out
         (ChunkQueue.q_out q ++ (if ChunkQueue.stopped q then [] else [packet])) q,
       Ok r).
Proof.
  unfold ChunkQueue.put. destruct (ChunkQueue.stopped q).
  - exists true. rewrite app_nil_r. destruct q; reflexivity.
  - exists false. reflexivity.
Qed.

(** The loop of [chunk_logic] only appends packets of batches. *)
Lemma chunk_logic_loop_appends (dataloader : LoaderBase)
    (groups : list (result (list (list Row)))) :
  forall (spill : option (list Row)) (q : ChunkQueue.t),
    exists (packets : list (list (list Row))) r,
      ChunkQueue.chunk_logic_loop dataloader groups spill q
      = (ChunkQueue.set_q_out
           (ChunkQueue.q_out q ++ (ChunkQueue.Batches <$> packets)) q, r).
Proof.
  assert (Hsame : forall q (r : result (ChunkQueue.flow (option (list Row)))),
            exists (packets : list (list (list Row))) r',
              (q, r) = (ChunkQueue.set_q_out
                          (ChunkQueue.q_out q ++ (ChunkQueue.Batches <$> packets)) q, r')).
  { intros q r. exists [], r. cbn. rewrite app_nil_r. destruct q; reflexivity. }
  induction groups as [|group groups IH]; intros spill q.
  - apply Hsame.
  - destruct group as [chunks|e|]; [|apply Hsame..].
    cbn [ChunkQueue.chunk_logic_loop]. st_unfold. cbn beta.
    destruct (ChunkQueue.stopped q) eqn:Hq; [apply Hsame|].
    destruct (ChunkQueue.get_batch_div_chunk _ _) as [[head tail]|e|]; [|apply Hsame..].
    cbn beta iota.
    set (shuffled := if ChunkQueue.shuffle q then shuffle_df head else head).
    destruct (0 <? len shuffled); [|apply IH].
    destruct (make_tensors dataloader shuffled) as [tensors|e|]; [|apply Hsame..].
    unfold ChunkQueue.put. rewrite Hq.
    destruct (IH (Some tail)
                (ChunkQueue.set_q_out
                   (ChunkQueue.q_out q ++ [ChunkQueue.Batches tensors]) q))
      as (packets & r & Hrun).
    exists (tensors :: packets), r. rewrite Hrun. cbn [ChunkQueue.q_out ChunkQueue.set_q_out].
    rewrite set_q_out_set_q_out, <- app_assoc. reflexivity.
Qed.

Lemma chunk_logic_appends (dataloader : LoaderBase) (itr : list (result (list Row)))
    (q : ChunkQueue.t) :
  exists (packets : list (list (list Row))) r,
    ChunkQueue.chunk_logic dataloader itr q
    = (ChunkQueue.set_q_out
         (ChunkQueue.q_out q ++ (ChunkQueue.Batches <$> packets)) q, r).
Proof.
  unfold ChunkQueue.chunk_logic.
  unfold mbind at 1. unfold st_bind at 1. cbn [gets id].
  unfold mbind at 1. unfold st_bind at 1.
  destruct (chunk_logic_loop_appends dataloader (ChunkQueue.batch q itr) None q)
    as (packets & r & ->).
  destruct r as [[spill|]|e|]; try (exists packets; eexists; reflexivity).
  destruct spill as [sp|]; [|exists packets; eexists; reflexivity].
  destruct (negb (drop_last dataloader) && negb (bool_decide (sp = [])));
    [|exists packets; eexists; reflexivity].
  st_unfold.
  destruct (make_tensors dataloader sp) as [tensors|e|];
    try (exists packets; eexists; reflexivity).
  set (q1 := ChunkQueue.set_q_out _ q).
  destruct (put_appends (ChunkQueue.Batches tensors) q1) as (r & ->).
  destruct (ChunkQueue.stopped q1).
  - exists packets. eexists. rewrite app_nil_r. unfold q1. reflexivity.
  - exists (packets ++ [tensors]). eexists. unfold q1.
    cbn [ChunkQueue.q_out ChunkQueue.set_q_out].
    rewrite fmap_app, app_assoc. reflexivity.
Qed.

(** X3. [load_chunks] never raises.  Whatever the iterator and the
    loader, it changes nothing of the queue but [q_out], to which it only
    appends: lists of batches, followed by at most one exception. *)
Theorem load_chunks_only_appends (dataloader : LoaderBase) (q : ChunkQueue.t) :
  exists (extra : list ChunkQueue.packet) r,
    ChunkQueue.load_chunks dataloader q
    = (ChunkQueue.set_q_out (ChunkQueue.q_out q ++ extra) q, r) /\
    worker_output extra /\
    (forall e, r <> Raise e).
Proof.
  unfold ChunkQueue.load_chunks.
  destruct (chunk_logic_appends dataloader (ChunkQueue.itr q) q) as (packets & r & ->).
  destruct r as [[]|e|].
  - exists (ChunkQueue.Batches <$> packets), (Ok tt). split; [reflexivity|].
    split; [|discriminate]. exists packets, []. rewrite app_nil_r. auto.
  - set (q1 := ChunkQueue.set_q_out _ q).
    destruct (put_appends (ChunkQueue.Failure e) q1) as (r & ->).
    exists ((ChunkQueue.Batches <$> packets)
            ++ (if ChunkQueue.stopped q1 then [] else [ChunkQueue.Failure e])), (Ok tt).
    split; [unfold q1; cbn [ChunkQueue.q_out ChunkQueue.set_q_out];
            rewrite app_assoc; reflexivity|].
    split; [|discriminate]. exists packets. eexists. split; [reflexivity|].
    destruct (ChunkQueue.stopped q1); eauto.
  - exists (ChunkQueue.Batches <$> packets), Blocked. split; [reflexivity|].
    split; [|discriminate]. exists packets, []. rewrite app_nil_r. auto.
Qed.

(** X4. On a stopped queue [load_chunks] leaves the queue as it is:
    nothing is enqueued, not even the exception of a failing iterator. *)
Theorem load_chunks_stopped_is_noop (dataloader : LoaderBase) (q : ChunkQueue.t)
    (Hq : ChunkQueue.stopped q = true) :
  (ChunkQueue.load_chunks dataloader q).1 = q.
Proof.
  assert (Hloop : forall groups spill,
            (ChunkQueue.chunk_logic_loop dataloader groups spill q).1 = q /\
            (forall s, ChunkQueue.chunk_logic_loop dataloader groups spill q
                       = (q, Ok (ChunkQueue.Next s)) -> s = spill)).
  { intros groups spill. destruct groups as [|[chunks|e|] groups]; cbn; st_unfold;
      rewrite ?Hq; (split; [reflexivity|]); intros s Hs; congruence. }
  unfold ChunkQueue.load_chunks, ChunkQueue.chunk_logic.
  unfold mbind at 1. unfold st_bind at 1. cbn [gets id].
  unfold mbind at 1. unfold st_bind at 1.
  destruct (Hloop (ChunkQueue.batch q (ChunkQueue.itr q)) None) as [Hstate Hspill].
  destruct (ChunkQueue.chunk_logic_loop dataloader _ None q) as [q1 r] eqn:Hrun.
  cbn in Hstate. subst q1.
  destruct r as [[spill|]|e|]; cbn; try reflexivity.
  - rewrite (Hspill spill eq_refl). reflexivity.
  - unfold ChunkQueue.put. rewrite Hq. reflexivity.
Qed.

(** X5. With [batch_size = 0], a queue that is not stopped and an
    iterator that yields at least one partition, the division in
    [get_batch_div_chunk] raises [ZeroDivisionError] on the first chunk:
    the worker enqueues that exception, nothing else, and returns. *)
Theorem load_chunks_zero_batch_size (dataloader : LoaderBase) (q : ChunkQueue.t)
    (parts : list (list Row))
    (Hb : batch_size dataloader = 0)
    (Hitr : ChunkQueue.itr q = Ok <$> parts)
    (Hparts : parts <> [])
    (Hq : ChunkQueue.stopped q = false) :
  ChunkQueue.load_chunks dataloader q
  = (ChunkQueue.set_q_out
       (ChunkQueue.q_out q ++ [ChunkQueue.Failure ZeroDivisionError]) q, Ok tt).
Proof.
  assert (Hgroups : exists group groups,
            ChunkQueue.batch q (Ok <$> parts) = Ok group :: groups).
  { unfold ChunkQueue.batch.
    destruct (batch_from_ok (ChunkQueue.num_parts q) parts []) as (groups & Hrun & Hcat).
    destruct groups as [|group groups].
    - cbn in Hcat. congruence.
    - exists group, (Ok <$> groups). exact Hrun. }
  destruct Hgroups as (group & groups & Hgroups).
  unfold ChunkQueue.load_chunks, ChunkQueue.chunk_logic.
  unfold mbind at 1. unfold st_bind at 1. cbn [gets id].
  unfold mbind at 1. unfold st_bind at 1.
  rewrite Hitr, Hgroups. cbn [ChunkQueue.chunk_logic_loop]. st_unfold. cbn beta.
  rewrite Hq. unfold ChunkQueue.get_batch_div_chunk. rewrite Hb. cbn.
  unfold ChunkQueue.put. rewrite Hq. reflexivity.
Qed.

End WorkerExtras.

(** ** Sharding of any index array, and the cached length *)

Section ShardExtras.
Context `{Runtime}.

Lemma slice_between {A} (l : list A) (lo hi : Z) :
  0 <= lo <= hi ->
  slice l (Some lo) (Some hi) = take (Z.to_nat (hi - lo)) (drop (Z.to_nat lo) l).
Proof.
  intros Hlh. unfold slice, clip, len. cbn [from_option].
  destruct (Z.ltb_spec lo 0) as [?|_]; [lia|].
  destruct (Z.ltb_spec hi 0) as [?|_]; [lia|].
  destruct (Z.le_gt_cases (Z.of_nat (length l)) lo) as [Hout|Hin].
  - rewrite !drop_ge by lia. rewrite !take_nil. reflexivity.
  - rewrite (Z.min_l lo) by lia.
    destruct (Z.le_gt_cases hi (Z.of_nat (length l))) as [Hhi|Hhi].
    + rewrite Z.min_l by lia. reflexivity.
    + rewrite Z.min_r by lia. rewrite !take_ge; [reflexivity|..];
        rewrite length_drop; lia.
Qed.

Lemma concat_blocks {A} (l : list A) (pw : Z) (k : nat) :
  0 <= pw ->
  concat ((fun r => take (Z.to_nat pw) (drop (Z.to_nat (r * pw)) l)) <$> seqZ 0 (Z.of_nat k))
  = take (Z.to_nat (Z.of_nat k * pw)) l.
Proof.
  intros Hpw. induction k as [|k IH].
  - cbn. rewrite take_0. reflexivity.
  - rewrite seqZ_S, fmap_app, concat_app, IH. cbn [fmap list_fmap concat].
    rewrite app_nil_r, Z.add_0_l.
    rewrite take_take_drop. f_equal. lia.
Qed.

(** X6. Whatever the index array holds (for instance after a shuffle),
    with [1 <= S <= len(indices)] processes the slice of rank [r >= 0] is
    the block of [per_shard = ceil(len(indices) / S)] positions from
    [r * per_shard] on, cut at the end of the array; a rank from [S] on
    gets nothing, and the slices of the ranks [0, ..., S - 1], in rank
    order, make up the index array. *)
Theorem shards_partition_index_array (l : list Z) (S : Z) (selfs : Z -> Loader)
    (HS : 1 <= S <= len l)
    (Hselfs : forall r, indices (selfs r) = l /\
                        global_size (attrs (selfs r)) = S /\
                        global_rank (attrs (selfs r)) = r) :
  exists (per_shard : Z) (blocks : Z -> list Z),
    (per_shard - 1) * S < len l <= per_shard * S /\
    (forall r, 0 <= r ->
       _indices_for_process (selfs r) = Ok (blocks r) /\
       len (blocks r) = Z.max 0 (Z.min per_shard (len l - r * per_shard))) /\
    (forall r, S <= r -> blocks r = []) /\
    concat (blocks <$> seqZ 0 S) = l.
Proof.
  destruct (_num_steps_pos (len l) S ltac:(lia)) as (pw & Hpw & Hceil).
  assert (Hpw1 : 1 <= pw) by nia.
  set (blocks := fun r => take (Z.to_nat pw) (drop (Z.to_nat (r * pw)) l)).
  assert (Hlen : forall r, 0 <= r ->
            len (blocks r) = Z.max 0 (Z.min pw (len l - r * pw))).
  { intros r Hr. unfold blocks, len. rewrite length_take, length_drop.
    assert (0 <= r * pw) by nia. lia. }
  exists pw, blocks. split; [exact Hceil|]. split; [|split].
  - intros r Hr. split; [|apply Hlen, Hr].
    destruct (Hselfs r) as (Hidx & Hsize & Hrank).
    unfold _indices_for_process. rewrite Hidx, Hsize, Hrank.
    destruct (Z.ltb_spec (len l) S); [lia|].
    rewrite Hpw. cbn. rewrite slice_between by nia.
    unfold blocks. do 3 f_equal. lia.
  - intros r Hr. apply len_nil_inv. rewrite Hlen by lia. nia.
  - replace S with (Z.of_nat (Z.to_nat S)) by lia.
    unfold blocks. rewrite concat_blocks by lia.
    apply take_ge. unfold len in *. nia.
Qed.

Lemma buff_len_cached (self s1 : Loader) (N : Z) :
  _buff_len self = (s1, Ok N) -> __buff_len s1 = Some N /\ attrs s1 = attrs self.
Proof.
  unfold _buff_len. intros Hrun.
  apply bind_ok_inv in Hrun as (s0 & cached & Hget & Hrun).
  injection Hget as <- <-.
  destruct (__buff_len self) as [n|] eqn:Hc.
  - injection Hrun as <- <-. split; [exact Hc | reflexivity].
  - apply bind_ok_inv in Hrun as (s2 & q & Hbuff & Hrun).
    apply bind_ok_inv in Hrun as (s3 & [] & Hset & Hret).
    injection Hset as <-. injection Hret as <- <-.
    split; [reflexivity|]. cbn.
    unfold _buff in Hbuff. destruct (__buff self).
    + injection Hbuff as <- _. reflexivity.
    + destruct (_data_iter self (_epochs self)) as [[it n]| |]; try discriminate.
      injection Hbuff as <- _. reflexivity.
Qed.

Lemma len_ok_inv (self s1 : Loader) (n : Z) :
  __len__ self = (s1, Ok n) ->
  exists N batches,
    _buff_len self = (s1, Ok N) /\
    _num_steps N (batch_size (attrs self)) = Ok batches /\
    n = if drop_last (attrs self) && (0 <? N `mod` batch_size (attrs self))
        then batches - 1 else batches.
Proof.
  unfold __len__. intros Hrun.
  apply bind_ok_inv in Hrun as (s0 & self0 & Hget & Hrun).
  injection Hget as <- <-. cbn [id] in Hrun.
  apply bind_ok_inv in Hrun as (s2 & N & Hbuff & Hrun).
  apply bind_ok_inv in Hrun as (s3 & batches & Hsteps & Hrun).
  unfold lift in Hsteps. injection Hsteps as <- Hsteps.
  exists N, batches.
  destruct (drop_last (attrs self) && (0 <? N `mod` batch_size (attrs self)));
    injection Hrun as <- <-; auto.
Qed.

(** X7. After a call of [__len__] that returned [n], the length of the
    iterator is cached in [__buff_len]: calling [__len__] again returns
    [n] and leaves the loader as it is. *)
Theorem len_is_cached (self s1 : Loader) (n : Z)
    (Hlen : __len__ self = (s1, Ok n)) :
  __len__ s1 = (s1, Ok n) /\
  exists N, __buff_len s1 = Some N /\ _buff_len s1 = (s1, Ok N).
Proof.
  destruct (len_ok_inv _ _ _ Hlen) as (N & batches & Hbuff & Hsteps & ->).
  destruct (buff_len_cached _ _ _ Hbuff) as [Hcache Hattrs].
  assert (Hagain : _buff_len s1 = (s1, Ok N)).
  { unfold _buff_len. st_unfold. rewrite Hcache. reflexivity. }
  split; [|exists N; split; assumption].
  unfold __len__. st_unfold. cbn [id]. rewrite Hagain, Hattrs, Hsteps.
  destruct (drop_last (attrs self) && (0 <? N `mod` batch_size (attrs self)));
    reflexivity.
Qed.

(** X8. On a loader without queue, cached length and workers that has
    fewer partition indices than processes, [_indices_for_process] raises
    [IndexError], and so do [__len__], which leaves the loader as it is,
    and [__iter__], which by then has reset the batch iterator and the
    row counter. *)
Theorem more_processes_than_partitions (self : Loader)
    (Hbuff : __buff self = None)
    (Hcache : __buff_len self = None)
    (Hworkers : _workers self = None)
    (Hsize : len (indices self) < global_size (attrs self)) :
  _indices_for_process self = Raise IndexError /\
  __len__ self = (self, Raise IndexError) /\
  __iter__ self
  = (set_num_rows_processed 0 (set_batch_itr None self), Raise IndexError).
Proof.
  assert (Hidx : _indices_for_process self = Raise IndexError).
  { unfold _indices_for_process. destruct (Z.ltb_spec (len (indices self))
                                             (global_size (attrs self))); [reflexivity | lia]. }
  split; [exact Hidx|]. split.
  - unfold __len__, _buff_len, _buff, _data_iter. st_unfold. cbn [id].
    rewrite Hcache, Hbuff, Hidx. reflexivity.
  - unfold __iter__, stop, _buff, _data_iter. st_unfold.
    rewrite Hworkers. cbn. rewrite Hbuff. unfold _indices_for_process. cbn.
    destruct (Z.ltb_spec (len (indices self)) (global_size (attrs self))); [reflexivity | lia].
Qed.

End ShardExtras.

(** ** What the constructor records *)

Section ConstructionExtras.
Context `{Runtime}.

Lemma scan_columns_dtype_map (columns : Schema) :
  forall dtype_reverse_map sparse_names sparse_max sparse_as_dense drm sn sm sd,
    scan_columns columns dtype_reverse_map sparse_names sparse_max sparse_as_dense
    = Ok (drm, sn, sm, sd) ->
    forall d,
      default [] (drm !! d)
      = default [] (dtype_reverse_map !! d) ++ columns_of_dtype columns d /\
      (is_Some (drm !! d)
       <-> is_Some (dtype_reverse_map !! d) \/ columns_of_dtype columns d <> []).
Proof.
  induction columns as [|[c0 spec0] columns IH];
    intros drm0 sn0 sm0 sd0 drm sn sm sd Hscan d.
  - cbn in Hscan. injection Hscan as <- _ _ _. unfold columns_of_dtype. cbn.
    rewrite app_nil_r. split; [reflexivity|]. split; [auto|]. intros [?|?]; [assumption|congruence].
  - cbn [scan_columns] in Hscan.
    set (drm1 := <[dtype spec0 := default [] (drm0 !! dtype spec0) ++ [c0]]> drm0) in *.
    assert (Hrest : exists sn1 sm1 sd1,
              scan_columns columns drm1 sn1 sm1 sd1 = Ok (drm, sn, sm, sd)).
    { destruct (is_list spec0); [|eauto].
      destruct (is_ragged spec0); cbn [negb] in Hscan; [eauto|].
      destruct (value_count spec0); [eauto | discriminate]. }
    destruct Hrest as (sn1 & sm1 & sd1 & Hrest).
    destruct (IH _ _ _ _ _ _ _ _ Hrest d) as [Hval Hsome].
    unfold columns_of_dtype in *. rewrite filter_cons. cbn [snd].
    rewrite Hval, Hsome. unfold drm1.
    destruct (decide (dtype spec0 = d)) as [->|Hne].
    + rewrite lookup_insert_eq. cbn. rewrite <- app_assoc. split; [reflexivity|].
      split; [intros _; right; discriminate | intros _; left; eauto].
    + rewrite lookup_insert_ne by exact Hne. split; [reflexivity|]. reflexivity.
Qed.

(** X9. The [dtype_reverse_map] of a constructed loader maps every dtype
    that occurs in the schema to the names of the columns of that dtype,
    in schema order, and has no entry for any other dtype. *)
Theorem init_groups_columns_by_dtype (dataset : Dataset) (batch_size : Z)
    (shuffle : bool) (seed_fn : option (RandomState -> Z)) (parts_per_chunk : Z)
    (global_size global_rank : option Z) (drop_last use_nnz : bool)
    (rng : RandomState) (L : Loader)
    (Hinit : __init__ dataset batch_size shuffle seed_fn parts_per_chunk
               global_size global_rank drop_last use_nnz rng = Ok L) :
  forall d : string,
    (columns_of_dtype (schema dataset) d = []
     -> dtype_reverse_map (attrs L) !! d = None) /\
    (columns_of_dtype (schema dataset) d <> []
     -> dtype_reverse_map (attrs L) !! d = Some (columns_of_dtype (schema dataset) d)).
Proof.
  intros d. unfold __init__ in Hinit.
  destruct (scan_columns (schema dataset) ∅ [] ∅ ∅) as [[[[drm sn] sm] sd]| |] eqn:Hscan;
    try discriminate.
  cbn in Hinit. case_bool_decide; [discriminate|]. injection Hinit as <-. cbn.
  destruct (scan_columns_dtype_map _ _ _ _ _ _ _ _ _ Hscan d) as [Hval Hsome].
  rewrite lookup_empty in Hval, Hsome. cbn in Hval. split.
  - intros Hnil. rewrite Hnil in Hsome. apply eq_None_not_Some. intros Hs.
    apply Hsome in Hs as [[? ?]|?]; congruence.
  - intros Hne. destruct (drm !! d) as [names|] eqn:Hd.
    + cbn in Hval. congruence.
    + exfalso. assert (is_Some (@None (list string))) as [? ?]; [|discriminate].
      apply Hsome. right. exact Hne.
Qed.

(** X10. A loader constructed without [global_size] and [global_rank]
    (or with [0] or [1], and [0], for them) holds the indices of all
    partitions in storage order, and [_indices_for_process] returns them
    all; on a dataset without partitions it raises [IndexError]. *)
Theorem init_single_process_reads_all (dataset : Dataset) (batch_size : Z)
    (shuffle : bool) (seed_fn : option (RandomState -> Z)) (parts_per_chunk : Z)
    (global_size global_rank : option Z) (drop_last use_nnz : bool)
    (rng : RandomState) (L : Loader)
    (Hinit : __init__ dataset batch_size shuffle seed_fn parts_per_chunk
               global_size global_rank drop_last use_nnz rng = Ok L)
    (Hsize : global_size = None \/ global_size = Some 0 \/ global_size = Some 1)
    (Hrank : global_rank = None \/ global_rank = Some 0) :
  indices L = arange (npartitions dataset) /\
  (partitions dataset = [] -> _indices_for_process L = Raise IndexError) /\
  (partitions dataset <> [] ->
   _indices_for_process L = Ok (arange (npartitions dataset))).
Proof.
  unfold __init__ in Hinit.
  destruct (scan_columns (schema dataset) ∅ [] ∅ ∅) as [[[[drm sn] sm] sd]| |];
    try discriminate.
  cbn in Hinit. case_bool_decide; [discriminate|]. injection Hinit as <-.
  assert (Hs : or_default global_size 1 = 1)
    by (destruct Hsize as [->|[->| ->]]; reflexivity).
  assert (Hr : or_default global_rank 0 = 0)
    by (destruct Hrank as [->| ->]; reflexivity).
  split; [reflexivity|].
  unfold _indices_for_process. cbn. rewrite Hs, Hr.
  assert (Hlen : len (arange (npartitions dataset)) = npartitions dataset).
  { unfold len, arange, npartitions, len. rewrite length_seqZ. lia. }
  rewrite Hlen. unfold npartitions. split.
  - intros ->. reflexivity.
  - intros Hne.
    assert (1 <= len (partitions dataset)).
    { unfold len. destruct (partitions dataset); [congruence | cbn; lia]. }
    destruct (Z.ltb_spec (len (partitions dataset)) 1); [lia|].
    unfold _num_steps. cbn.
    rewrite Z.div_1_r, Z.opp_involutive, Z.mul_0_l, Z.add_0_l.
    fold (arange (len (partitions dataset))).
    rewrite slice_seqZ by lia. rewrite Z.min_l, Z.min_id by lia.
    rewrite Z.sub_0_r. reflexivity.
Qed.

(** What the loop over the columns records about dense list columns and
    about the limits of fixed-length ones. *)
Lemma scan_columns_sparse (columns : Schema) :
  forall dtype_reverse_map sparse_names sparse_max sparse_as_dense drm sn sm sd,
    scan_columns columns dtype_reverse_map sparse_names sparse_max sparse_as_dense
    = Ok (drm, sn, sm, sd) ->
    NoDup columns.*1 ->
    (forall c spec, (c, spec) ∈ columns ->
       (has_fixed_length spec ->
        exists vc, value_count spec = Some vc /\ sm !! c = Some (ValueCount.max vc)) /\
       (~ has_fixed_length spec -> sm !! c = sparse_max !! c) /\
       (c ∈ sd <-> (is_list spec = true /\ is_ragged spec = false) \/ c ∈ sparse_as_dense) /\
       (is_list spec = true -> is_ragged spec = false -> is_Some (value_count spec))) /\
    (forall c, c ∉ columns.*1 ->
       sm !! c = sparse_max !! c /\ (c ∈ sd <-> c ∈ sparse_as_dense)).
Proof.
  induction columns as [|[c0 spec0] columns IH];
    intros drm0 sn0 sm0 sd0 drm sn sm sd Hscan Hnd.
  - cbn in Hscan. injection Hscan as <- <- <- <-.
    split; [intros c spec Hin; inversion Hin | intros c _; split; reflexivity].
  - cbn in Hnd. apply NoDup_cons in Hnd as [Hnotin Hnd].
    cbn [scan_columns] in Hscan.
    set (drm1 := <[dtype spec0 := default [] (drm0 !! dtype spec0) ++ [c0]]> drm0) in *.
    set (sm1 := match value_count spec0 with
                | Some vc =>
                    if ValueCount.min vc =? ValueCount.max vc
                    then <[c0 := ValueCount.max vc]> sm0 else sm0
                | None => sm0
                end) in *.
    set (step_sm := if is_list spec0 then sm1 else sm0).
    set (step_sd := if is_list spec0 && negb (is_ragged spec0)
                    then {[c0]} ∪ sd0 else sd0).
    assert (Hrest : exists sn1,
              scan_columns columns drm1 sn1 step_sm step_sd = Ok (drm, sn, sm, sd) /\
              (is_list spec0 = true -> is_ragged spec0 = false ->
               is_Some (value_count spec0))).
    { unfold step_sm, step_sd. destruct (is_list spec0); cbn [andb].
      - destruct (is_ragged spec0); cbn [negb] in *.
        + eexists. split; [exact Hscan | discriminate].
        + destruct (value_count spec0); [|discriminate].
          eexists. split; [exact Hscan | eauto].
      - eexists. split; [exact Hscan | discriminate]. }
    destruct Hrest as (sn1 & Hrest & Hvc).
    destruct (IH _ _ _ _ _ _ _ _ Hrest Hnd) as [Hin Hout].
    assert (Hsm_other : forall c, c <> c0 -> step_sm !! c = sm0 !! c).
    { intros c Hc. unfold step_sm, sm1. destruct (is_list spec0); [|reflexivity].
      destruct (value_count spec0) as [vc|]; [|reflexivity].
      destruct (ValueCount.min vc =? ValueCount.max vc); [|reflexivity].
      apply lookup_insert_ne. congruence. }
    assert (Hsd_other : forall c, c <> c0 -> c ∈ step_sd <-> c ∈ sd0).
    { intros c Hc. unfold step_sd.
      destruct (is_list spec0 && negb (is_ragged spec0)); [|reflexivity].
      rewrite elem_of_union, elem_of_singleton. tauto. }
    split.
    + intros c spec Hcin. apply elem_of_cons in Hcin as [Heq|Hcin].
      * injection Heq as -> ->. destruct (Hout c0 Hnotin) as [Hsm Hsd].
        rewrite Hsm, Hsd. unfold step_sm, step_sd, sm1, has_fixed_length.
        split; [|split; [|split]].
        -- intros (Hl & vc & Hv & Heq). rewrite Hl, Hv.
           exists vc. split; [reflexivity|].
           rewrite (proj2 (Z.eqb_eq _ _) Heq). apply lookup_insert_eq.
        -- intros Hnfix. destruct (is_list spec0) eqn:Hl; [|reflexivity].
           destruct (value_count spec0) as [vc|] eqn:Hv; [|reflexivity].
           destruct (Z.eqb_spec (ValueCount.min vc) (ValueCount.max vc)) as [Heq|_];
             [|reflexivity].
           exfalso. apply Hnfix. split; [reflexivity|]. exists vc. split; [reflexivity|exact Heq].
        -- destruct (is_list spec0), (is_ragged spec0); cbn;
             rewrite ?elem_of_union, ?elem_of_singleton; split; intros; try tauto;
             repeat match goal with
                    | H : _ \/ _ |- _ => destruct H
                    | H : _ /\ _ |- _ => destruct H
                    end; try discriminate; auto.
        -- exact Hvc.
      * assert (Hne : c <> c0).
        { intros ->. apply Hnotin. apply list_elem_of_fmap.
          exists (c0, spec). split; [reflexivity | exact Hcin]. }
        destruct (Hin c spec Hcin) as (Hfix & Hnfix & Hsd & Hdense).
        split; [exact Hfix|]. split; [intros Hn; rewrite (Hnfix Hn); apply Hsm_other, Hne|].
        split; [rewrite Hsd, (Hsd_other c Hne); reflexivity | exact Hdense].
    + intros c Hc. cbn in Hc. apply not_elem_of_cons in Hc as [Hc0 Hc].
      destruct (Hout c Hc) as [Hsm Hsd]. split.
      * rewrite Hsm. apply Hsm_other, Hc0.
      * rewrite Hsd. apply Hsd_other, Hc0.
Qed.

(** X11. What the constructor records about list columns, for a schema
    with distinct column names: [sparse_max] holds [value_count.max] for
    exactly the list columns of fixed length; [sparse_as_dense] holds
    exactly the list columns that are not ragged, each of which has a
    value count; [sparse_names] lists the list columns in schema order;
    a name outside the schema occurs in none of the three. *)
Theorem init_sparse_bookkeeping (dataset : Dataset) (batch_size : Z)
    (shuffle : bool) (seed_fn : option (RandomState -> Z)) (parts_per_chunk : Z)
    (global_size global_rank : option Z) (drop_last use_nnz : bool)
    (rng : RandomState) (L : Loader)
    (Hinit : __init__ dataset batch_size shuffle seed_fn parts_per_chunk
               global_size global_rank drop_last use_nnz rng = Ok L)
    (Hnodup : NoDup (schema dataset).*1) :
  (forall c spec, (c, spec) ∈ schema dataset ->
     (has_fixed_length spec ->
      exists vc, value_count spec = Some vc /\
                 sparse_max (attrs L) !! c = Some (ValueCount.max vc)) /\
     (~ has_fixed_length spec -> sparse_max (attrs L) !! c = None) /\
     (c ∈ sparse_as_dense (attrs L) <-> is_list spec = true /\ is_ragged spec = false) /\
     (c ∈ sparse_as_dense (attrs L) -> is_Some (value_count spec))) /\
  (forall c, c ∉ (schema dataset).*1 ->
     sparse_max (attrs L) !! c = None /\ (c ∉ sparse_as_dense (attrs L)) /\
     c ∉ sparse_names (attrs L)) /\
  sparse_names (attrs L) = list_columns (schema dataset).
Proof.
  unfold __init__ in Hinit.
  destruct (scan_columns (schema dataset) ∅ [] ∅ ∅) as [[[[drm sn] sm] sd]| |] eqn:Hscan;
    try discriminate.
  cbn in Hinit. case_bool_decide; [discriminate|]. injection Hinit as <-. cbn.
  destruct (scan_columns_sparse _ _ _ _ _ _ _ _ _ Hscan Hnodup) as [Hin Hout].
  destruct (scan_columns_ok _ _ _ _ _ _ _ _ _ Hscan Hnodup) as (Hsn & _ & _).
  cbn in Hsn. split; [|split; [|exact Hsn]].
  - intros c spec Hcin. destruct (Hin c spec Hcin) as (Hfix & Hnfix & Hsd & Hdense).
    split; [exact Hfix|]. split; [intros Hn; rewrite (Hnfix Hn); apply lookup_empty|].
    assert (Hsd' : c ∈ sd <-> is_list spec = true /\ is_ragged spec = false).
    { rewrite Hsd. split; [intros [?|Hemp]; [assumption | apply elem_of_empty in Hemp as []] | auto]. }
    split; [exact Hsd'|]. intros Hc. apply Hsd' in Hc as [Hl Hr]. apply Hdense; assumption.
  - intros c Hc. destruct (Hout c Hc) as [Hsm Hsd].
    split; [rewrite Hsm; apply lookup_empty|]. split.
    + rewrite Hsd. apply not_elem_of_empty.
    + rewrite Hsn. intros Hl. apply elem_of_list_columns in Hl as (spec & Hl & _).
      apply Hc. apply list_elem_of_fmap. exists (c, spec). split; [reflexivity | exact Hl].
Qed.

End ConstructionExtras.

(** ** What [_handle_tensors] returns *)

Section HandleExtras.
Context `{Runtime}.

(** The second loop of [_handle_tensors] succeeds exactly when every
    selected column is present and passes [_to_sparse_tensor]; it keeps
    the set of columns. *)
Lemma materialize_sparse_ok_iff (self : LoaderBase) (names : list string) :
  NoDup names ->
  forall X : gmap string Entry,
    (is_ok (materialize_sparse self names X) = true
     <-> forall c, c ∈ names -> is_Some (sparse_max self !! c) ->
           exists v, X !! c = Some v /\ is_ok (_to_sparse_tensor self v c) = true) /\
    (forall X1, materialize_sparse self names X = Ok X1 -> dom X1 = dom X).
Proof.
  induction names as [|name names IH]; intros Hnd X.
  - cbn. split; [split; [intros _ c Hc; inversion Hc | reflexivity]|].
    intros X1 HX1. injection HX1 as <-. reflexivity.
  - apply NoDup_cons in Hnd as [Hnotin Hnd].
    cbn [materialize_sparse]. case_bool_decide as Hmax.
    + destruct (X !! name) as [v|] eqn:Hv.
      * destruct (_to_sparse_tensor self v name) as [t| |] eqn:Ht; cbn.
        -- destruct (IH Hnd (<[name := Lone t]> X)) as [Hiff Hdom].
           split.
           ++ rewrite Hiff. split.
              ** intros Hall c Hc Hs. apply elem_of_cons in Hc as [->|Hc].
                 --- exists v. rewrite Ht. auto.
                 --- destruct (Hall c Hc Hs) as (v' & Hv' & Hok).
                     rewrite lookup_insert_ne in Hv' by (intros ->; contradiction).
                     eauto.
              ** intros Hall c Hc Hs.
                 destruct (Hall c ltac:(right; exact Hc) Hs) as (v' & Hv' & Hok).
                 exists v'. rewrite lookup_insert_ne by (intros ->; contradiction). auto.
           ++ intros X1 HX1. rewrite (Hdom X1 HX1), dom_insert_L.
              apply subseteq_union_1_L, singleton_subseteq_l, elem_of_dom. eauto.
        -- split; [|discriminate]. split; [discriminate|].
           intros Hall. destruct (Hall name ltac:(left) Hmax) as (v' & Hv' & Hok).
           rewrite Hv in Hv'. injection Hv' as <-. rewrite Ht in Hok. discriminate.
        -- split; [|discriminate]. split; [discriminate|].
           intros Hall. destruct (Hall name ltac:(left) Hmax) as (v' & Hv' & Hok).
           rewrite Hv in Hv'. injection Hv' as <-. rewrite Ht in Hok. discriminate.
      * cbn. split; [|discriminate]. split; [discriminate|].
        intros Hall. destruct (Hall name ltac:(left) Hmax) as (v' & Hv' & _).
        rewrite Hv in Hv'. discriminate.
    + destruct (IH Hnd X) as [Hiff Hdom]. split; [|exact Hdom].
      rewrite Hiff. split.
      * intros Hall c Hc Hs. apply elem_of_cons in Hc as [->|Hc];
          [contradiction | apply Hall; assumption].
      * intros Hall c Hc Hs. apply Hall; [right; exact Hc | exact Hs].
Qed.

(** When [_handle_tensors] returns, for distinct [sparse_names]. *)
Lemma handle_tensors_ok_eq (self : LoaderBase) (tensors : list Group)
    (tensor_names : list (list string))
    (Hnodup : NoDup (sparse_names self)) :
  let X0 := assemble_columns tensors tensor_names in
  is_ok (_handle_tensors self tensors tensor_names) = true
  <-> (forall c, c ∈ sparse_names self -> is_Some (sparse_max self !! c) ->
         exists v, X0 !! c = Some v /\ is_ok (_to_sparse_tensor self v c) = true) /\
      (forall label, head (label_names self) = Some label -> label ∈ dom X0).
Proof.
  cbv zeta. unfold _handle_tensors.
  destruct (materialize_sparse_ok_iff self (sparse_names self) Hnodup
              (assemble_columns tensors tensor_names)) as [Hiff Hdom].
  rewrite <- Hiff.
  destruct (materialize_sparse self (sparse_names self)
              (assemble_columns tensors tensor_names)) as [X1| |]; cbn.
  - specialize (Hdom X1 eq_refl).
    destruct (label_names self) as [|label rest]; cbn.
    + split; [intros _; split; [reflexivity | discriminate] | reflexivity].
    + destruct (X1 !! label) as [entry|] eqn:Hl; cbn.
      * split; [|reflexivity]. intros _. split; [reflexivity|].
        intros label' Heq. injection Heq as <-. rewrite <- Hdom. apply elem_of_dom. eauto.
      * split; [discriminate|]. intros [_ Hlabel].
        specialize (Hlabel label eq_refl). rewrite <- Hdom in Hlabel.
        apply elem_of_dom in Hlabel as [? Hsome]. congruence.
  - split; [discriminate | intros [? _]; discriminate].
  - split; [discriminate | intros [? _]; discriminate].
Qed.

(** X12. With distinct [sparse_names], [_handle_tensors] returns exactly
    when every column of [sparse_names] that has an entry in [sparse_max]
    is among the assembled columns and passes [_to_sparse_tensor], and
    the first label name, if there is any, is among the assembled
    columns. *)
Theorem handle_tensors_ok_iff (self : LoaderBase) (tensors : list Group)
    (tensor_names : list (list string))
    (Hnodup : NoDup (sparse_names self)) :
  let X0 := assemble_columns tensors tensor_names in
  is_ok (_handle_tensors self tensors tensor_names) = true
  <-> (forall c, c ∈ sparse_names self -> is_Some (sparse_max self !! c) ->
         exists v, X0 !! c = Some v /\ is_ok (_to_sparse_tensor self v c) = true) /\
      (forall label, head (label_names self) = Some label -> label ∈ dom X0).
Proof. exact (handle_tensors_ok_eq self tensors tensor_names Hnodup). Qed.

(** X13. What [_handle_tensors] returns.  Without label names the labels
    are [None] and the features have all the assembled columns.
    Otherwise only the first label name is taken out of the features (the
    other label columns stay among them), and the labels are the
    assembled entry of that name, unless it was materialised as a sparse
    tensor. *)
Theorem handle_tensors_splits_first_label (self : LoaderBase) (tensors : list Group)
    (tensor_names : list (list string)) (X : gmap string Entry)
    (labels : option Entry)
    (Hnodup : NoDup (sparse_names self))
    (Hrun : _handle_tensors self tensors tensor_names = Ok (X, labels)) :
  let X0 := assemble_columns tensors tensor_names in
  (label_names self = [] -> labels = None /\ dom X = dom X0) /\
  (forall label rest, label_names self = label :: rest ->
     is_Some labels /\
     label ∈ dom X0 /\
     dom X = dom X0 ∖ {[label]} /\
     (forall other, other ∈ rest -> other <> label -> other ∈ dom X0 -> other ∈ dom X) /\
     (~ (label ∈ sparse_names self /\ is_Some (sparse_max self !! label)) ->
      labels = X0 !! label)).
Proof.
  cbv zeta. unfold _handle_tensors in Hrun.
  destruct (materialize_sparse self (sparse_names self)
              (assemble_columns tensors tensor_names)) as [X1| |] eqn:Hmat;
    try discriminate.
  cbn in Hrun.
  destruct (materialize_sparse_ok_iff self (sparse_names self) Hnodup
              (assemble_columns tensors tensor_names)) as [_ Hdom].
  specialize (Hdom X1 Hmat).
  destruct (label_names self) as [|label rest] eqn:Hlabels.
  - injection Hrun as <- <-. split; [auto|]. discriminate.
  - destruct (X1 !! label) as [entry|] eqn:Hl; [|discriminate].
    injection Hrun as <- <-. split; [discriminate|].
    intros label' rest' Heq. injection Heq as <- <-.
    assert (Hin : label ∈ dom (assemble_columns tensors tensor_names)).
    { rewrite <- Hdom. apply elem_of_dom. eauto. }
    assert (HdomX : dom (delete label X1)
                    = dom (assemble_columns tensors tensor_names) ∖ {[label]}).
    { rewrite dom_delete_L, Hdom. reflexivity. }
    split; [eauto|]. split; [exact Hin|]. split; [exact HdomX|]. split.
    + intros other _ Hne Hother. rewrite HdomX. apply elem_of_difference.
      split; [exact Hother|]. rewrite elem_of_singleton. exact Hne.
    + intros Hnot.
      destruct (materialize_sparse_spec self (sparse_names self) Hnodup _ _ Hmat label)
        as [_ Hkeep].
      rewrite <- (Hkeep Hnot). symmetry. exact Hl.
Qed.

End HandleExtras.

(** ** The partition stream of the queue *)

Section IterExtras.
Context `{Runtime}.

(** The worker changes nothing of its queue but [q_out]. *)
Lemma load_chunks_state (dataloader : LoaderBase) (q : ChunkQueue.t) :
  exists out, (ChunkQueue.load_chunks dataloader q).1 = ChunkQueue.set_q_out out q.
Proof.
  unfold ChunkQueue.load_chunks.
  destruct (chunk_logic_appends dataloader (ChunkQueue.itr q) q) as (packets & r & ->).
  destruct r as [[]|e|]; try (eexists; reflexivity).
  set (q1 := ChunkQueue.set_q_out _ q).
  destruct (put_appends (ChunkQueue.Failure e) q1) as (r & ->).
  eexists. unfold q1. cbn. reflexivity.
Qed.

Section Reads.
Context (stream : list (result (list Row))) (n : Z).

Lemma reads_buff : preserves (reads stream n) _buff.
Proof.
  intros s (q & Hq & Hs). unfold _buff. rewrite Hq. cbn. exists q. auto.
Qed.

Lemma reads_buff_ok (s s' : Loader) (q : ChunkQueue.t) :
  reads stream n s -> _buff s = (s', Ok q) ->
  ChunkQueue.itr q = stream /\ ChunkQueue.itr_len q = n.
Proof.
  intros (q0 & Hq & Hs). unfold _buff. rewrite Hq. intros Heq.
  injection Heq as <- <-. exact Hs.
Qed.

Lemma reads_on_buff {A} (m : st ChunkQueue.t A) :
  (forall q, ChunkQueue.itr (m q).1 = ChunkQueue.itr q /\
             ChunkQueue.itr_len (m q).1 = ChunkQueue.itr_len q) ->
  preserves (reads stream n) (on_buff m).
Proof.
  intros Hm s (q & Hq & Hi & Hn). unfold on_buff, _buff. st_unfold. rewrite Hq.
  specialize (Hm q). destruct (m q) as [q' r]. cbn in Hm. destruct Hm as [Hi' Hn'].
  assert (Hreads : reads stream n (set_buff (Some q') s)).
  { exists q'. cbn. split; [reflexivity|]. split; congruence. }
  destruct r; exact Hreads.
Qed.

Lemma reads_stop : preserves (reads stream n) stop.
Proof.
  unfold stop. apply preserves_bind; [apply preserves_gets|]. intros workers.
  apply preserves_bind; [|intros; apply preserves_modify; intros s Hs; exact Hs].
  destruct workers as [ts|]; [|apply preserves_ret].
  apply preserves_bind; [apply reads_buff|]. intros q.
  apply preserves_bind.
  { destruct (negb (ChunkQueue.stopped q)); [|apply preserves_ret].
    apply reads_on_buff. intros q0. split; reflexivity. }
  intros _. apply preserves_bind; [apply preserves_modify; intros s Hs; exact Hs|].
  intros _. apply reads_on_buff. intros q0. split; reflexivity.
Qed.

Lemma reads_iter_tail (q : ChunkQueue.t) :
  preserves (reads stream n)
    (_ ← (if ChunkQueue.stopped q then on_buff ChunkQueue.start else mret tt);
     self ← gets id;
     _ ← (if shuffle (attrs self) then _shuffle_indices else mret tt);
     _ ← modify (set_workers (Some []));
     _ ← on_buff (ChunkQueue.load_chunks (attrs self));
     modify (set_workers (Some [ {| is_alive := false |} ]))).
Proof.
  apply preserves_bind.
  { destruct (ChunkQueue.stopped q); [|apply preserves_ret].
    apply reads_on_buff. intros q0. split; reflexivity. }
  intros _. apply preserves_bind; [apply preserves_gets|]. intros self0.
  apply preserves_bind.
  { destruct (shuffle (attrs self0)); [|apply preserves_ret].
    unfold _shuffle_indices. apply preserves_modify. intros s Hs.
    destruct (random_shuffle _ _). exact Hs. }
  intros _. apply preserves_bind; [apply preserves_modify; intros s Hs; exact Hs|].
  intros _. apply preserves_bind.
  { apply reads_on_buff. intros q0.
    destruct (load_chunks_state (attrs self0) q0) as (out & ->). split; reflexivity. }
  intros _. apply preserves_modify. intros s Hs. exact Hs.
Qed.

End Reads.

Section ShardsAs.
Context (self : Loader).

Lemma data_iter_ext (s : Loader) :
  attrs s = attrs self -> indices s = indices self -> _epochs s = _epochs self ->
  _data_iter s (_epochs s) = _data_iter self (_epochs self).
Proof.
  intros Ha Hi He. unfold _data_iter, _indices_for_process. rewrite Ha, Hi, He.
  reflexivity.
Qed.

Lemma shards_as_buff : preserves (shards_as self) _buff.
Proof.
  intros s (Ha & Hi & He & Hq). unfold _buff.
  destruct (__buff s) as [q|] eqn:Hb.
  - cbn. unfold shards_as. rewrite Hb. auto.
  - destruct (_data_iter s (_epochs s)) as [[it n]| |] eqn:Hd.
    + cbn. unfold shards_as. cbn.
      split; [exact Ha|]. split; [exact Hi|]. split; [exact He|].
      intros q0 Heq. injection Heq as <-. cbn.
      rewrite <- (data_iter_ext s Ha Hi He). exact Hd.
    + cbn. unfold shards_as. rewrite Hb. auto.
    + cbn. unfold shards_as. rewrite Hb. auto.
Qed.

Lemma shards_as_on_buff {A} (m : st ChunkQueue.t A) :
  (forall q, ChunkQueue.itr (m q).1 = ChunkQueue.itr q /\
             ChunkQueue.itr_len (m q).1 = ChunkQueue.itr_len q) ->
  preserves (shards_as self) (on_buff m).
Proof.
  intros Hm. unfold on_buff. intros s Hs.
  pose proof (shards_as_buff s Hs) as Hs1.
  unfold mbind at 1. unfold st_bind at 1.
  destruct (_buff s) as [s1 [q| |]] eqn:Hbuff; [|exact Hs1..].
  cbn in Hs1.
  assert (Hq : __buff s1 = Some q).
  { unfold _buff in Hbuff. destruct (__buff s) as [q0|] eqn:Hb.
    - injection Hbuff as <- <-. exact Hb.
    - destruct (_data_iter s (_epochs s)) as [[it n]| |]; try discriminate.
      injection Hbuff as <- <-. reflexivity. }
  specialize (Hm q). destruct (m q) as [q' r]. cbn in Hm. destruct Hm as [Hi' Hn'].
  destruct Hs1 as (Ha & Hi & He & Hread).
  assert (Hres : shards_as self (set_buff (Some q') s1)).
  { unfold shards_as. cbn. split; [exact Ha|]. split; [exact Hi|]. split; [exact He|].
    intros q0 Heq. cbn in Heq. injection Heq as <-.
    rewrite Hi', Hn'. apply Hread, Hq. }
  st_unfold. destruct r; exact Hres.
Qed.

Lemma shards_as_stop : preserves (shards_as self) stop.
Proof.
  unfold stop. apply preserves_bind; [apply preserves_gets|]. intros workers.
  apply preserves_bind; [|intros; apply preserves_modify; intros s Hs; exact Hs].
  destruct workers as [ts|]; [|apply preserves_ret].
  apply preserves_bind; [apply shards_as_buff|]. intros q.
  apply preserves_bind.
  { destruct (negb (ChunkQueue.stopped q)); [|apply preserves_ret].
    apply shards_as_on_buff. intros q0. split; reflexivity. }
  intros _. apply preserves_bind; [apply preserves_modify; intros s Hs; exact Hs|].
  intros _. apply shards_as_on_buff. intros q0. split; reflexivity.
Qed.

End ShardsAs.

Lemma shards_as_refl (self : Loader) : __buff self = None -> shards_as self self.
Proof.
  intros Hb. unfold shards_as. split; [reflexivity|]. split; [reflexivity|].
  split; [reflexivity|]. intros q Hq. congruence.
Qed.

Lemma buff_ok_inv (s s' : Loader) (q : ChunkQueue.t) :
  _buff s = (s', Ok q) -> __buff s' = Some q.
Proof.
  unfold _buff. destruct (__buff s) as [q0|] eqn:Hb.
  - intros Heq. injection Heq as <- <-. exact Hb.
  - destruct (_data_iter s (_epochs s)) as [[it n]| |]; try discriminate.
    intros Heq. injection Heq as <- <-. reflexivity.
Qed.

(** The queue that a call of [__iter__] leaves. *)
Lemma iter_stream_eq (self s' : Loader) :
  __iter__ self = (s', Ok tt) ->
  exists q', __buff s' = Some q' /\
    match __buff self with
    | Some q =>
        ChunkQueue.itr q' = ChunkQueue.itr q /\
        ChunkQueue.itr_len q' = ChunkQueue.itr_len q
    | None =>
        _data_iter self (_epochs self) = Ok (ChunkQueue.itr q', ChunkQueue.itr_len q')
    end.
Proof.
  intros Hiter. unfold __iter__ in Hiter.
  apply bind_ok_inv in Hiter as (s1 & [] & Hstop & Hiter).
  apply bind_ok_inv in Hiter as (s2 & [] & Hset & Hiter).
  injection Hset as <-.
  apply bind_ok_inv in Hiter as (s3 & q & Hbuff & Hiter).
  pose proof (buff_ok_inv _ _ _ Hbuff) as Hq.
  assert (Hreads : forall stream n,
            ChunkQueue.itr q = stream -> ChunkQueue.itr_len q = n ->
            exists q', __buff s' = Some q' /\
                       ChunkQueue.itr q' = stream /\ ChunkQueue.itr_len q' = n).
  { intros stream n Hi Hn.
    pose proof (reads_iter_tail stream n q s3) as Htail.
    rewrite Hiter in Htail. apply Htail. exists q. auto. }
  destruct (__buff self) as [q0|] eqn:Hb.
  - assert (H2 : reads (ChunkQueue.itr q0) (ChunkQueue.itr_len q0)
                   (set_num_rows_processed 0 s1)).
    { pose proof (reads_stop (ChunkQueue.itr q0) (ChunkQueue.itr_len q0) self) as Hs.
      rewrite Hstop in Hs. destruct Hs as (q1 & Hq1 & Hs); [exists q0; auto|].
      exists q1. auto. }
    destruct (reads_buff_ok _ _ _ _ _ H2 Hbuff) as [Hi Hn].
    destruct (Hreads _ _ Hi Hn) as (q' & Hq' & Hs). exists q'. auto.
  - assert (H2 : shards_as self (set_num_rows_processed 0 s1)).
    { pose proof (shards_as_stop self self (shards_as_refl self Hb)) as Hs.
      rewrite Hstop in Hs. exact Hs. }
    pose proof (shards_as_buff self _ H2) as H3. rewrite Hbuff in H3.
    destruct H3 as (_ & _ & _ & Hread). specialize (Hread q Hq).
    destruct (Hreads _ _ eq_refl eq_refl) as (q' & Hq' & Hi & Hn).
    exists q'. split; [exact Hq'|]. rewrite Hi, Hn. exact Hread.
Qed.


Lemma preserves_stop (P : Loader -> Prop)
    (Hbuff : forall s v, P s -> P (set_buff v s))
    (Hworkers : forall s v, P s -> P (set_workers v s))
    (Hitr : forall s v, P s -> P (set_batch_itr v s)) :
  preserves P stop.
Proof.
  unfold stop. apply preserves_bind; [apply preserves_gets|]. intros workers.
  apply preserves_bind; [|intros; apply preserves_modify; intros s Hs; apply Hitr, Hs].
  destruct workers as [ts|]; [|apply preserves_ret].
  apply preserves_bind; [apply preserves_buff, Hbuff|]. intros q.
  apply preserves_bind.
  { destruct (negb (ChunkQueue.stopped q)); [|apply preserves_ret].
    apply preserves_on_buff, Hbuff. }
  intros _. apply preserves_bind;
    [apply preserves_modify; intros s Hs; apply Hworkers, Hs|].
  intros _. apply preserves_on_buff, Hbuff.
Qed.

(** X15. [_set_epochs] drops the queue and the cached length and leaves
    neither workers nor a batch iterator; the queue that the next
    [__iter__] creates reads the partitions of the loader for the new
    number of epochs. *)
Theorem set_epochs_rebuilds_queue (self s1 s2 : Loader) (epochs : Z)
    (Hset : _set_epochs epochs self = (s1, Ok tt))
    (Hiter : __iter__ s1 = (s2, Ok tt)) :
  __buff s1 = None /\ __buff_len s1 = None /\ _epochs s1 = epochs /\
  _workers s1 = None /\ _batch_itr s1 = None /\
  exists q,
    __buff s2 = Some q /\
    _data_iter self epochs = Ok (ChunkQueue.itr q, ChunkQueue.itr_len q).
Proof.
  unfold _set_epochs in Hset.
  apply bind_ok_inv in Hset as (s0 & [] & Hstop & Hset).
  cbn in Hset. injection Hset as <-.
  destruct (stop_ok_inv _ _ Hstop) as [Hw Hb].
  pose proof (preserves_stop
                (fun s => attrs s = attrs self /\ indices s = indices self)
                (fun s v Hs => Hs) (fun s v Hs => Hs) (fun s v Hs => Hs)
                self (conj eq_refl eq_refl)) as Hkeep.
  rewrite Hstop in Hkeep. cbn in Hkeep. destruct Hkeep as [Ha Hi].
  split; [reflexivity|]. split; [reflexivity|]. split; [reflexivity|].
  split; [exact Hw|]. split; [exact Hb|].
  destruct (iter_stream_eq _ _ Hiter) as (q & Hq & Hread).
  cbn in Hread. exists q. split; [exact Hq|]. rewrite <- Hread.
  unfold _data_iter, _indices_for_process. cbn. rewrite Ha, Hi. reflexivity.
Qed.

End IterExtras.

(** ** The consumer *)



Section ConsumerExtras.
Context `{Runtime}.
Context (handle : list Row -> result (gmap string Entry * option Entry)).
Context (tensor_len : tensor -> Z).

(** As long as the rows seen so far do not fill a batch, the loop of
    [chunk_logic] enqueues nothing and carries them all as spill. *)
Lemma chunk_logic_loop_small (dataloader : LoaderBase)
    (groups : list (list (list Row))) :
  1 <= batch_size dataloader ->
  (forall chunk, shuffle_df chunk ≡ₚ chunk) ->
  forall (spill : option (list Row)) (q : ChunkQueue.t),
    ChunkQueue.stopped q = false ->
    len (default [] spill ++ concat (concat groups)) < batch_size dataloader ->
    exists spill' : option (list Row),
      ChunkQueue.chunk_logic_loop dataloader (Ok <$> groups) spill q
      = (q, Ok (ChunkQueue.Next spill')) /\
      default [] spill' = default [] spill ++ concat (concat groups).
Proof.
  intros Hb Hshuffle.
  induction groups as [|chunks groups IH]; intros spill q Hq Hsmall.
  - exists spill. cbn. rewrite app_nil_r. auto.
  - cbn [fmap list_fmap ChunkQueue.chunk_logic_loop]. st_unfold. cbn beta.
    unfold ChunkQueue.stopped in *. rewrite Hq.
    set (input := concat match spill with
                         | Some sp => if bool_decide (sp = []) then chunks else sp :: chunks
                         | None => chunks
                         end).
    assert (Hinput : input = default [] spill ++ concat chunks).
    { unfold input. destruct spill as [sp|]; [|reflexivity].
      case_bool_decide as Hsp; [subst sp|]; reflexivity. }
    rewrite Hinput. clear input Hinput.
    set (input := default [] spill ++ concat chunks) in *.
    cbn [concat] in Hsmall. rewrite concat_app, app_assoc in Hsmall.
    fold input in Hsmall.
    assert (Hlt : len input < batch_size dataloader).
    { rewrite len_app in Hsmall. pose proof (len_nonneg (concat (concat groups))). lia. }
    rewrite (get_batch_div_chunk_eq input _ Hb).
    rewrite Z.div_small by (pose proof (len_nonneg input); lia).
    rewrite Z.mul_0_l. change (Z.to_nat 0) with 0%nat. rewrite take_0, drop_0.
    assert (Hempty : (if ChunkQueue.shuffle q then shuffle_df [] else []) = @nil Row).
    { destruct (ChunkQueue.shuffle q); [|reflexivity].
      apply Permutation_nil_r, Hshuffle. }
    rewrite Hempty. cbn.
    destruct (IH (Some input) q Hq Hsmall) as (spill' & Hrun & Hspill).
    exists spill'. split; [exact Hrun|]. rewrite Hspill. cbn [default from_option id].
    cbn [concat]. rewrite concat_app, app_assoc. reflexivity.
Qed.

(** A worker whose input does not fill one batch returns without having
    enqueued anything when the remainder is dropped or empty. *)
Lemma load_chunks_nothing_batched (dataloader : LoaderBase) (q : ChunkQueue.t)
    (parts : list (list Row)) :
  1 <= batch_size dataloader ->
  (forall chunk, shuffle_df chunk ≡ₚ chunk) ->
  ChunkQueue.itr q = Ok <$> parts ->
  ChunkQueue.stopped q = false ->
  len (concat parts) < batch_size dataloader ->
  drop_last dataloader = true \/ concat parts = [] ->
  ChunkQueue.load_chunks dataloader q = (q, Ok tt).
Proof.
  intros Hb Hshuffle Hitr Hq Hsmall Hdrop.
  destruct (batch_from_ok (ChunkQueue.num_parts q) parts []) as (groups & Hgroups & Hcat).
  cbn [app] in Hcat.
  destruct (chunk_logic_loop_small dataloader groups Hb Hshuffle None q Hq)
    as (spill & Hloop & Hspill).
  { cbn [default from_option id app]. rewrite Hcat. exact Hsmall. }
  cbn [default from_option id app] in Hspill. rewrite Hcat in Hspill.
  unfold ChunkQueue.load_chunks, ChunkQueue.chunk_logic.
  unfold mbind at 1. unfold st_bind at 1. cbn [gets id].
  unfold mbind at 1. unfold st_bind at 1.
  rewrite Hitr. unfold ChunkQueue.batch. rewrite Hgroups, Hloop.
  destruct spill as [sp|]; [|reflexivity].
  cbn [default from_option id] in Hspill. subst sp.
  destruct Hdrop as [->| ->]; [reflexivity|].
  rewrite bool_decide_eq_true_2 by reflexivity. rewrite andb_false_r. reflexivity.
Qed.

(** [__iter__] on a loader without queue and workers whose worker
    enqueues nothing. *)
Lemma iter_fresh_nothing_batched (self : Loader) (parts : list (list Row)) (n : Z) :
  __buff self = None -> _workers self = None ->
  _data_iter self (_epochs self) = Ok (Ok <$> parts, n) ->
  1 <= batch_size (attrs self) ->
  (forall chunk, shuffle_df chunk ≡ₚ chunk) ->
  len (concat parts) < batch_size (attrs self) ->
  drop_last (attrs self) = true \/ concat parts = [] ->
  exists s1 q,
    __iter__ self = (s1, Ok tt) /\
    __buff s1 = Some q /\ ChunkQueue.q_out q = [] /\
    _batch_itr s1 = None /\ _workers s1 = Some [ {| is_alive := false |} ].
Proof.
  intros Hbuff Hw Hdata Hb Hshuffle Hsmall Hdrop.
  set (q := {| ChunkQueue.num_parts := parts_per_chunk (attrs self);
               ChunkQueue.shuffle := shuffle (attrs self);
               ChunkQueue._stop_event := false;
               ChunkQueue.q_out := [];
               ChunkQueue.itr := Ok <$> parts;
               ChunkQueue.itr_len := n |}).
  assert (Hload : ChunkQueue.load_chunks (attrs self) q = (q, Ok tt)).
  { apply (load_chunks_nothing_batched (attrs self) q parts); auto. }
  unfold __iter__, stop. st_unfold. rewrite Hw. cbn.
  unfold _buff at 1. cbn. rewrite Hbuff.
  change (_data_iter (set_num_rows_processed 0 (set_batch_itr None self)) (_epochs self))
    with (_data_iter self (_epochs self)).
  rewrite Hdata. fold q. cbn.
  assert (Hstep : exists s',
            (if shuffle (attrs self) then _shuffle_indices else λ s : Loader, (s, Ok ()))
              (set_buff (Some q) (set_num_rows_processed 0 (set_batch_itr None self)))
            = (s', Ok tt) /\ __buff s' = Some q /\ _batch_itr s' = None).
  { destruct (shuffle (attrs self)).
    - unfold _shuffle_indices, modify. cbn.
      destruct (random_shuffle _ _) as [shuffled rs]. eexists. split; [reflexivity|].
      split; reflexivity.
    - eexists. split; [reflexivity|]. split; reflexivity. }
  destruct Hstep as (s' & -> & Hq' & Hitr').
  unfold on_buff, _buff. st_unfold. cbn. rewrite Hq', Hload. cbn.
  eexists. exists q. split; [reflexivity|]. cbn. auto.
Qed.

(** X16. Take a loader without queue and workers whose partitions hold
    fewer rows than one batch, with [drop_last] set, or no row at all.
    Then [__iter__] returns, and a first [_get_next_batch] starts the
    worker, which enqueues nothing, and then waits on the empty queue for
    ever instead of raising [StopIteration]. *)
Theorem first_next_blocks_when_nothing_is_batched (self : Loader)
    (parts : list (list Row)) (n : Z)
    (Hbuff : __buff self = None)
    (Hw : _workers self = None)
    (Hdata : _data_iter self (_epochs self) = Ok (Ok <$> parts, n))
    (Hb : 1 <= batch_size (attrs self))
    (Hshuffle : forall chunk : list Row, shuffle_df chunk ≡ₚ chunk)
    (Hsmall : len (concat parts) < batch_size (attrs self))
    (Hdrop : drop_last (attrs self) = true \/ concat parts = []) :
  (__iter__ self).2 = Ok tt /\
  (_get_next_batch handle tensor_len self).2 = Blocked.
Proof.
  destruct (iter_fresh_nothing_batched self parts n Hbuff Hw Hdata Hb Hshuffle Hsmall Hdrop)
    as (s1 & q & Hiter & Hq & Hout & Hitr & Hws).
  split; [rewrite Hiter; reflexivity|].
  unfold _get_next_batch. st_unfold. rewrite Hw, Hiter. cbn. rewrite Hitr.
  unfold _fetch_chunk, on_buff, _buff. st_unfold. rewrite Hq.
  unfold ChunkQueue.get. rewrite Hout. reflexivity.
Qed.

Lemma fetch_chunk_batches (s : Loader) (q : ChunkQueue.t) (p : list (list Row))
    (packets : list ChunkQueue.packet) :
  __buff s = Some q -> ChunkQueue.q_out q = ChunkQueue.Batches p :: packets ->
  _fetch_chunk s
  = (set_batch_itr (Some p) (set_buff (Some (ChunkQueue.set_q_out packets q)) s), Ok tt).
Proof.
  intros Hq Hout. unfold _fetch_chunk, on_buff, _buff. st_unfold. rewrite Hq.
  unfold ChunkQueue.get. rewrite Hout. reflexivity.
Qed.

Lemma queued_batches_cons (q : ChunkQueue.t) (p : list (list Row))
    (packets : list ChunkQueue.packet) :
  ChunkQueue.q_out q = ChunkQueue.Batches p :: packets ->
  queued_batches q = p ++ queued_batches (ChunkQueue.set_q_out packets q).
Proof. unfold queued_batches. intros ->. reflexivity. Qed.

Lemma st_bind_congr {S A B : Type} (m m' : st S A) (k : A -> st S B) (s s' : S) :
  m s = m' s' -> (m ≫= k) s = (m' ≫= k) s'.
Proof. unfold mbind, st_bind. intros ->. reflexivity. Qed.

(** One call of [_get_next_batch] while batches are left. *)
Lemma get_next_batch_step (s : Loader) (rows : list Row) (rest : list (list Row))
    (b : gmap string Entry * option Entry) :
  draining s -> backlog s = rows :: rest -> handle rows = Ok b ->
  exists s',
    _get_next_batch handle tensor_len s = (s', Ok b) /\
    draining s' /\ backlog s' = rest /\ is_Some (_batch_itr s') /\
    num_rows_processed s' = num_rows_processed s + count_batch tensor_len b.
Proof.
  intros (Hws & Hworking & q & Hq & Hpackets & Hfirst) Hbacklog Hrows.
  destruct Hws as [ts Hts].
  assert (Hfetch : forall s0 p packets,
            __buff s0 = Some q -> _workers s0 = Some ts ->
            ChunkQueue.q_out q = ChunkQueue.Batches p :: packets ->
            p ++ queued_batches (ChunkQueue.set_q_out packets q) = rows :: rest ->
            p <> [] ->
            let s1 := set_batch_itr (Some p)
                        (set_buff (Some (ChunkQueue.set_q_out packets q)) s0) in
            exists s',
              (m ← next_batch handle; 
               _ ← modify (fun self =>
                    set_num_rows_processed
                      (num_rows_processed self + count_batch tensor_len m) self);
               mret m) s1 = (s', Ok b) /\
              draining s' /\ backlog s' = rest /\ is_Some (_batch_itr s') /\
              num_rows_processed s' = num_rows_processed s0 + count_batch tensor_len b).
  { intros s0 p packets Hq0 Hts0 Hout Hall Hp s1. subst s1.
    destruct p as [|rows' rest']; [congruence|].
    injection Hall as -> Hrest.
    unfold next_batch. st_unfold. cbn. rewrite Hrows.
    eexists. split; [reflexivity|]. cbn.
    split; [|split; [|split; [eauto|reflexivity]]].
    - unfold draining. cbn. split; [rewrite Hts0; eauto|]. split.
      { unfold _working in *. cbn. rewrite Hts0. rewrite Hts in Hworking. exact Hworking. }
      eexists. split; [reflexivity|]. cbn. split; [|discriminate].
      rewrite Hout in Hpackets. apply Forall_cons in Hpackets as [_ Hpackets].
      exact Hpackets.
    - unfold backlog. cbn. exact Hrest. }
  unfold _get_next_batch.
  unfold mbind at 1. unfold st_bind at 1. cbn [gets]. rewrite Hts.
  unfold mbind at 1. unfold st_bind at 1. cbn [mret st_ret].
  unfold mbind at 1. unfold st_bind at 1. cbn [gets].
  unfold backlog in Hbacklog. rewrite Hq in Hbacklog.
  destruct (_batch_itr s) as [current|] eqn:Hcurrent.
  - unfold mbind at 1. unfold st_bind at 1. cbn [mret st_ret].
    destruct current as [|rows' rest'].
    + (* the chunk at hand is used up: the next one is fetched *)
      cbn [default from_option id app] in Hbacklog.
      destruct (ChunkQueue.q_out q) as [|packet packets] eqn:Hout;
        [unfold queued_batches in Hbacklog; rewrite Hout in Hbacklog; discriminate|].
      pose proof Hpackets as Hall.
      apply Forall_cons in Hall as [(p & -> & Hp) _].
      rewrite (queued_batches_cons q p packets Hout) in Hbacklog.
      destruct (Hfetch s p packets Hq Hts eq_refl Hbacklog Hp)
        as (s' & Hrun & Hs').
      exists s'. split; [|exact Hs'].
      rewrite <- Hrun. clear Hrun Hs'. apply st_bind_congr.
      unfold next_batch at 1. rewrite Hcurrent.
      unfold mbind at 1. unfold st_bind at 1. cbn [gets]. rewrite Hworking.
      unfold mbind at 1. unfold st_bind at 1.
      unfold mbind at 1. unfold st_bind at 1.
      unfold _buff at 1. rewrite Hq. cbn [mret st_ret].
      unfold ChunkQueue.empty. rewrite Hout.
      rewrite bool_decide_eq_false_2 by discriminate.
      unfold mbind at 1. unfold st_bind at 1.
      rewrite (fetch_chunk_batches s q p packets Hq Hout). reflexivity.
    + cbn [default from_option id app] in Hbacklog. injection Hbacklog as -> Hrest.
      unfold mbind at 1. unfold st_bind at 1. cbn beta.
      unfold next_batch. rewrite Hcurrent, Hrows. st_unfold. cbn.
      eexists. split; [reflexivity|]. cbn.
      split; [|split; [|split; [eauto|reflexivity]]].
      * unfold draining. cbn. split; [rewrite Hts; eauto|]. split.
        { unfold _working in *. cbn. exact Hworking. }
        exists q. split; [exact Hq|]. split; [exact Hpackets|]. discriminate.
      * unfold backlog. cbn. rewrite Hq. exact Hrest.
  - cbn [default from_option id app] in Hbacklog.
    destruct (ChunkQueue.q_out q) as [|packet packets] eqn:Hout;
      [exfalso; apply (Hfirst eq_refl); reflexivity|].
    pose proof Hpackets as Hall.
    apply Forall_cons in Hall as [(p & -> & Hp) _].
    rewrite (queued_batches_cons q p packets Hout) in Hbacklog.
    destruct (Hfetch s p packets Hq Hts eq_refl Hbacklog Hp) as (s' & Hrun & Hs').
    exists s'. split; [|exact Hs'].
    rewrite <- Hrun. clear Hrun Hs'.
    unfold mbind at 1. unfold st_bind at 1.
    rewrite (fetch_chunk_batches s q p packets Hq Hout).
    apply st_bind_congr.
    destruct p as [|rows' rest']; [congruence|].
    unfold next_batch. cbn [_batch_itr set_batch_itr].
    destruct (handle rows') as [b'|e|]; try reflexivity.
    destruct e; reflexivity.
Qed.

(** The call of [_get_next_batch] once nothing is left. *)
Lemma get_next_batch_exhausted (s : Loader) :
  draining s -> backlog s = [] ->
  _get_next_batch handle tensor_len s
  = (set_batch_itr None (set_workers None s), Raise StopIteration).
Proof.
  intros (Hws & Hworking & q & Hq & Hpackets & Hfirst) Hbacklog.
  destruct Hws as [ts Hts].
  unfold backlog in Hbacklog. rewrite Hq in Hbacklog.
  apply app_eq_nil in Hbacklog as [Hcurrent Hqueued].
  assert (Hout : ChunkQueue.q_out q = []).
  { unfold queued_batches in Hqueued.
    destruct (ChunkQueue.q_out q) as [|packet packets]; [reflexivity|].
    apply Forall_cons in Hpackets as [(p & -> & Hp) _].
    cbn in Hqueued. apply app_eq_nil in Hqueued as [-> _]. congruence. }
  destruct (_batch_itr s) as [current|] eqn:Hitr;
    [|exfalso; apply (Hfirst eq_refl), Hout].
  cbn in Hcurrent. subst current.
  unfold _get_next_batch, next_batch, _buff, ChunkQueue.empty. st_unfold.
  rewrite Hts, Hitr, Hitr, Hworking, Hq, Hout.
  rewrite bool_decide_eq_true_2 by reflexivity. reflexivity.
Qed.

(** X17. Once the worker has finished, successive calls of
    [_get_next_batch] return the batches at hand and then the queued
    ones, in the order in which they were enqueued, as long as their
    conversion succeeds; each of them adds [count_batch] of the batch to
    [num_rows_processed].  The call after the last batch raises
    [StopIteration], with [_workers] and [_batch_itr] reset to [None]. *)
Theorem consumer_drains_backlog (s : Loader)
    (outs : list (gmap string Entry * option Entry))
    (Hdrain : draining s)
    (Hhandle : Forall2 (fun rows b => handle rows = Ok b) (backlog s) outs) :
  exists s',
    next_n handle tensor_len (length outs) s = (s', Ok outs) /\
    num_rows_processed s'
    = num_rows_processed s + sumZ (count_batch tensor_len <$> outs) /\
    _get_next_batch handle tensor_len s'
    = (set_batch_itr None (set_workers None s'), Raise StopIteration).
Proof.
  revert s Hdrain Hhandle.
  induction outs as [|b outs IH]; intros s Hdrain Hhandle.
  - apply Forall2_nil_inv_r in Hhandle.
    exists s. split; [reflexivity|]. split; [unfold sumZ; cbn; lia|].
    apply get_next_batch_exhausted; assumption.
  - apply Forall2_cons_inv_r in Hhandle as (rows & rest & Hrows & Hrest & Hbacklog).
    destruct (get_next_batch_step s rows rest b Hdrain Hbacklog Hrows)
      as (s1 & Hrun & Hdrain1 & Hbacklog1 & _ & Hcount1).
    rewrite <- Hbacklog1 in Hrest.
    destruct (IH s1 Hdrain1 Hrest) as (s' & Hruns & Hcount & Hend).
    exists s'. split; [|split; [|exact Hend]].
    + cbn [length next_n]. unfold mbind at 1. unfold st_bind at 1. rewrite Hrun.
      unfold mbind at 1. unfold st_bind at 1. rewrite Hruns. reflexivity.
    + rewrite Hcount, Hcount1. unfold sumZ. cbn. lia.
Qed.

End ConsumerExtras.

(** ** Stopping and restarting *)

Section RestartExtras.
Context `{Runtime}.

Lemma on_buff_ok_inv {A} (m : st ChunkQueue.t A) (s s' : Loader) (a : A) :
  on_buff m s = (s', Ok a) ->
  exists s1 q, _buff s = (s1, Ok q) /\ s' = set_buff (Some (m q).1) s1 /\ (m q).2 = Ok a.
Proof.
  unfold on_buff. intros Hrun.
  apply bind_ok_inv in Hrun as (s1 & q & Hbuff & Hrun).
  exists s1, q. split; [exact Hbuff|].
  destruct (m q) as [q' r]. st_unfold. cbn in *.
  destruct r; try discriminate. injection Hrun as <- <-. auto.
Qed.

Lemma buff_ok_state (s s' : Loader) (q : ChunkQueue.t) :
  _buff s = (s', Ok q) ->
  __buff s' = Some q /\ _workers s' = _workers s /\ _batch_itr s' = _batch_itr s /\
  num_rows_processed s' = num_rows_processed s.
Proof.
  unfold _buff. destruct (__buff s) as [q0|] eqn:Hb.
  - intros Heq. injection Heq as <- <-. auto.
  - destruct (_data_iter s (_epochs s)) as [[it n]| |]; try discriminate.
    intros Heq. injection Heq as <- <-. cbn. auto.
Qed.

(** X18. A call of [stop] on a loader with workers that returns leaves
    the queue with its stop flag set and nothing queued, and the loader
    without workers and without batch iterator. *)
Theorem stop_leaves_queue_stopped_and_empty (self s' : Loader) (ts : list Thread)
    (Hworkers : _workers self = Some ts)
    (Hstop : stop self = (s', Ok tt)) :
  exists q,
    __buff s' = Some q /\ ChunkQueue.stopped q = true /\ ChunkQueue.q_out q = [] /\
    _workers s' = None /\ _batch_itr s' = None.
Proof.
  unfold stop in Hstop.
  apply bind_ok_inv in Hstop as (s0 & workers & Hget & Hstop).
  injection Hget as <- <-. rewrite Hworkers in Hstop.
  apply bind_ok_inv in Hstop as (s1 & [] & Hbranch & Hlast).
  injection Hlast as <-.
  apply bind_ok_inv in Hbranch as (s2 & q & Hbuff & Hbranch).
  apply bind_ok_inv in Hbranch as (s3 & [] & Hflag & Hbranch).
  apply bind_ok_inv in Hbranch as (s4 & [] & Hset & Hclear).
  injection Hset as <-.
  destruct (buff_ok_state _ _ _ Hbuff) as (Hq2 & _).
  assert (Hq3 : exists q3, __buff s3 = Some q3 /\ ChunkQueue.stopped q3 = true).
  { destruct (ChunkQueue.stopped q) eqn:Hstopped; cbn in Hflag.
    - injection Hflag as <-. eauto.
    - apply on_buff_ok_inv in Hflag as (s5 & q5 & Hb5 & -> & _).
      eexists. split; [reflexivity|]. reflexivity. }
  destruct Hq3 as (q3 & Hq3 & Hstopped).
  apply on_buff_ok_inv in Hclear as (s5 & q5 & Hb5 & -> & _).
  unfold _buff in Hb5. cbn in Hb5. rewrite Hq3 in Hb5. injection Hb5 as <- <-.
  eexists. cbn. split; [reflexivity|]. cbn. auto.
Qed.

(** X20. Whether it returns or raises, [__iter__] keeps the attributes
    and the number of epochs of the loader, and its partition indices up
    to their order, as long as the shuffle of the array library permutes
    its argument; without [shuffle] it keeps the indices and the state of
    the random generator as they are. *)
Theorem iter_permutes_indices (self : Loader)
    (Hperm : forall (l : list Z) (rs : RandomState), (random_shuffle l rs).1 ≡ₚ l) :
  let s' := (__iter__ self).1 in
  attrs s' = attrs self /\ _epochs s' = _epochs self /\
  indices s' ≡ₚ indices self /\
  (shuffle (attrs self) = false ->
   indices s' = indices self /\ random_state s' = random_state self).
Proof.
  cbv zeta. change (keeps_indices self (__iter__ self).1).
  assert (Hbuff : forall s v, keeps_indices self s -> keeps_indices self (set_buff v s))
    by (intros s v Hs; exact Hs).
  assert (Hiter : preserves (keeps_indices self) __iter__).
  { unfold __iter__.
    apply preserves_bind;
      [apply preserves_stop; intros s v Hs; exact Hs|].
    intros _. apply preserves_bind; [apply preserves_modify; intros s Hs; exact Hs|].
    intros _. apply preserves_bind; [apply preserves_buff, Hbuff|]. intros q.
    apply preserves_bind.
    { destruct (ChunkQueue.stopped q);
        [apply preserves_on_buff, Hbuff | apply preserves_ret]. }
    intros _ s Hs. unfold mbind at 1. unfold st_bind at 1. cbn [gets id].
    remember (attrs s) as a eqn:Ha.
    assert (Ha' : a = attrs self) by (rewrite Ha; apply Hs).
    clear Ha. revert s Hs.
    apply (preserves_bind (keeps_indices self)).
    - destruct (shuffle a) eqn:Hsh; [|apply preserves_ret].
      unfold _shuffle_indices. apply preserves_modify.
      intros s (Hattrs & Hepochs & Hidx & Hsame).
      pose proof (Hperm (indices s)
                    (match seed_fn (attrs s) with
                     | Some f =>
                         random_seed
                           (f (generate_local_seed (global_rank (attrs s))
                                 (global_size (attrs s)) (random_state s)))
                           (generate_local_seed (global_rank (attrs s))
                              (global_size (attrs s)) (random_state s))
                     | None =>
                         generate_local_seed (global_rank (attrs s))
                           (global_size (attrs s)) (random_state s)
                     end)) as Hp.
      cbv zeta. destruct (random_shuffle _ _) as [shuffled rs]. cbn in Hp.
      unfold keeps_indices. cbn. split; [exact Hattrs|]. split; [exact Hepochs|].
      split; [rewrite Hp; exact Hidx|].
      intros Hfalse. rewrite <- Ha', Hsh in Hfalse. discriminate.
    - intros _. apply preserves_bind; [apply preserves_modify; intros s Hs; exact Hs|].
      intros _. apply preserves_bind; [apply preserves_on_buff, Hbuff|].
      intros _. apply preserves_modify. intros s Hs. exact Hs. }
  apply Hiter. unfold keeps_indices. auto.
Qed.

End RestartExtras.

(** ** The extra properties on concrete loaders *)

Lemma batch_groups_of_num_parts_witness :
  let self := example_queue [[1]; [2]; [3]] 2 false in
  exists groups : list (list (list Z)),
    ChunkQueue.batch self (Ok <$> [[1]; [2]; [3]]) = Ok <$> groups /\
    concat groups = [[1]; [2]; [3]] /\
    Forall (fun group => 1 <= len group <= ChunkQueue.num_parts self) groups /\
    (forall (i : nat) group,
       groups !! i = Some group -> (S i < length groups)%nat ->
       len group = ChunkQueue.num_parts self).
Proof.
  cbv zeta.
  apply (batch_groups_of_num_parts (example_queue [[1]; [2]; [3]] 2 false)
           [[1]; [2]; [3]]).
  simpl. lia.
Defined.

Lemma batch_single_group_when_num_parts_not_positive_witness :
  ChunkQueue.batch (example_queue [[1]; [2]; [3]] 0 false) (Ok <$> [[1]; [2]; [3]])
  = [Ok [[1]; [2]; [3]]].
Proof.
  apply (batch_single_group_when_num_parts_not_positive
           (example_queue [[1]; [2]; [3]] 0 false) [[1]; [2]; [3]]).
  - simpl. lia.
  - discriminate.
Defined.

Lemma load_chunks_stopped_is_noop_witness :
  (ChunkQueue.load_chunks (example_attrs [] 64 1 false false 1 0) (failing_queue true)).1
  = failing_queue true.
Proof.
  apply (load_chunks_stopped_is_noop (example_attrs [] 64 1 false false 1 0)
           (failing_queue true)).
  reflexivity.
Defined.

Lemma load_chunks_zero_batch_size_witness :
  let q := example_queue [[1; 2; 3]] 1 false in
  ChunkQueue.load_chunks (example_attrs [[1; 2; 3]] 0 1 false false 1 0) q
  = (ChunkQueue.set_q_out
       (ChunkQueue.q_out q ++ [ChunkQueue.Failure ZeroDivisionError]) q, Ok tt).
Proof.
  cbv zeta.
  apply (load_chunks_zero_batch_size (example_attrs [[1; 2; 3]] 0 1 false false 1 0)
           (example_queue [[1; 2; 3]] 1 false) [[1; 2; 3]]).
  - reflexivity.
  - reflexivity.
  - discriminate.
  - reflexivity.
Defined.

Lemma shards_partition_index_array_witness :
  let l := [5; 3; 8; 1; 9] in
  let selfs := fun r =>
    set_indices l (0 : @RandomState list_runtime)
      (example_loader [] 64 1 false false 2 r) in
  exists (per_shard : Z) (blocks : Z -> list Z),
    (per_shard - 1) * 2 < len l <= per_shard * 2 /\
    (forall r, 0 <= r ->
       _indices_for_process (selfs r) = Ok (blocks r) /\
       len (blocks r) = Z.max 0 (Z.min per_shard (len l - r * per_shard))) /\
    (forall r, 2 <= r -> blocks r = []) /\
    concat (blocks <$> seqZ 0 2) = l.
Proof.
  cbv zeta.
  apply (shards_partition_index_array [5; 3; 8; 1; 9] 2
           (fun r => set_indices [5; 3; 8; 1; 9] (0 : @RandomState list_runtime)
                       (example_loader [] 64 1 false false 2 r))).
  - unfold len. cbn. lia.
  - intros r. split; [reflexivity|]. split; reflexivity.
Defined.

Lemma len_is_cached_witness :
  let self := example_loader [[1; 2; 3]] 2 1 false false 1 0 in
  let s1 := (__len__ self).1 in
  __len__ s1 = (s1, Ok 2) /\
  exists N, __buff_len s1 = Some N /\ _buff_len s1 = (s1, Ok N).
Proof.
  cbv zeta.
  apply (len_is_cached (example_loader [[1; 2; 3]] 2 1 false false 1 0)).
  vm_compute. reflexivity.
Defined.

Lemma more_processes_than_partitions_witness :
  let self := example_loader [[1; 2; 3]] 2 1 false false 4 0 in
  _indices_for_process self = Raise IndexError /\
  __len__ self = (self, Raise IndexError) /\
  __iter__ self
  = (set_num_rows_processed 0 (set_batch_itr None self), Raise IndexError).
Proof.
  cbv zeta.
  apply (more_processes_than_partitions (example_loader [[1; 2; 3]] 2 1 false false 4 0)).
  - reflexivity.
  - reflexivity.
  - reflexivity.
  - vm_compute. reflexivity.
Defined.

Lemma init_groups_columns_by_dtype_witness :
  dtype_reverse_map (attrs sequence_loader) !! "int64"
  = Some (columns_of_dtype (schema sequence_dataset) "int64") /\
  dtype_reverse_map (attrs sequence_loader) !! "bool" = None.
Proof.
  split.
  - apply (init_groups_columns_by_dtype sequence_dataset 2 false None 1 None None
             false false (0 : @RandomState list_runtime) sequence_loader).
    + vm_compute. reflexivity.
    + vm_compute. discriminate.
  - apply (init_groups_columns_by_dtype sequence_dataset 2 false None 1 None None
             false false (0 : @RandomState list_runtime) sequence_loader).
    + vm_compute. reflexivity.
    + reflexivity.
Defined.

Lemma init_sparse_bookkeeping_witness :
  (forall c spec, (c, spec) ∈ schema sequence_dataset ->
     (has_fixed_length spec ->
      exists vc, value_count spec = Some vc /\
                 sparse_max (attrs sequence_loader) !! c = Some (ValueCount.max vc)) /\
     (~ has_fixed_length spec -> sparse_max (attrs sequence_loader) !! c = None) /\
     (c ∈ sparse_as_dense (attrs sequence_loader)
      <-> is_list spec = true /\ is_ragged spec = false) /\
     (c ∈ sparse_as_dense (attrs sequence_loader) -> is_Some (value_count spec))) /\
  (forall c, c ∉ (schema sequence_dataset).*1 ->
     sparse_max (attrs sequence_loader) !! c = None /\
     (c ∉ sparse_as_dense (attrs sequence_loader)) /\
     c ∉ sparse_names (attrs sequence_loader)) /\
  sparse_names (attrs sequence_loader) = list_columns (schema sequence_dataset).
Proof.
  apply (init_sparse_bookkeeping sequence_dataset 2 false None 1 None None
           false false (0 : @RandomState list_runtime) sequence_loader).
  - vm_compute. reflexivity.
  - cbn. repeat (apply NoDup_cons_2; [rewrite ?not_elem_of_cons; repeat split;
                                 (discriminate || apply not_elem_of_nil)|]).
    apply NoDup_nil_2.
Defined.

Lemma handle_tensors_ok_iff_witness :
  let X0 := assemble_columns sequence_tensors [["seq"; "tags"]; ["y"]] in
  is_ok (_handle_tensors sequence_attrs sequence_tensors [["seq"; "tags"]; ["y"]]) = true
  <-> (forall c, c ∈ sparse_names sequence_attrs ->
         is_Some (sparse_max sequence_attrs !! c) ->
         exists v, X0 !! c = Some v /\
                   is_ok (_to_sparse_tensor sequence_attrs v c) = true) /\
      (forall label, head (label_names sequence_attrs) = Some label -> label ∈ dom X0).
Proof.
  apply (handle_tensors_ok_iff sequence_attrs sequence_tensors [["seq"; "tags"]; ["y"]]).
  cbn. repeat (apply NoDup_cons_2; [rewrite ?not_elem_of_cons; repeat split;
                               (discriminate || apply not_elem_of_nil)|]).
  apply NoDup_nil_2.
Defined.

Lemma handle_tensors_splits_first_label_witness :
  let X0 := assemble_columns sequence_tensors [["seq"; "tags"]; ["y"]] in
  let X : gmap string (@Entry list_runtime) :=
    {[ "seq" := @Lone list_runtime [1; 2; 3; 4; 5];
       "tags" := @Pair list_runtime [1; 2; 3; 4; 5; 6; 7; 8] [0] ]} in
  let labels := Some (@Lone list_runtime [7]) in
  (label_names sequence_attrs = [] -> labels = None /\ dom X = dom X0) /\
  (forall label rest, label_names sequence_attrs = label :: rest ->
     is_Some labels /\
     label ∈ dom X0 /\
     dom X = dom X0 ∖ {[label]} /\
     (forall other, other ∈ rest -> other <> label -> other ∈ dom X0 -> other ∈ dom X) /\
     (~ (label ∈ sparse_names sequence_attrs
         /\ is_Some (sparse_max sequence_attrs !! label)) ->
      labels = X0 !! label)).
Proof.
  apply (handle_tensors_splits_first_label sequence_attrs sequence_tensors
           [["seq"; "tags"]; ["y"]]).
  - cbn. repeat (apply NoDup_cons_2; [rewrite ?not_elem_of_cons; repeat split;
                                 (discriminate || apply not_elem_of_nil)|]).
    apply NoDup_nil_2.
  - vm_compute. reflexivity.
Defined.


Lemma set_epochs_rebuilds_queue_witness :
  let self := example_loader [[1; 2; 3]] 2 1 false false 1 0 in
  let s1 := (_set_epochs 2 self).1 in
  let s2 := (__iter__ s1).1 in
  __buff s1 = None /\ __buff_len s1 = None /\ _epochs s1 = 2 /\
  _workers s1 = None /\ _batch_itr s1 = None /\
  exists q,
    __buff s2 = Some q /\
    _data_iter self 2 = Ok (ChunkQueue.itr q, ChunkQueue.itr_len q).
Proof.
  cbv zeta.
  apply (set_epochs_rebuilds_queue (example_loader [[1; 2; 3]] 2 1 false false 1 0)).
  - vm_compute. reflexivity.
  - vm_compute. reflexivity.
Defined.

Lemma first_next_blocks_when_nothing_is_batched_witness :
  let self := example_loader [[1; 2; 3]] 5 1 false true 1 0 in
  (__iter__ self).2 = Ok tt /\
  (_get_next_batch example_handle example_tensor_len self).2 = Blocked.
Proof.
  cbv zeta.
  apply (first_next_blocks_when_nothing_is_batched example_handle example_tensor_len
           (example_loader [[1; 2; 3]] 5 1 false true 1 0) [[1; 2; 3]] 3).
  - reflexivity.
  - reflexivity.
  - vm_compute. reflexivity.
  - simpl. lia.
  - intros chunk. apply reverse_Permutation.
  - vm_compute. reflexivity.
  - left. reflexivity.
Defined.

Lemma consumer_drains_backlog_witness :
  let s := (__iter__ (example_loader [[1; 2; 3]] 2 1 false false 1 0)).1 in
  let outs := [ ({[ "x" := @Lone list_runtime [1; 2] ]}, None);
                ({[ "x" := @Lone list_runtime [3] ]}, None) ] in
  exists s',
    next_n example_handle example_tensor_len 2 s = (s', Ok outs) /\
    num_rows_processed s'
    = num_rows_processed s + sumZ (count_batch example_tensor_len <$> outs) /\
    _get_next_batch example_handle example_tensor_len s'
    = (set_batch_itr None (set_workers None s'), Raise StopIteration).
Proof.
  cbv zeta.
  apply (consumer_drains_backlog example_handle example_tensor_len
           (__iter__ (example_loader [[1; 2; 3]] 2 1 false false 1 0)).1
           [ ({[ "x" := @Lone list_runtime [1; 2] ]}, None);
             ({[ "x" := @Lone list_runtime [3] ]}, None) ]).
  - split; [eexists; vm_compute; reflexivity|].
    split; [vm_compute; reflexivity|].
    eexists. split; [vm_compute; reflexivity|].
    split; [|discriminate].
    repeat (apply Forall_cons; split; [eexists; split; [reflexivity | discriminate]|]).
    apply Forall_nil_2.
  - vm_compute backlog. repeat constructor.
Defined.

Lemma stop_leaves_queue_stopped_and_empty_witness :
  let self := (__iter__ (example_loader [[1; 2; 3]] 2 1 false false 1 0)).1 in
  exists q,
    __buff (stop self).1 = Some q /\ ChunkQueue.stopped q = true /\
    ChunkQueue.q_out q = [] /\
    _workers (stop self).1 = None /\ _batch_itr (stop self).1 = None.
Proof.
  cbv zeta.
  apply (stop_leaves_queue_stopped_and_empty
           (__iter__ (example_loader [[1; 2; 3]] 2 1 false false 1 0)).1
           (stop (__iter__ (example_loader [[1; 2; 3]] 2 1 false false 1 0)).1).1
           [ {| is_alive := false |} ]).
  - vm_compute. reflexivity.
  - vm_compute. reflexivity.
Defined.

Lemma iter_permutes_indices_witness :
  let self := example_loader [[1]; [2]; [3]] 2 1 true false 1 0 in
  let s' := (__iter__ self).1 in
  attrs s' = attrs self /\ _epochs s' = _epochs self /\
  indices s' ≡ₚ indices self /\
  (shuffle (attrs self) = false ->
   indices s' = indices self /\ random_state s' = random_state self).
Proof.
  cbv zeta.
  apply (iter_permutes_indices (example_loader [[1]; [2]; [3]] 2 1 true false 1 0)).
  intros l rs. apply reverse_Permutation.
Defined.

(** ** The worker thread next to the consumer *)

Section ThreadWorker.
Context `{Runtime}.

Lemma set_buff_set_buff (v v' : option ChunkQueue.t) (self : Loader) :
  set_buff v (set_buff v' self) = set_buff v self.
Proof. reflexivity. Qed.

(** One step of the worker under a clear stop flag leaves the flag and
    what is pending as they are. *)
Lemma step_pending (w : Threads.process) (q : ChunkQueue.t) :
  ChunkQueue.stopped q = false ->
  exists out,
    (Threads.step w q).2 = ChunkQueue.set_q_out out q /\
    out ++ Threads.outputs (Threads.step w q).1 = ChunkQueue.q_out q ++ Threads.outputs w /\
    (Threads.alive w = false -> (Threads.step w q).1 = Threads.Exit /\ out = ChunkQueue.q_out q).
Proof.
  intros Hq. destruct w as [| | |k|packet k|packet k]; cbn.
  - exists (ChunkQueue.q_out q). rewrite set_q_out_id. auto.
  - exists (ChunkQueue.q_out q). rewrite set_q_out_id. split; [|split]; auto.
  - exists (ChunkQueue.q_out q). rewrite set_q_out_id. split; [|split]; auto. discriminate.
  - rewrite Hq. exists (ChunkQueue.q_out q). rewrite set_q_out_id.
    split; [|split]; auto. discriminate.
  - rewrite Hq. cbn. exists (ChunkQueue.q_out q). rewrite set_q_out_id.
    split; [|split]; auto. discriminate.
  - destruct (len (ChunkQueue.q_out q) <? Threads.qsize); cbn.
    + eexists. split; [reflexivity|]. split; [rewrite <- app_assoc; reflexivity|].
      discriminate.
    + exists (ChunkQueue.q_out q). rewrite set_q_out_id. split; [|split]; auto.
      discriminate.
Qed.

Lemma steps_pending (n : nat) :
  forall (w : Threads.process) (q : ChunkQueue.t),
    ChunkQueue.stopped q = false ->
    exists out,
      (Threads.steps n w q).2 = ChunkQueue.set_q_out out q /\
      out ++ Threads.outputs (Threads.steps n w q).1
      = ChunkQueue.q_out q ++ Threads.outputs w /\
      (Threads.alive w = false ->
       (Threads.steps n w q).1 = Threads.Exit /\ out = ChunkQueue.q_out q).
Proof.
  induction n as [|n IH]; intros w q Hq.
  - exists (ChunkQueue.q_out q). cbn. rewrite set_q_out_id. split; [|split]; auto.
    destruct w; try discriminate. auto.
  - cbn [Threads.steps].
    destruct (step_pending w q Hq) as (out1 & Hq1 & Hout1 & Hexit1).
    destruct (Threads.step w q) as [w1 q1]. cbn in Hq1, Hout1, Hexit1. subst q1.
    destruct (IH w1 (ChunkQueue.set_q_out out1 q) Hq) as (out & Hq2 & Hout & Hexit).
    exists out. split; [rewrite Hq2; reflexivity|]. split.
    + rewrite Hout. cbn. exact Hout1.
    + intros Hw. destruct (Hexit1 Hw) as [-> ->]. cbn in Hexit.
      destruct (Hexit eq_refl) as [-> ->]. auto.
Qed.

(** While the consumer waits on the empty queue, the worker brings the
    next pending packet, if there is one. *)
Lemma until_put_pending (w : Threads.process) :
  forall q : ChunkQueue.t,
    ChunkQueue.stopped q = false ->
    exists out,
      (Threads.until_put w q).2 = ChunkQueue.set_q_out out q /\
      out ++ Threads.outputs (Threads.until_put w q).1
      = ChunkQueue.q_out q ++ Threads.outputs w /\
      (out = [] -> Threads.outputs (Threads.until_put w q).1 = []).
Proof.
  induction w as [| | |k IH|packet k IH|packet k IH]; intros q Hq;
    cbn [Threads.until_put]; destruct (ChunkQueue.q_out q) as [|p out0] eqn:Hout.
  all: try (exists (p :: out0); cbn; rewrite <- Hout, set_q_out_id;
            split; [reflexivity|]; split; [reflexivity|]; rewrite Hout; discriminate).
  - exists []. cbn. rewrite <- Hout, set_q_out_id. auto.
  - exists []. cbn. rewrite <- Hout, set_q_out_id. auto.
  - exists []. cbn. rewrite <- Hout, set_q_out_id. auto.
  - rewrite Hq. destruct (IH false q Hq) as (out & H1 & H2 & H3).
    exists out. rewrite Hout in H2. auto.
  - rewrite Hq. exists [packet]. cbn. split; [reflexivity|]. split; [reflexivity|].
    discriminate.
  - exists [packet]. cbn. split; [reflexivity|]. split; [reflexivity|]. discriminate.
Qed.

End ThreadWorker.

Section Binds.
Context {S A B : Type}.

Lemma bind_ok (m : st S A) (k : A -> st S B) (s s1 : S) (a : A) :
  m s = (s1, Ok a) -> (m ≫= k) s = k a s1.
Proof. unfold mbind, st_bind. intros ->. reflexivity. Qed.

Lemma bind_blocked (m : st S A) (k : A -> st S B) (s s1 : S) :
  m s = (s1, Blocked) -> (m ≫= k) s = (s1, Blocked).
Proof. unfold mbind, st_bind. intros ->. reflexivity. Qed.

Lemma bind_raise (m : st S A) (k : A -> st S B) (s s1 : S) (e : exn) :
  m s = (s1, Raise e) -> (m ≫= k) s = (s1, Raise e).
Proof. unfold mbind, st_bind. intros ->. reflexivity. Qed.

End Binds.

Lemma existsb_const {A : Type} (b : bool) (x : A) (l : list A) :
  existsb (fun _ => b) (x :: l) = b.
Proof.
  destruct b; [reflexivity|]. cbn. induction l as [|y l IH]; [reflexivity | exact IH].
Qed.

Section ThreadConsumer.
Context `{Runtime}.
Context (sched : nat -> nat).
Context (handle : list Row -> result (gmap string Entry * option Entry)).
Context (tensor_len : tensor -> Z).

Lemma buff_free_modify (f : Loader -> Loader) :
  (forall v self, f (set_buff v self) = set_buff v (f self)) -> buff_free (modify f).
Proof. intros Hf v self. unfold modify. cbn. rewrite Hf. reflexivity. Qed.

Lemma buff_free_next_batch : buff_free (next_batch handle).
Proof.
  intros v self. unfold next_batch. cbn.
  destruct (_batch_itr self) as [[|rows rest]|]; try reflexivity.
  destruct (handle rows) as [b|[]|]; reflexivity.
Qed.

Lemma on_loader_serves {A : Type} (m : st Loader A) (self : Loader)
    (pending : list ChunkQueue.packet) (sys : Threads.System) :
  buff_free m -> Threads.serves self pending sys ->
  exists sys',
    Threads.on_loader m sys = (sys', (m self).2) /\
    Threads.serves (m self).1 pending sys' /\
    Threads.worker sys' = Threads.worker sys.
Proof.
  intros Hm (q & Hl & Hq & Hp). unfold Threads.on_loader. rewrite Hl, Hm.
  eexists. split; [reflexivity|]. split; [|reflexivity].
  exists q. cbn. auto.
Qed.

Lemma buff_serves (self : Loader) (pending : list ChunkQueue.packet)
    (sys : Threads.System) :
  Threads.serves self pending sys ->
  exists q, Threads.on_loader _buff sys = (sys, Ok q).
Proof.
  intros (q & Hl & Hq & Hp). exists q. unfold Threads.on_loader, _buff. rewrite Hl. cbn.
  rewrite <- Hl. destruct sys; reflexivity.
Qed.

Lemma tick_serves (self : Loader) (pending : list ChunkQueue.packet)
    (sys : Threads.System) :
  Threads.serves self pending sys ->
  exists sys',
    Threads.tick sched sys = (sys', Ok tt) /\
    Threads.serves self pending sys' /\
    (Threads.alive (Threads.worker sys) = false ->
     Threads.worker sys' = Threads.Exit /\ Threads.loader sys' = Threads.loader sys).
Proof.
  intros (q & Hl & Hq & Hp). unfold Threads.tick, modify, Threads.advance.
  rewrite Hl. cbn [__buff set_buff].
  destruct (steps_pending (sched (Threads.ticks sys)) (Threads.worker sys) q Hq)
    as (out & Hq' & Hout & Hexit).
  destruct (Threads.steps _ _ q) as [w' q']. cbn in Hq', Hout, Hexit. subst q'.
  eexists. split; [reflexivity|]. cbn. split.
  - eexists. split; [reflexivity|]. cbn. split; [exact Hq|]. rewrite Hout. exact Hp.
  - intros Hw. destruct (Hexit Hw) as [-> ->]. rewrite set_q_out_id. auto.
Qed.

(** [get] hands over the first pending packet, whatever the schedule. *)
Lemma get_serves (self : Loader) (packet : ChunkQueue.packet)
    (pending : list ChunkQueue.packet) (sys : Threads.System) :
  Threads.serves self (packet :: pending) sys ->
  exists sys',
    Threads.get sched sys = (sys', Ok packet) /\ Threads.serves self pending sys'.
Proof.
  intros Hs. unfold Threads.get.
  destruct (buff_serves _ _ _ Hs) as (q0 & Hbuff). rewrite (bind_ok _ _ _ _ _ Hbuff).
  destruct (tick_serves _ _ _ Hs) as (sys1 & Htick & (q & Hl & Hq & Hp) & _).
  rewrite (bind_ok _ _ _ _ _ Htick).
  unfold mbind at 1. unfold st_bind at 1. unfold modify at 1.
  rewrite Hl. cbn [__buff set_buff].
  destruct (until_put_pending (Threads.worker sys1) q Hq) as (out & Hq' & Hout & Hnone).
  destruct (Threads.until_put _ q) as [w' q']. cbn in Hq', Hout, Hnone. subst q'.
  rewrite Hp in Hout.
  destruct out as [|p out]; [rewrite (Hnone eq_refl) in Hout; discriminate|].
  injection Hout as -> Hout.
  unfold Threads.on_loader, on_buff, _buff, ChunkQueue.get. st_unfold. cbn.
  eexists. split; [reflexivity|]. eexists. cbn. split; [reflexivity|]. cbn. auto.
Qed.

(** With nothing pending, [get] waits for ever. *)
Lemma get_blocks (self : Loader) (sys : Threads.System) :
  Threads.serves self [] sys -> (Threads.get sched sys).2 = Blocked.
Proof.
  intros Hs. unfold Threads.get.
  destruct (buff_serves _ _ _ Hs) as (q0 & Hbuff). rewrite (bind_ok _ _ _ _ _ Hbuff).
  destruct (tick_serves _ _ _ Hs) as (sys1 & Htick & (q & Hl & Hq & Hp) & _).
  rewrite (bind_ok _ _ _ _ _ Htick).
  unfold mbind at 1. unfold st_bind at 1. unfold modify at 1.
  rewrite Hl. cbn [__buff set_buff].
  destruct (until_put_pending (Threads.worker sys1) q Hq) as (out & Hq' & Hout & Hnone).
  destruct (Threads.until_put _ q) as [w' q']. cbn in Hq', Hout, Hnone. subst q'.
  rewrite Hp in Hout. apply app_eq_nil in Hout as [-> _].
  unfold Threads.on_loader, on_buff, _buff, ChunkQueue.get. st_unfold. cbn. reflexivity.
Qed.

Lemma working_serves (self : Loader) (pending : list ChunkQueue.packet)
    (sys : Threads.System) (t : Thread) (ts : list Thread) :
  Threads.serves self pending sys -> _workers self = Some (t :: ts) ->
  exists sys',
    Threads._working sched sys = (sys', Ok (Threads.alive (Threads.worker sys'))) /\
    Threads.serves self pending sys'.
Proof.
  intros Hs Hws. unfold Threads._working.
  destruct (tick_serves _ _ _ Hs) as (sys1 & Htick & Hs1 & _).
  rewrite (bind_ok _ _ _ _ _ Htick). exists sys1. split; [|exact Hs1].
  destruct Hs1 as (q & Hl & _). unfold gets. rewrite Hl. cbn [_workers set_buff].
  rewrite Hws, existsb_const. reflexivity.
Qed.

Lemma empty_serves (self : Loader) (pending : list ChunkQueue.packet)
    (sys : Threads.System) :
  Threads.serves self pending sys -> Threads.worker sys = Threads.Exit ->
  exists sys',
    Threads.on_queue sched (gets ChunkQueue.empty) sys
    = (sys', Ok (bool_decide (pending = []))) /\
    Threads.serves self pending sys' /\ Threads.worker sys' = Threads.Exit.
Proof.
  intros Hs Hw. unfold Threads.on_queue.
  destruct (tick_serves _ _ _ Hs) as (sys1 & Htick & Hs1 & Hexit).
  rewrite (bind_ok _ _ _ _ _ Htick).
  destruct (Hexit ltac:(rewrite Hw; reflexivity)) as [Hw1 _].
  exists sys1. split; [|split; [exact Hs1 | exact Hw1]].
  destruct Hs1 as (q & Hl & Hq & Hp). rewrite Hw1 in Hp. cbn in Hp.
  rewrite app_nil_r in Hp.
  clear Htick Hexit Hw1. destruct sys1 as [l w n]. cbn in Hl. subst l.
  unfold Threads.on_loader, on_buff, _buff, ChunkQueue.empty. st_unfold. cbn.
  rewrite Hp. reflexivity.
Qed.

End ThreadConsumer.

Section ThreadEpoch.
Context `{Runtime}.
Context (sched : nat -> nat).
Context (handle : list Row -> result (gmap string Entry * option Entry)).
Context (tensor_len : tensor -> Z).

Lemma fetch_chunk_serves (self : Loader) (batches : list (list Row))
    (pending : list ChunkQueue.packet) (sys : Threads.System) :
  Threads.serves self (ChunkQueue.Batches batches :: pending) sys ->
  exists sys',
    Threads._fetch_chunk sched sys = (sys', Ok tt) /\
    Threads.serves (set_batch_itr (Some batches) self) pending sys' .
Proof.
  intros Hs. unfold Threads._fetch_chunk.
  destruct (get_serves sched _ _ _ _ Hs) as (sys1 & Hget & Hs1).
  rewrite (bind_ok _ _ _ _ _ Hget).
  destruct (on_loader_serves (modify (set_batch_itr (Some batches))) _ _ _
              ltac:(apply buff_free_modify; reflexivity) Hs1) as (sys2 & Hset & Hs2 & _).
  exists sys2. split; [exact Hset | exact Hs2].
Qed.

Lemma fetch_chunk_blocks (self : Loader) (sys : Threads.System) :
  Threads.serves self [] sys -> (Threads._fetch_chunk sched sys).2 = Blocked.
Proof.
  intros Hs. unfold Threads._fetch_chunk.
  pose proof (get_blocks sched _ _ Hs) as Hget.
  destruct (Threads.get sched sys) as [sys1 r] eqn:Hrun. cbn in Hget. subst r.
  rewrite (bind_blocked _ _ _ _ Hrun). reflexivity.
Qed.

(** The end of a call of [_get_next_batch] once the batch iterator holds
    the batch to return. *)
Lemma return_batch_serves (self : Loader) (pending : list ChunkQueue.packet)
    (sys : Threads.System) (rows : list Row) (rest : list (list Row))
    (b : gmap string Entry * option Entry) :
  Threads.serves self pending sys -> _batch_itr self = Some (rows :: rest) ->
  handle rows = Ok b ->
  exists sys',
    Threads.on_loader (next_batch handle) sys = (sys', Ok b) /\
    Threads.serves (set_batch_itr (Some rest) self) pending sys'.
Proof.
  intros Hs Hitr Hrows.
  destruct (on_loader_serves (next_batch handle) _ _ _ (buff_free_next_batch handle) Hs)
    as (sys1 & Hnext & Hs1 & _).
  unfold next_batch in Hnext at 2, Hs1. rewrite Hitr, Hrows in Hnext, Hs1.
  cbn in Hnext, Hs1. eauto.
Qed.

Lemma gets_serves {A : Type} (f : Loader -> A) (self : Loader)
    (pending : list ChunkQueue.packet) (sys : Threads.System) :
  (forall v l, f (set_buff v l) = f l) ->
  Threads.serves self pending sys ->
  gets (fun sys => f (Threads.loader sys)) sys = (sys, Ok (f self)).
Proof. intros Hf (q & Hl & _). unfold gets. rewrite Hl, Hf. reflexivity. Qed.

Lemma count_serves (self : Loader) (pending : list ChunkQueue.packet)
    (sys : Threads.System) (b : gmap string Entry * option Entry) :
  Threads.serves self pending sys ->
  exists sys',
    (_ ← Threads.on_loader (modify (fun self =>
            set_num_rows_processed
              (num_rows_processed self + count_batch tensor_len b) self));
     mret b) sys = (sys', Ok b) /\
    Threads.serves
      (set_num_rows_processed (num_rows_processed self + count_batch tensor_len b) self)
      pending sys'.
Proof.
  intros Hs.
  destruct (on_loader_serves
              (modify (fun self =>
                 set_num_rows_processed
                   (num_rows_processed self + count_batch tensor_len b) self)) _ _ _
              ltac:(apply buff_free_modify; reflexivity) Hs) as (sys1 & Hset & Hs1 & _).
  rewrite (bind_ok _ _ _ _ _ Hset). exists sys1. split; [reflexivity | exact Hs1].
Qed.

(** One call of [_get_next_batch] while batches are left to come,
    whatever the schedule. *)
Lemma get_next_batch_serves (self : Loader) (pending : list ChunkQueue.packet)
    (sys : Threads.System) (rows : list Row) (rest : list (list Row))
    (b : gmap string Entry * option Entry) (t : Thread) (ts : list Thread) :
  Threads.serves self pending sys -> _workers self = Some (t :: ts) ->
  Forall Threads.some_batches pending ->
  default [] (_batch_itr self) ++ Threads.packet_batches pending = rows :: rest ->
  handle rows = Ok b ->
  exists sys' self' pending',
    Threads._get_next_batch sched handle tensor_len sys = (sys', Ok b) /\
    Threads.serves self' pending' sys' /\ _workers self' = Some (t :: ts) /\
    Forall Threads.some_batches pending' /\
    is_Some (_batch_itr self') /\
    default [] (_batch_itr self') ++ Threads.packet_batches pending' = rest /\
    num_rows_processed self' = num_rows_processed self + count_batch tensor_len b.
Proof.
  intros Hs Hws Hall Hback Hrows.
  (* what follows a fetch of the next packet *)
  assert (Hfetched : forall sys0 self0 packet pending',
            Threads.serves self0 (packet :: pending') sys0 ->
            _workers self0 = Some (t :: ts) ->
            Forall Threads.some_batches (packet :: pending') ->
            Threads.packet_batches (packet :: pending') = rows :: rest ->
            exists sys1 sys' self' pending'',
              Threads._fetch_chunk sched sys0 = (sys1, Ok tt) /\
              Threads.on_loader (next_batch handle) sys1 = (sys', Ok b) /\
              Threads.serves self' pending'' sys' /\ _workers self' = Some (t :: ts) /\
              Forall Threads.some_batches pending'' /\
              is_Some (_batch_itr self') /\
              default [] (_batch_itr self') ++ Threads.packet_batches pending'' = rest /\
              num_rows_processed self' = num_rows_processed self0).
  { intros sys0 self0 packet pending' Hs0 Hws0 Hall0 Hback0.
    apply Forall_cons in Hall0 as [(batches & -> & Hne) Hall0].
    destruct batches as [|rows' rest']; [congruence|].
    unfold Threads.packet_batches in Hback0. cbn in Hback0.
    injection Hback0 as -> Hrest.
    destruct (fetch_chunk_serves _ _ _ _ Hs0) as (sys1 & Hfetch & Hs1).
    destruct (return_batch_serves _ _ _ rows rest' b Hs1 eq_refl Hrows)
      as (sys2 & Hnext & Hs2).
    exists sys1, sys2. eexists. exists pending'. split; [exact Hfetch|].
    split; [exact Hnext|].
    split; [exact Hs2|]. cbn. split; [exact Hws0|]. split; [exact Hall0|].
    split; [eauto|]. split; [exact Hrest | reflexivity]. }
  (* the count that ends the call *)
  assert (Hcount : forall (m : st Threads.System (gmap string Entry * option Entry))
                     sys0 sys1 self1 pending1,
            m sys0 = (sys1, Ok b) ->
            Threads.serves self1 pending1 sys1 -> _workers self1 = Some (t :: ts) ->
            Forall Threads.some_batches pending1 ->
            is_Some (_batch_itr self1) ->
            default [] (_batch_itr self1) ++ Threads.packet_batches pending1 = rest ->
            num_rows_processed self1 = num_rows_processed self ->
            exists sys' self' pending',
              (batch ← m;
               _ ← Threads.on_loader (modify (fun self =>
                      set_num_rows_processed
                        (num_rows_processed self + count_batch tensor_len batch) self));
               mret batch) sys0 = (sys', Ok b) /\
              Threads.serves self' pending' sys' /\ _workers self' = Some (t :: ts) /\
              Forall Threads.some_batches pending' /\
              is_Some (_batch_itr self') /\
              default [] (_batch_itr self') ++ Threads.packet_batches pending' = rest /\
              num_rows_processed self'
              = num_rows_processed self + count_batch tensor_len b).
  { intros m sys0 sys1 self1 pending1 Hm Hs1 Hws1 Hall1 Hitr1 Hback1 Hnum1.
    rewrite (bind_ok _ _ _ _ _ Hm).
    destruct (count_serves _ _ _ b Hs1) as (sys2 & Hrun & Hs2).
    exists sys2. eexists. exists pending1. split; [exact Hrun|].
    split; [exact Hs2|]. cbn. rewrite Hnum1. auto. }
  unfold Threads._get_next_batch.
  rewrite (bind_ok _ _ _ _ _ (gets_serves _workers _ _ _ ltac:(reflexivity) Hs)).
  rewrite Hws. cbn match.
  rewrite (bind_ok (mret tt) _ sys sys tt eq_refl).
  rewrite (bind_ok _ _ _ _ _ (gets_serves _batch_itr _ _ _ ltac:(reflexivity) Hs)).
  set (catch := fun sys0 : Threads.System =>
                  match Threads.on_loader (next_batch handle) sys0 with
                  | (sys1, Raise StopIteration) => _
                  | r => r
                  end).
  assert (Hcatch : forall sys0 sys1,
            Threads.on_loader (next_batch handle) sys0 = (sys1, Ok b) ->
            catch sys0 = (sys1, Ok b)).
  { intros sys0 sys1 Hnext. unfold catch. rewrite Hnext. reflexivity. }
  destruct (_batch_itr self) as [[|rows' rest']|] eqn:Hitr.
  - (* the chunk at hand is used up *)
    cbn [default from_option id app] in Hback.
    destruct pending as [|packet pending']; [discriminate|].
    rewrite (bind_ok (mret tt) _ sys sys tt eq_refl).
    destruct (on_loader_serves (next_batch handle) _ _ _ (buff_free_next_batch handle) Hs)
      as (sys1 & Hnext & Hs1 & _).
    unfold next_batch in Hnext at 2, Hs1. rewrite Hitr in Hnext, Hs1. cbn in Hnext, Hs1.
    destruct (working_serves sched _ _ _ t ts Hs1 Hws) as (sys2 & Hworking & Hs2).
    assert (Hrun : exists sys' self' pending'',
              catch sys = (sys', Ok b) /\
              Threads.serves self' pending'' sys' /\ _workers self' = Some (t :: ts) /\
              Forall Threads.some_batches pending'' /\
              is_Some (_batch_itr self') /\
              default [] (_batch_itr self') ++ Threads.packet_batches pending'' = rest /\
              num_rows_processed self' = num_rows_processed self).
    { destruct (Threads.alive (Threads.worker sys2)) eqn:Halive.
      - destruct (Hfetched _ _ _ _ Hs2 Hws Hall Hback)
          as (sys3 & sys' & self' & pending'' & Hfetch & Hret & Hrest).
        exists sys', self', pending''. split; [|exact Hrest].
        unfold catch. rewrite Hnext.
        rewrite (bind_ok _ _ _ _ _ Hworking).
        rewrite (bind_ok (mret false) _ sys2 sys2 false eq_refl).
        rewrite (bind_ok _ _ _ _ _ Hfetch). exact Hret.
      - assert (Hexit : Threads.worker sys2 = Threads.Exit)
          by (destruct (Threads.worker sys2); try discriminate; reflexivity).
        destruct (empty_serves sched _ _ _ Hs2 Hexit) as (sys3 & Hempty & Hs3 & _).
        rewrite bool_decide_eq_false_2 in Hempty by discriminate.
        destruct (Hfetched _ _ _ _ Hs3 Hws Hall Hback)
          as (sys4 & sys' & self' & pending'' & Hfetch & Hret & Hrest).
        exists sys', self', pending''. split; [|exact Hrest].
        unfold catch. rewrite Hnext.
        rewrite (bind_ok _ _ _ _ _ Hworking).
        rewrite (bind_ok _ _ _ _ _ Hempty).
        rewrite (bind_ok _ _ _ _ _ Hfetch). exact Hret. }
    destruct Hrun as (sys' & self' & pending'' & Hrun & Hs' & Hws' & Hall'
                      & Hitr' & Hback' & Hnum').
    exact (Hcount catch _ _ _ _ Hrun Hs' Hws' Hall' Hitr' Hback' Hnum').
  - (* a batch of the chunk at hand *)
    cbn [default from_option id app] in Hback. injection Hback as -> Hrest.
    rewrite (bind_ok (mret tt) _ sys sys tt eq_refl).
    destruct (return_batch_serves _ _ _ rows rest' b Hs Hitr Hrows)
      as (sys1 & Hnext & Hs1).
    apply (Hcount catch _ _ _ _ (Hcatch _ _ Hnext) Hs1); cbn; auto.
  - (* nothing fetched so far *)
    cbn [default from_option id app] in Hback.
    destruct pending as [|packet pending']; [discriminate|].
    destruct (Hfetched _ _ _ _ Hs Hws Hall Hback)
      as (sys1 & sys' & self' & pending'' & Hfetch & Hret & Hs' & Hws' & Hall'
          & Hitr' & Hback' & Hnum').
    rewrite (bind_ok _ _ _ _ _ Hfetch).
    exact (Hcount catch _ _ _ _ (Hcatch _ _ Hret) Hs' Hws' Hall' Hitr' Hback' Hnum').
Qed.

End ThreadEpoch.

(** *** What the thread enqueues, step by step and by itself *)

Section Link.
Context `{Runtime}.

(** The packets that the thread enqueues under a clear stop flag are
    those that [ChunkQueue.chunk_logic_loop] records. *)
Lemma chunk_logic_loop_outputs (dataloader : LoaderBase)
    (except : exn -> Threads.process) (after : option (list Row) -> Threads.process)
    (groups : list (result (list (list Row)))) :
  forall (spill : option (list Row)) (q : ChunkQueue.t),
    ChunkQueue.stopped q = false ->
    exists outs,
      (ChunkQueue.chunk_logic_loop dataloader groups spill q).1
      = ChunkQueue.set_q_out (ChunkQueue.q_out q ++ outs) q /\
      Threads.outputs
        (Threads.chunk_logic_loop dataloader (ChunkQueue.shuffle q) groups spill
           except after)
      = outs ++ match (ChunkQueue.chunk_logic_loop dataloader groups spill q).2 with
                | Ok (ChunkQueue.Next spill') => Threads.outputs (after spill')
                | Ok ChunkQueue.Return => []
                | Raise e => Threads.outputs (except e)
                | Blocked => []
                end.
Proof.
  induction groups as [|group groups IH]; intros spill q Hq.
  - exists []. cbn. rewrite app_nil_r, set_q_out_id. auto.
  - destruct group as [chunks|e|].
    2:{ exists []. cbn. rewrite app_nil_r, set_q_out_id. auto. }
    2:{ exists []. cbn. rewrite app_nil_r, set_q_out_id. auto. }
    cbn [ChunkQueue.chunk_logic_loop Threads.chunk_logic_loop Threads.outputs].
    st_unfold. cbn beta. unfold ChunkQueue.stopped in *. rewrite Hq. cbn beta iota.
    destruct (ChunkQueue.get_batch_div_chunk _ _) as [[head tail]|e|].
    2:{ exists []. cbn. rewrite app_nil_r, set_q_out_id. auto. }
    2:{ exists []. cbn. rewrite app_nil_r, set_q_out_id. auto. }
    cbn beta iota.
    set (shuffled := if ChunkQueue.shuffle q then shuffle_df head else head).
    destruct (0 <? len shuffled); [|apply IH, Hq].
    destruct (make_tensors dataloader shuffled) as [tensors|e|].
    2:{ exists []. cbn. rewrite app_nil_r, set_q_out_id. auto. }
    2:{ exists []. cbn. rewrite app_nil_r, set_q_out_id. auto. }
    unfold ChunkQueue.put, ChunkQueue.stopped. rewrite Hq. cbn [Threads.outputs].
    destruct (IH (Some tail)
                (ChunkQueue.set_q_out (ChunkQueue.q_out q ++ [ChunkQueue.Batches tensors]) q)
                Hq) as (outs & Hstate & Houts).
    exists (ChunkQueue.Batches tensors :: outs). split.
    + rewrite Hstate. cbn. rewrite <- app_assoc. reflexivity.
    + cbn [ChunkQueue.shuffle ChunkQueue.set_q_out] in Houts. rewrite Houts. reflexivity.
Qed.

Lemma load_chunks_outputs (dataloader : LoaderBase) (q : ChunkQueue.t) :
  ChunkQueue.stopped q = false ->
  (ChunkQueue.load_chunks dataloader q).1
  = ChunkQueue.set_q_out
      (ChunkQueue.q_out q ++ Threads.outputs (Threads.load_chunks dataloader q)) q.
Proof.
  intros Hq. unfold ChunkQueue.load_chunks, ChunkQueue.chunk_logic,
    Threads.load_chunks, Threads.chunk_logic.
  unfold mbind at 1. unfold st_bind at 1. cbn [gets id].
  unfold mbind at 1. unfold st_bind at 1.
  match goal with
  | |- context [Threads.chunk_logic_loop _ _ _ _ ?except ?after] =>
      destruct (chunk_logic_loop_outputs dataloader except after
                  (ChunkQueue.batch q (ChunkQueue.itr q)) None q Hq)
        as (outs & Hstate & Houts)
  end.
  rewrite Houts. clear Houts.
  destruct (ChunkQueue.chunk_logic_loop dataloader _ None q) as [q1 r].
  cbn in Hstate. subst q1. cbn [snd].
  assert (Hq1 : ChunkQueue.stopped (ChunkQueue.set_q_out (ChunkQueue.q_out q ++ outs) q)
                = false) by exact Hq.
  set (q1 := ChunkQueue.set_q_out (ChunkQueue.q_out q ++ outs) q) in *.
  destruct r as [[spill|]|e|].
  - destruct spill as [sp|]; [|cbn; rewrite app_nil_r; reflexivity].
    destruct (negb (drop_last dataloader) && negb (bool_decide (sp = [])));
      [|cbn; rewrite app_nil_r; reflexivity].
    st_unfold. destruct (make_tensors dataloader sp) as [tensors|e|].
    + unfold ChunkQueue.put. rewrite Hq1. cbn. rewrite <- app_assoc. reflexivity.
    + unfold ChunkQueue.put. rewrite Hq1. cbn. rewrite <- app_assoc. reflexivity.
    + cbn. rewrite app_nil_r. reflexivity.
  - cbn. rewrite app_nil_r. reflexivity.
  - unfold ChunkQueue.put. rewrite Hq1. cbn. rewrite <- app_assoc. reflexivity.
  - cbn. rewrite app_nil_r. reflexivity.
Qed.

Lemma make_tensors_filled (dataloader : LoaderBase) (gdf : list Row)
    (tensors : list (list Row)) :
  1 <= batch_size dataloader -> gdf <> [] ->
  make_tensors dataloader gdf = Ok tensors -> tensors <> [].
Proof.
  intros Hb Hne Hrun.
  destruct (make_tensors_spec dataloader gdf Hb) as (batches & Hrun' & Hcat & _).
  { unfold len. destruct gdf; [congruence | cbn; lia]. }
  rewrite Hrun in Hrun'. injection Hrun' as <-. intros ->. cbn in Hcat. congruence.
Qed.

Lemma chunk_logic_loop_filled (dataloader : LoaderBase) (shuffle : bool)
    (except : exn -> Threads.process) (after : option (list Row) -> Threads.process)
    (groups : list (result (list (list Row)))) :
  1 <= batch_size dataloader ->
  (forall e, Forall filled (Threads.outputs (except e))) ->
  (forall spill, Forall filled (Threads.outputs (after spill))) ->
  forall spill,
    Forall filled
      (Threads.outputs
         (Threads.chunk_logic_loop dataloader shuffle groups spill except after)).
Proof.
  intros Hb Hexcept Hafter.
  induction groups as [|group groups IH]; intros spill; [apply Hafter|].
  destruct group as [chunks|e|]; [|apply Hexcept | constructor].
  cbn [Threads.chunk_logic_loop Threads.outputs].
  destruct (ChunkQueue.get_batch_div_chunk _ _) as [[head tail]|e|];
    [|apply Hexcept | constructor].
  cbn beta iota.
  set (shuffled := if shuffle then shuffle_df head else head).
  destruct (Z.ltb_spec 0 (len shuffled)) as [Hlen|_]; [|apply IH].
  destruct (make_tensors dataloader shuffled) as [tensors|e|] eqn:Hmake;
    [|apply Hexcept | constructor].
  cbn [Threads.outputs]. apply Forall_cons. split; [|apply IH].
  cbn. apply (make_tensors_filled dataloader shuffled); [exact Hb| |exact Hmake].
  intros Heq. rewrite Heq in Hlen. unfold len in Hlen. cbn in Hlen. lia.
Qed.

Lemma load_chunks_filled (dataloader : LoaderBase) (q : ChunkQueue.t) :
  1 <= batch_size dataloader ->
  Forall filled (Threads.outputs (Threads.load_chunks dataloader q)).
Proof.
  intros Hb. unfold Threads.load_chunks, Threads.chunk_logic.
  apply chunk_logic_loop_filled; [exact Hb| |].
  - intros e. cbn. repeat constructor.
  - intros [sp|]; [|constructor].
    destruct (negb (drop_last dataloader) && negb (bool_decide (sp = []))) eqn:Hcond;
      [|constructor].
    apply andb_prop in Hcond as [_ Hsp]. apply negb_true_iff in Hsp.
    apply bool_decide_eq_false in Hsp.
    destruct (make_tensors dataloader sp) as [tensors|e|] eqn:Hmake.
    + cbn. repeat constructor.
      apply (make_tensors_filled dataloader sp); assumption.
    + cbn. repeat constructor.
    + constructor.
Qed.

Lemma packet_batches_Batches (packets : list (list (list Row))) :
  Threads.packet_batches (ChunkQueue.Batches <$> packets) = concat packets.
Proof.
  unfold Threads.packet_batches. rewrite <- list_fmap_compose.
  f_equal. induction packets as [|p packets IH]; [reflexivity|].
  cbn. rewrite IH. reflexivity.
Qed.

Lemma filled_some_batches (packets : list (list (list Row))) :
  Forall filled (ChunkQueue.Batches <$> packets) ->
  Forall Threads.some_batches (ChunkQueue.Batches <$> packets).
Proof.
  rewrite !Forall_fmap. intros Hall. eapply Forall_impl; [exact Hall|].
  intros p Hp. exists p. auto.
Qed.

End Link.

(** *** One epoch under any schedule *)

Section EndToEnd.
Context `{Runtime}.
Context (sched : nat -> nat).
Context (handle : list Row -> result (gmap string Entry * option Entry)).
Context (tensor_len : tensor -> Z).

Lemma set_buff_id (self : Loader) (q : ChunkQueue.t) :
  __buff self = Some q -> set_buff (Some q) self = self.
Proof. destruct self. cbn. intros ->. reflexivity. Qed.

(** [__iter__] on a loader that has neither queue nor workers. *)
Lemma iter_fresh_serves (self : Loader) (w0 : Threads.process) (t0 : nat)
    (stream : list (result (list Row))) (n : Z) :
  __buff self = None -> _workers self = None ->
  _data_iter self (_epochs self) = Ok (stream, n) ->
  let q :=
    {| ChunkQueue.num_parts := parts_per_chunk (attrs self);
       ChunkQueue.shuffle := shuffle (attrs self);
       ChunkQueue._stop_event := false;
       ChunkQueue.q_out := [];
       ChunkQueue.itr := stream;
       ChunkQueue.itr_len := n |} in
  exists sys' self',
    Threads.__iter__ sched {| Threads.loader := self; Threads.worker := w0;
                              Threads.ticks := t0 |}
    = (sys', Ok tt) /\
    Threads.serves self' (Threads.outputs (Threads.load_chunks (attrs self) q)) sys' /\
    _workers self' = Some [ {| is_alive := true |} ] /\
    _batch_itr self' = None /\ num_rows_processed self' = 0 /\
    attrs self' = attrs self.
Proof.
  intros Hbuff Hw Hdata q.
  set (sys0 := {| Threads.loader := self; Threads.worker := w0; Threads.ticks := t0 |}).
  set (l3 := set_buff (Some q) (set_num_rows_processed 0 (set_batch_itr None self))).
  assert (Hstop : Threads.stop sched sys0
                  = (Threads.set_loader (set_batch_itr None self) sys0, Ok tt)).
  { unfold Threads.stop. unfold mbind at 1. unfold st_bind at 1. cbn [gets].
    unfold sys0 at 1. cbn [Threads.loader]. rewrite Hw.
    rewrite (bind_ok (mret tt) _ sys0 sys0 tt eq_refl). reflexivity. }
  assert (Hbuff3 : Threads.on_loader _buff
                     (Threads.set_loader
                        (set_num_rows_processed 0 (set_batch_itr None self)) sys0)
                   = (Threads.set_loader l3 sys0, Ok q)).
  { unfold Threads.on_loader, _buff. cbn. rewrite Hbuff.
    change (_data_iter (set_num_rows_processed 0 (set_batch_itr None self)) (_epochs self))
      with (_data_iter self (_epochs self)).
    rewrite Hdata. reflexivity. }
  assert (Hstep : exists l4,
            (if shuffle (attrs l3) then Threads.on_loader _shuffle_indices else mret tt)
              (Threads.set_loader l3 sys0)
            = (Threads.set_loader l4 sys0, Ok tt) /\
            __buff l4 = Some q /\ _batch_itr l4 = None /\
            num_rows_processed l4 = 0 /\ attrs l4 = attrs self).
  { destruct (shuffle (attrs l3)).
    - unfold Threads.on_loader, _shuffle_indices, modify. cbn.
      destruct (random_shuffle _ _) as [shuffled rs]. eexists. split; [reflexivity|].
      cbn. auto.
    - exists l3. split; [reflexivity|]. cbn. auto. }
  destruct Hstep as (l4 & Hshuffle & Hq4 & Hitr4 & Hnum4 & Hattrs4).
  assert (Hbuff5 : Threads.on_loader _buff
                     (Threads.set_loader (set_workers (Some []) l4) sys0)
                   = (Threads.set_loader (set_workers (Some []) l4) sys0, Ok q)).
  { unfold Threads.on_loader, _buff. cbn. rewrite Hq4. reflexivity. }
  unfold Threads.__iter__.
  rewrite (bind_ok _ _ _ _ _ Hstop).
  unfold mbind at 1. unfold st_bind at 1.
  unfold Threads.on_loader at 1. cbn [modify Threads.loader Threads.set_loader].
  rewrite (bind_ok _ _ _ _ _ Hbuff3). cbn [ChunkQueue.stopped ChunkQueue._stop_event q].
  rewrite (bind_ok (mret tt) _ _ _ tt eq_refl).
  unfold mbind at 1. unfold st_bind at 1. cbn [gets Threads.loader Threads.set_loader].
  rewrite (bind_ok _ _ _ _ _ Hshuffle).
  unfold mbind at 1. unfold st_bind at 1.
  unfold Threads.on_loader at 1. cbn [modify Threads.loader Threads.set_loader].
  rewrite (bind_ok _ _ _ _ _ Hbuff5).
  unfold mbind at 1. unfold st_bind at 1. cbn [modify].
  unfold Threads.on_loader. cbn.
  eexists. exists (set_workers (Some [ {| is_alive := true |} ]) l4).
  split; [reflexivity|]. split; [|cbn; auto].
  exists q. cbn. split; [|split; reflexivity].
  rewrite <- (set_buff_id l4 q Hq4) at 1. reflexivity.
Qed.

(** The call of [_get_next_batch] once nothing is left to come: it
    raises [StopIteration] if the worker has returned by the time the
    consumer looks, and waits on the queue for ever if not. *)
Lemma get_next_batch_at_end (self : Loader) (sys : Threads.System)
    (t : Thread) (ts : list Thread) :
  Threads.serves self [] sys -> _workers self = Some (t :: ts) ->
  default [] (_batch_itr self) = [] ->
  let '(sys', r) := Threads._get_next_batch sched handle tensor_len sys in
  r = Blocked \/
  (r = Raise StopIteration /\
   _workers (Threads.loader sys') = None /\ _batch_itr (Threads.loader sys') = None).
Proof.
  intros Hs Hws Hitr. unfold Threads._get_next_batch.
  rewrite (bind_ok _ _ _ _ _ (gets_serves _workers _ _ _ ltac:(reflexivity) Hs)).
  rewrite Hws. cbn match.
  rewrite (bind_ok (mret tt) _ sys sys tt eq_refl).
  rewrite (bind_ok _ _ _ _ _ (gets_serves _batch_itr _ _ _ ltac:(reflexivity) Hs)).
  destruct (_batch_itr self) as [current|] eqn:Hcurrent.
  - cbn in Hitr. subst current.
    rewrite (bind_ok (mret tt) _ sys sys tt eq_refl).
    destruct (on_loader_serves (next_batch handle) _ _ _ (buff_free_next_batch handle) Hs)
      as (sys1 & Hnext & Hs1 & _).
    unfold next_batch in Hnext at 2, Hs1. rewrite Hcurrent in Hnext, Hs1.
    cbn in Hnext, Hs1.
    unfold mbind at 1. unfold st_bind at 1. rewrite Hnext.
    destruct (working_serves sched _ _ _ t ts Hs1 Hws) as (sys2 & Hworking & Hs2).
    rewrite (bind_ok _ _ _ _ _ Hworking).
    destruct (Threads.alive (Threads.worker sys2)) eqn:Halive.
    + rewrite (bind_ok (mret false) _ sys2 sys2 false eq_refl).
      pose proof (fetch_chunk_blocks sched _ _ Hs2) as Hfetch.
      destruct (Threads._fetch_chunk sched sys2) as [sys3 r] eqn:Hrun.
      cbn in Hfetch. subst r. rewrite (bind_blocked _ _ _ _ Hrun). left. reflexivity.
    + assert (Hexit : Threads.worker sys2 = Threads.Exit)
        by (destruct (Threads.worker sys2); try discriminate; reflexivity).
      destruct (empty_serves sched _ _ _ Hs2 Hexit) as (sys3 & Hempty & Hs3 & _).
      rewrite bool_decide_eq_true_2 in Hempty by reflexivity.
      rewrite (bind_ok _ _ _ _ _ Hempty).
      destruct Hs3 as (q & Hl & _).
      unfold Threads.on_loader, modify, raise. st_unfold. cbn. right. auto.
  - pose proof (fetch_chunk_blocks sched _ _ Hs) as Hfetch.
    destruct (Threads._fetch_chunk sched sys) as [sys1 r] eqn:Hrun.
    cbn in Hfetch. subst r. rewrite (bind_blocked _ _ _ _ Hrun). left. reflexivity.
Qed.

Lemma some_batches_nil (pending : list ChunkQueue.packet) :
  Forall Threads.some_batches pending -> Threads.packet_batches pending = [] ->
  pending = [].
Proof.
  intros Hall Hnil. destruct pending as [|packet pending]; [reflexivity|].
  apply Forall_cons in Hall as [(batches & -> & Hne) _].
  unfold Threads.packet_batches in Hnil. cbn in Hnil.
  apply app_eq_nil in Hnil as [-> _]. congruence.
Qed.

(** The consumer gets every batch that is to come, in order, whatever the
    schedule. *)
Lemma next_n_serves (outs : list (gmap string Entry * option Entry)) :
  forall (self : Loader) (pending : list ChunkQueue.packet) (sys : Threads.System)
         (t : Thread) (ts : list Thread),
    Threads.serves self pending sys -> _workers self = Some (t :: ts) ->
    Forall Threads.some_batches pending ->
    Forall2 (fun rows out => handle rows = Ok out)
      (default [] (_batch_itr self) ++ Threads.packet_batches pending) outs ->
    exists sys' self',
      Threads.next_n sched handle tensor_len (length outs) sys = (sys', Ok outs) /\
      Threads.serves self' [] sys' /\ _workers self' = Some (t :: ts) /\
      default [] (_batch_itr self') = [] /\
      num_rows_processed self'
      = num_rows_processed self + sumZ (count_batch tensor_len <$> outs).
Proof.
  induction outs as [|b outs IH]; intros self pending sys t ts Hs Hws Hall Hhandle.
  - apply Forall2_nil_inv_r in Hhandle. apply app_eq_nil in Hhandle as [Hitr Hnil].
    rewrite (some_batches_nil _ Hall Hnil) in Hs.
    exists sys, self. cbn. repeat split; try assumption. unfold sumZ. cbn. lia.
  - apply Forall2_cons_inv_r in Hhandle as (rows & rest & Hrows & Hrest & Hback).
    destruct (get_next_batch_serves sched handle tensor_len _ _ _ rows rest b t ts
                Hs Hws Hall Hback Hrows)
      as (sys1 & self1 & pending1 & Hrun & Hs1 & Hws1 & Hall1 & _ & Hback1 & Hnum1).
    rewrite <- Hback1 in Hrest.
    destruct (IH _ _ _ t ts Hs1 Hws1 Hall1 Hrest)
      as (sys' & self' & Hruns & Hs' & Hws' & Hitr' & Hnum').
    exists sys', self'. split; [|repeat split; try assumption].
    + cbn [length Threads.next_n]. rewrite (bind_ok _ _ _ _ _ Hrun).
      rewrite (bind_ok _ _ _ _ _ Hruns). reflexivity.
    + rewrite Hnum', Hnum1. unfold sumZ. cbn. lia.
Qed.

Lemma handle_all (batches : list (list Row)) :
  (forall rows, is_ok (handle rows) = true) ->
  exists outs, Forall2 (fun rows out => handle rows = Ok out) batches outs.
Proof.
  intros Hhandle. induction batches as [|rows batches [outs IH]].
  - exists []. constructor.
  - specialize (Hhandle rows). destruct (handle rows) as [out| |] eqn:Hout;
      try discriminate.
    exists (out :: outs). constructor; assumption.
Qed.

End EndToEnd.

Section EpochRows.
Context `{Runtime}.

(** C1. Take a loader on which no iteration is under way, with
    [batch_size >= 1], whose partitions [parts], [R] rows in all, are
    read without error, and a conversion [handle] of batches that does
    not fail.  Under every schedule of the worker thread, [__iter__]
    followed by calls of [_get_next_batch] yields, one per call, the
    conversions of batches whose row counts sum to [R], or to
    [floor(R / batch_size) * batch_size] under [drop_last].  The batches
    hold, each row once, all the input rows, or under [drop_last] all but
    the last [R mod batch_size] ones, the final undersized spill; without
    shuffling they hold them in the input order.  No batch is empty or
    longer than [batch_size].  The call after the last batch yields
    nothing: it raises [StopIteration], or it waits in [q_out.get()] for
    ever when the thread has not returned yet. *)
Theorem epoch_rows_accounted (sched : nat -> nat)
    (handle : list Row -> result (gmap string Entry * option Entry))
    (tensor_len : tensor -> Z)
    (self : Loader) (parts : list (list Row)) (n : Z)
    (w0 : Threads.process) (t0 : nat)
    (Hbuff : __buff self = None)
    (Hworkers : _workers self = None)
    (Hb : 1 <= batch_size (attrs self))
    (Hshuffle : forall chunk : list Row, shuffle_df chunk ≡ₚ chunk)
    (Hdata : _data_iter self (_epochs self) = Ok (Ok <$> parts, n))
    (Hhandle : forall rows, is_ok (handle rows) = true) :
  let rows := concat parts in
  let R := len rows in
  let b := batch_size (attrs self) in
  let kept := if drop_last (attrs self) then take (Z.to_nat (R / b * b)) rows else rows in
  exists (batches : list (list Row))
         (outs : list (gmap string Entry * option Entry)) (sys : Threads.System),
    (_ ← Threads.__iter__ sched;
     Threads.next_n sched handle tensor_len (length batches))
      {| Threads.loader := self; Threads.worker := w0; Threads.ticks := t0 |}
    = (sys, Ok outs) /\
    Forall2 (fun rows out => handle rows = Ok out) batches outs /\
    (let '(sys', r) := Threads._get_next_batch sched handle tensor_len sys in
     r = Blocked \/
     (r = Raise StopIteration /\
      _workers (Threads.loader sys') = None /\ _batch_itr (Threads.loader sys') = None)) /\
    sumZ (len <$> batches) = (if drop_last (attrs self) then R / b * b else R) /\
    concat batches ≡ₚ kept /\
    (shuffle (attrs self) = false -> concat batches = kept) /\
    Forall (fun batch => 1 <= len batch <= b) batches.
Proof.
  intros rows R b kept.
  destruct (iter_fresh_serves sched self w0 t0 (Ok <$> parts) n Hbuff Hworkers Hdata)
    as (sys1 & self1 & Hiter & Hs1 & Hws1 & Hitr1 & _).
  set (q := {| ChunkQueue.num_parts := parts_per_chunk (attrs self);
               ChunkQueue.shuffle := shuffle (attrs self);
               ChunkQueue._stop_event := false;
               ChunkQueue.q_out := [];
               ChunkQueue.itr := Ok <$> parts;
               ChunkQueue.itr_len := n |}) in *.
  destruct (load_chunks_rows_accounted (attrs self) q parts Hb Hshuffle eq_refl eq_refl)
    as (packets & Hload & Hsum & Hperm & Horder & Hsizes).
  assert (Houts : Threads.outputs (Threads.load_chunks (attrs self) q)
                  = ChunkQueue.Batches <$> packets).
  { pose proof (load_chunks_outputs (attrs self) q eq_refl) as Hlink.
    rewrite Hload in Hlink. cbn in Hlink.
    apply (f_equal ChunkQueue.q_out) in Hlink. cbn in Hlink. symmetry. exact Hlink. }
  assert (Hall : Forall Threads.some_batches (ChunkQueue.Batches <$> packets)).
  { apply filled_some_batches. rewrite <- Houts. apply load_chunks_filled, Hb. }
  rewrite Houts in Hs1.
  destruct (handle_all handle (concat packets) Hhandle) as (outs & Hhandled).
  destruct (next_n_serves sched handle tensor_len outs self1 _ sys1 _ [] Hs1 Hws1 Hall)
    as (sys' & self' & Hruns & Hs' & Hws' & Hitr' & _).
  { rewrite Hitr1, packet_batches_Batches. exact Hhandled. }
  exists (concat packets), outs, sys'. split.
  { rewrite (bind_ok _ _ _ _ _ Hiter).
    rewrite (Forall2_length _ _ _ Hhandled). exact Hruns. }
  split; [exact Hhandled|]. split.
  { exact (get_next_batch_at_end sched handle tensor_len self' sys' _ [] Hs' Hws' Hitr'). }
  auto.
Qed.

End EpochRows.

(** *** The waits of the consumer are runs of the thread *)

Section Waits.
Context `{Runtime}.

Lemma steps_app (n m : nat) (w : Threads.process) (q : ChunkQueue.t) :
  Threads.steps (n + m) w q
  = Threads.steps m (Threads.steps n w q).1 (Threads.steps n w q).2.
Proof.
  revert w q. induction n as [|n IH]; intros w q; [reflexivity|].
  cbn [Nat.add Threads.steps]. destruct (Threads.step w q) as [w1 q1]. apply IH.
Qed.

(** What goes on while the consumer waits in [get] is a run of the
    worker, step by step. *)
Lemma until_put_steps (w : Threads.process) :
  forall q : ChunkQueue.t, exists n, Threads.until_put w q = Threads.steps n w q.
Proof.
  induction w as [| | |k IH|packet k IH|packet k IH]; intros q;
    destruct (ChunkQueue.q_out q) as [|p out] eqn:Hout;
    try (exists 0%nat; cbn; rewrite ?Hout; reflexivity).
  - exists 1%nat. cbn. rewrite Hout. reflexivity.
  - destruct (IH (ChunkQueue.stopped q) q) as (n & Hn). exists (S n).
    cbn. rewrite Hout. exact Hn.
  - destruct (ChunkQueue.stopped q) eqn:Hq.
    + destruct (IH true q) as (n & Hn). exists (S n). cbn. rewrite Hout, Hq. exact Hn.
    + exists 2%nat. cbn [Threads.until_put Threads.steps]. rewrite Hout, Hq.
      unfold Threads.step at 1. rewrite Hq. unfold Threads.step. rewrite Hout.
      reflexivity.
  - exists 1%nat. cbn [Threads.until_put Threads.steps]. rewrite Hout.
    unfold Threads.step. rewrite Hout. reflexivity.
Qed.

(** A wait in [join] that ends is a run of the worker up to its return. *)
Lemma join_steps (w : Threads.process) :
  forall q q' : ChunkQueue.t,
    Threads.join w q = (q', Ok tt) ->
    exists n, Threads.steps n w q = (Threads.Exit, q').
Proof.
  induction w as [| | |k IH|packet k IH|packet k IH]; intros q q' Hjoin;
    cbn [Threads.join] in Hjoin.
  - injection Hjoin as <-. exists 0%nat. reflexivity.
  - injection Hjoin as <-. exists 1%nat. reflexivity.
  - discriminate.
  - destruct (IH _ _ _ Hjoin) as (n & Hn). exists (S n). exact Hn.
  - destruct (ChunkQueue.stopped q) eqn:Hq.
    + destruct (IH _ _ _ Hjoin) as (n & Hn). exists (S n). cbn. rewrite Hq. exact Hn.
    + destruct (len (ChunkQueue.q_out q) <? Threads.qsize) eqn:Hroom; [|discriminate].
      destruct (IH _ _ _ Hjoin) as (n & Hn). exists (S (S n)). cbn.
      rewrite Hq. cbn. rewrite Hroom. exact Hn.
  - destruct (len (ChunkQueue.q_out q) <? Threads.qsize) eqn:Hroom.
    + destruct (IH _ _ _ Hjoin) as (n & Hn). exists (S n). cbn. rewrite Hroom. exact Hn.
    + destruct (ChunkQueue.stopped q) eqn:Hq; [|discriminate].
      destruct (IH _ _ _ Hjoin) as (n & Hn). exists (S (S n)). cbn.
      rewrite Hroom. cbn. rewrite Hq. exact Hn.
Qed.

(** The queue never holds more than [qsize] packets. *)
Lemma step_bounded (w : Threads.process) (q : ChunkQueue.t) :
  len (ChunkQueue.q_out q) <= Threads.qsize ->
  len (ChunkQueue.q_out (Threads.step w q).2) <= Threads.qsize.
Proof.
  intros Hlen. destruct w as [| | |k|packet k|packet k]; cbn; try exact Hlen.
  - destruct (ChunkQueue.stopped q); exact Hlen.
  - destruct (Z.ltb_spec (len (ChunkQueue.q_out q)) Threads.qsize) as [Hroom|_];
      [|exact Hlen].
    cbn. rewrite len_app. unfold len at 2. cbn. lia.
Qed.

End Waits.

(** *** Restarting *)

Section Restart.
Context `{Runtime}.
Context (sched : nat -> nat).

Lemma on_loader_ok_inv {A : Type} (m : st Loader A) (sys sys' : Threads.System) (a : A) :
  Threads.on_loader m sys = (sys', Ok a) ->
  exists self, m (Threads.loader sys) = (self, Ok a) /\ sys' = Threads.set_loader self sys.
Proof.
  unfold Threads.on_loader. destruct (m (Threads.loader sys)) as [self r].
  intros Heq. injection Heq as <- ->. eauto.
Qed.

(** Properties of the loader that do not depend on its queue are kept by
    the steps of the worker. *)
Lemma preserves_tick (P : Loader -> Prop) :
  (forall s v, P s -> P (set_buff v s)) ->
  preserves (fun sys => P (Threads.loader sys)) (Threads.tick sched).
Proof.
  intros HP sys Hs. unfold Threads.tick, modify, Threads.advance. cbn.
  destruct (__buff (Threads.loader sys)); [|exact Hs].
  destruct (Threads.steps _ _ _) as [w q']. cbn. apply HP, Hs.
Qed.

Lemma preserves_on_loader {A : Type} (P : Loader -> Prop) (m : st Loader A) :
  preserves P m -> preserves (fun sys => P (Threads.loader sys)) (Threads.on_loader m).
Proof.
  intros Hm sys Hs. unfold Threads.on_loader. specialize (Hm _ Hs).
  destruct (m (Threads.loader sys)) as [self r]. exact Hm.
Qed.

Lemma preserves_on_queue {A : Type} (P : Loader -> Prop) (m : st ChunkQueue.t A) :
  (forall s v, P s -> P (set_buff v s)) ->
  preserves (fun sys => P (Threads.loader sys)) (Threads.on_queue sched m).
Proof.
  intros HP. unfold Threads.on_queue.
  apply preserves_bind; [apply preserves_tick, HP|].
  intros _. apply preserves_on_loader, preserves_on_buff, HP.
Qed.

Lemma steps_flag (n : nat) :
  forall (w : Threads.process) (q : ChunkQueue.t),
    ChunkQueue.stopped (Threads.steps n w q).2 = ChunkQueue.stopped q.
Proof.
  induction n as [|n IH]; intros w q; [reflexivity|].
  cbn [Threads.steps]. destruct (Threads.step w q) as [w1 q1] eqn:Hstep.
  rewrite IH. destruct w as [| | |k|packet k|packet k]; cbn in Hstep.
  - injection Hstep as <- <-. reflexivity.
  - injection Hstep as <- <-. reflexivity.
  - injection Hstep as <- <-. reflexivity.
  - injection Hstep as <- <-. reflexivity.
  - destruct (ChunkQueue.stopped q) eqn:Hq; injection Hstep as <- <-; congruence.
  - destruct (len (ChunkQueue.q_out q) <? Threads.qsize); injection Hstep as <- <-;
      reflexivity.
Qed.

Lemma tick_flag (sys : Threads.System) (q : ChunkQueue.t) :
  __buff (Threads.loader sys) = Some q ->
  exists q', __buff (Threads.loader (Threads.tick sched sys).1) = Some q' /\
             ChunkQueue.stopped q' = ChunkQueue.stopped q.
Proof.
  intros Hq. unfold Threads.tick, modify, Threads.advance. cbn. rewrite Hq.
  pose proof (steps_flag (sched (Threads.ticks sys)) (Threads.worker sys) q) as Hflag.
  destruct (Threads.steps _ _ q) as [w q']. cbn in *. eauto.
Qed.

(** A thread that has just been started is alive. *)
Lemma load_chunks_alive (dataloader : LoaderBase) (q : ChunkQueue.t) :
  Threads.alive (Threads.load_chunks dataloader q) = true.
Proof.
  unfold Threads.load_chunks, Threads.chunk_logic.
  destruct (ChunkQueue.batch q (ChunkQueue.itr q)) as [|[chunks|e|] groups]; cbn;
    try reflexivity.
Qed.

(** X19. A call of [__iter__] that returns leaves the loader with a
    queue whose stop flag is clear, also when the loader was stopped
    before, with one thread in [_workers], alive and at the start of
    [load_chunks] on that queue, without batch iterator and with the row
    counter at [0]. *)
Theorem iter_restarts_queue (sys sys' : Threads.System)
    (Hiter : Threads.__iter__ sched sys = (sys', Ok tt)) :
  exists (q : ChunkQueue.t) (t : Thread),
    __buff (Threads.loader sys') = Some q /\ ChunkQueue.stopped q = false /\
    _workers (Threads.loader sys') = Some [t] /\
    Threads.worker sys' = Threads.load_chunks (attrs (Threads.loader sys')) q /\
    Threads.alive (Threads.worker sys') = true /\
    _batch_itr (Threads.loader sys') = None /\
    num_rows_processed (Threads.loader sys') = 0.
Proof.
  unfold Threads.__iter__ in Hiter.
  apply bind_ok_inv in Hiter as (s1 & [] & Hstop & Hiter).
  apply bind_ok_inv in Hiter as (s2 & [] & Hset & Hiter).
  apply bind_ok_inv in Hiter as (s3 & q3 & Hbuff & Hiter).
  apply bind_ok_inv in Hiter as (s4 & [] & Hstart & Hiter).
  apply bind_ok_inv in Hiter as (s5 & self5 & Hget & Hiter).
  injection Hget as <- <-.
  apply bind_ok_inv in Hiter as (s6 & [] & Hshuffle & Hiter).
  apply bind_ok_inv in Hiter as (s7 & [] & Hempty & Hiter).
  apply bind_ok_inv in Hiter as (s8 & q8 & Hbuff8 & Hiter).
  apply bind_ok_inv in Hiter as (s9 & [] & Hworker & Hiter).
  injection Hworker as <-.
  apply on_loader_ok_inv in Hiter as (l10 & Hl10 & ->).
  injection Hl10 as <-.
  (* the batch iterator and the counter *)
  assert (H2 : _batch_itr (Threads.loader s2) = None /\
               num_rows_processed (Threads.loader s2) = 0).
  { unfold Threads.stop in Hstop.
    apply bind_ok_inv in Hstop as (s0 & workers & _ & Hstop).
    apply bind_ok_inv in Hstop as (s0' & [] & _ & Hlast).
    apply on_loader_ok_inv in Hlast as (l1 & Hl1 & ->). injection Hl1 as <-.
    apply on_loader_ok_inv in Hset as (l2 & Hl2 & ->). injection Hl2 as <-.
    cbn. auto. }
  set (P := fun self : Loader => _batch_itr self = None /\ num_rows_processed self = 0).
  assert (HP : forall s v, P s -> P (set_buff v s)) by (intros s v Hs; exact Hs).
  assert (H3 : P (Threads.loader s3) /\ __buff (Threads.loader s3) = Some q3).
  { apply on_loader_ok_inv in Hbuff as (l3 & Hl3 & ->). cbn.
    destruct (buff_ok_state _ _ _ Hl3) as (Hq3 & _ & Hitr3 & Hnum3).
    split; [|exact Hq3]. unfold P. destruct H2 as [Hitr2 Hnum2]. split; congruence. }
  destruct H3 as [HP3 Hq3].
  assert (H4 : P (Threads.loader s4) /\ started (Threads.loader s4)).
  { destruct (ChunkQueue.stopped q3) eqn:Hflag.
    - split.
      + pose proof (preserves_on_queue P ChunkQueue.start HP s3 HP3) as Hkeep.
        rewrite Hstart in Hkeep. exact Hkeep.
      + unfold Threads.on_queue in Hstart.
        apply bind_ok_inv in Hstart as (s3' & [] & Htick & Hstart).
        destruct (tick_flag s3 q3 Hq3) as (q3' & Hq3' & _).
        rewrite Htick in Hq3'. cbn in Hq3'.
        apply on_loader_ok_inv in Hstart as (l4 & Hl4 & ->).
        apply on_buff_ok_inv in Hl4 as (l4' & q4 & Hb4 & -> & _).
        eexists. cbn. split; [reflexivity|].
        unfold _buff in Hb4. rewrite Hq3' in Hb4. injection Hb4 as <- <-. reflexivity.
    - injection Hstart as <-. split; [exact HP3|]. exists q3. auto. }
  destruct H4 as [HP4 (q4 & Hq4 & Hflag4)].
  assert (H6 : P (Threads.loader s6) /\ __buff (Threads.loader s6) = Some q4 /\
               attrs (Threads.loader s6) = attrs (Threads.loader s4)).
  { destruct (shuffle (attrs (Threads.loader s4))).
    - apply on_loader_ok_inv in Hshuffle as (l6 & Hl6 & ->). cbn.
      unfold _shuffle_indices, modify in Hl6.
      destruct (random_shuffle _ _) as [shuffled rs]. injection Hl6 as <-.
      cbn. auto.
    - injection Hshuffle as <-. auto. }
  destruct H6 as (HP6 & Hq6 & Hattrs6).
  apply on_loader_ok_inv in Hempty as (l7 & Hl7 & ->). injection Hl7 as <-.
  apply on_loader_ok_inv in Hbuff8 as (l8 & Hl8 & ->). cbn in Hl8.
  unfold _buff in Hl8. cbn in Hl8. rewrite Hq6 in Hl8. injection Hl8 as <- <-.
  exists q4, {| is_alive := true |}. cbn.
  split; [exact Hq6|]. split; [exact Hflag4|]. split; [reflexivity|].
  split; [rewrite Hattrs6; reflexivity|].
  split; [apply load_chunks_alive | exact HP6].
Qed.

End Restart.

(** ** Sharding of a permuted index array *)

Section Sharding.
Context `{Runtime}.

(** The entries of a slice, position by position. *)
Lemma slice_positions (l : list Z) (pw r : Z) :
  1 <= pw -> 0 <= r ->
  Forall2 (fun pos idx => l !! Z.to_nat pos = Some idx)
    (shard_block (len l) pw r)
    (slice l (Some (r * pw)) (Some (r * pw + pw))).
Proof.
  intros Hpw Hr. assert (0 <= r * pw) by nia.
  rewrite slice_between by lia. unfold shard_block.
  replace (r * pw + pw - r * pw) with pw by lia.
  apply Forall2_same_length_lookup_2.
  - unfold len. rewrite length_seqZ, length_take, length_drop. lia.
  - intros i pos idx Hpos Hidx.
    apply lookup_seqZ in Hpos as [-> Hi].
    rewrite lookup_take in Hidx. case_decide as Hlt; [|discriminate].
    rewrite lookup_drop in Hidx. rewrite <- Hidx. f_equal.
    apply lookup_lt_Some in Hidx. unfold len in *. lia.
Qed.

Lemma elem_of_slice_position (l : list Z) (pw r i : Z) :
  1 <= pw -> 0 <= r ->
  i ∈ slice l (Some (r * pw)) (Some (r * pw + pw))
  <-> exists pos, pos ∈ shard_block (len l) pw r /\ l !! Z.to_nat pos = Some i.
Proof.
  intros Hpw Hr. pose proof (slice_positions l pw r Hpw Hr) as Hall. split.
  - intros Hin. apply list_elem_of_lookup in Hin as (j & Hj).
    destruct (Forall2_lookup_r _ _ _ _ _ Hall Hj) as (pos & Hpos & Hl).
    exists pos. split; [|exact Hl]. apply list_elem_of_lookup. eauto.
  - intros (pos & Hin & Hl). apply list_elem_of_lookup in Hin as (j & Hj).
    destruct (Forall2_lookup_l _ _ _ _ _ Hall Hj) as (idx & Hidx & Hl').
    rewrite Hl in Hl'. injection Hl' as <-. apply list_elem_of_lookup. eauto.
Qed.

(** C5. For [P >= 1] partitions and [S >= 1] shards, with [per_shard]
    the ceiling of [P / S], and an index array [l] that holds
    [0, ..., P-1] in any order: a loader of rank [r], [0 <= r < S], gets
    an [IndexError] from [_indices_for_process] when [S > P], and
    otherwise the entries of [l] at the positions of the block
    [[r * per_shard, r * per_shard + per_shard)] clipped to [[0, P)].
    They are the block itself when [l] is in ascending order, as the
    constructor leaves it.  The entries of two different ranks share no
    index, and those of all ranks together are exactly [[0, P)]. *)
Theorem indices_for_process_spec (P S : Z) (l : list Z)
    (HP : 1 <= P) (HS : 1 <= S) (Hl : l ≡ₚ arange P) :
  exists (per_shard : Z) (blocks : Z -> list Z),
    (per_shard - 1) * S < P <= per_shard * S /\
    (forall self : Loader,
       indices self = l ->
       global_size (attrs self) = S ->
       0 <= global_rank (attrs self) < S ->
       (P < S -> _indices_for_process self = Raise IndexError) /\
       (S <= P -> _indices_for_process self = Ok (blocks (global_rank (attrs self))))) /\
    (forall r : Z,
       0 <= r ->
       Forall2 (fun pos idx => l !! Z.to_nat pos = Some idx)
         (shard_block P per_shard r) (blocks r)) /\
    (forall r i : Z,
       0 <= r ->
       i ∈ shard_block P per_shard r
       <-> r * per_shard <= i < r * per_shard + per_shard /\ 0 <= i < P) /\
    (l = arange P -> forall r : Z, 0 <= r -> blocks r = shard_block P per_shard r) /\
    (forall r1 r2 i : Z,
       0 <= r1 < S -> 0 <= r2 < S -> r1 <> r2 ->
       i ∈ blocks r1 -> i ∉ blocks r2) /\
    (forall i : Z, 0 <= i < P <-> exists r : Z, 0 <= r < S /\ i ∈ blocks r).
Proof.
  destruct (_num_steps_pos P S ltac:(lia)) as (pw & Hpw & Hceil).
  assert (Hpw1 : 1 <= pw) by nia.
  assert (Hlen : len l = P).
  { unfold len. rewrite (Permutation_length Hl). unfold arange.
    rewrite length_seqZ. lia. }
  assert (Hnodup : NoDup l) by (rewrite Hl; apply NoDup_seqZ).
  exists pw, (fun r => slice l (Some (r * pw)) (Some (r * pw + pw))).
  split; [exact Hceil|]. split; [|split; [|split; [|split; [|split]]]].
  - intros self Hidx Hsize Hrank.
    unfold _indices_for_process. rewrite Hidx, Hsize, Hlen. split; intros HSP.
    + destruct (Z.ltb_spec P S); [reflexivity | lia].
    + destruct (Z.ltb_spec P S); [lia|]. rewrite Hpw. reflexivity.
  - intros r Hr. rewrite <- Hlen. apply slice_positions; assumption.
  - intros r i Hr. rewrite elem_of_shard_block. split; [|tauto].
    intros [Hi ?]. split; [exact Hi|]. nia.
  - intros -> r Hr. assert (0 <= r * pw) by nia. apply slice_seqZ; lia.
  - intros r1 r2 i Hr1 Hr2 Hne Hin1 Hin2.
    apply elem_of_slice_position in Hin1 as (p1 & Hp1 & Hl1); [|lia..].
    apply elem_of_slice_position in Hin2 as (p2 & Hp2 & Hl2); [|lia..].
    apply elem_of_shard_block in Hp1 as [Hp1 _].
    apply elem_of_shard_block in Hp2 as [Hp2 _].
    assert (0 <= r1 * pw) by nia. assert (0 <= r2 * pw) by nia.
    pose proof (NoDup_lookup _ _ _ _ Hnodup Hl1 Hl2) as Heq. nia.
  - intros i. split.
    + intros Hi.
      assert (Hin : i ∈ l) by (rewrite Hl; apply elem_of_seqZ; lia).
      apply list_elem_of_lookup in Hin as (j & Hj).
      pose proof (lookup_lt_Some _ _ _ Hj) as Hlt.
      set (pos := Z.of_nat j). exists (pos / pw).
      pose proof (Z.div_mod pos pw ltac:(lia)) as Hdm.
      pose proof (Z.mod_pos_bound pos pw ltac:(lia)) as Hm.
      assert (0 <= pos / pw) by (apply Z.div_pos; lia).
      assert (pos < P) by (unfold pos, len in *; lia).
      split; [split; [lia | nia]|].
      apply elem_of_slice_position; [lia..|].
      exists pos. split; [apply elem_of_shard_block; nia|].
      unfold pos. rewrite Nat2Z.id. exact Hj.
    + intros (r & Hr & Hin).
      apply elem_of_slice_position in Hin as (pos & _ & Hpos); [|lia..].
      assert (Hin : i ∈ arange P).
      { rewrite <- Hl. apply list_elem_of_lookup. eauto. }
      apply elem_of_seqZ in Hin. lia.
Qed.

End Sharding.

(** ** List columns through [_handle_tensors] *)

Section Emitted.
Context `{Runtime}.

Lemma update_zip_lookup_ne (names : list string) :
  forall (d : gmap string Entry) (tensors : list tensor) (c : string),
    c ∉ names -> update_zip d names tensors !! c = d !! c.
Proof.
  unfold update_zip.
  induction names as [|name names IH]; intros d tensors c Hc; [reflexivity|].
  destruct tensors as [|t tensors]; [reflexivity|]. cbn.
  apply not_elem_of_cons in Hc as [Hne Hc].
  rewrite IH by exact Hc. apply lookup_insert_ne. congruence.
Qed.

Lemma assemble_columns_foldl (tensors : list Group) (tensor_names : list (list string)) :
  assemble_columns tensors tensor_names = foldl assemble_step ∅ (zip tensors tensor_names).
Proof. reflexivity. Qed.

(** The lookup of a column in what one round adds: the entry of the
    dictionary of list columns if there is one, and nothing for a column
    that the round does not name. *)
Lemma assemble_step_lists (tensor : tensor) (lists_opt : option (gmap string (list elem * list Z)))
    (names : list string) (c : string) :
  let base : gmap string Entry :=
    from_option (fmap (fun vi : list elem * list Z => Pair vi.1 vi.2)) ∅ lists_opt in
  let picked := filter (fun i => base !! i = None) names in
  (is_Some (base !! c) \/ c ∉ names) ->
  (if 1 <? len picked then update_zip base picked (_tensor_split tensor (len picked))
   else match picked with
        | [name] => <[name := Lone tensor]> base
        | _ => base
        end) !! c = base !! c.
Proof.
  intros base picked Hc.
  assert (Hnot : c ∉ picked).
  { unfold picked. rewrite list_elem_of_filter. intros [Hnone Hin].
    destruct Hc as [[v Hv]|Hout]; [congruence | contradiction]. }
  destruct (1 <? len picked); [apply update_zip_lookup_ne, Hnot|].
  destruct picked as [|name [|name' picked']]; try reflexivity.
  apply lookup_insert_ne. intros ->. apply Hnot. left.
Qed.

Lemma assemble_step_pair (X : gmap string Entry) (tensor : tensor)
    (lists : gmap string (list elem * list Z)) (names : list string)
    (c : string) (values : list elem) (index : list Z) :
  lists !! c = Some (values, index) ->
  assemble_step X ((tensor, Some lists), names) !! c = Some (Pair values index).
Proof.
  intros Hc. unfold assemble_step. apply lookup_union_Some_l.
  rewrite (assemble_step_lists tensor (Some lists) names c).
  - cbn. rewrite lookup_fmap, Hc. reflexivity.
  - left. cbn. rewrite lookup_fmap, Hc. cbn. eauto.
Qed.

Lemma assemble_step_other (X : gmap string Entry) (g : Group) (names : list string)
    (c : string) :
  c ∉ names -> (forall d, g.2 = Some d -> d !! c = None) ->
  assemble_step X (g, names) !! c = X !! c.
Proof.
  intros Hc Hd. destruct g as [tensor lists_opt]. unfold assemble_step.
  assert (Hbase : from_option (fmap (fun vi : list elem * list Z => Pair vi.1 vi.2)) ∅
                    lists_opt !! c = (None : option Entry)).
  { destruct lists_opt as [d|]; cbn; [|apply lookup_empty].
    rewrite lookup_fmap, (Hd d eq_refl). reflexivity. }
  apply lookup_union_r.
  rewrite (assemble_step_lists tensor lists_opt names c) by (right; exact Hc).
  exact Hbase.
Qed.

(** A list column comes out of the first loop as the pair that the last
    group naming it holds for it. *)
Lemma assemble_columns_pair (tensors : list Group) (tensor_names : list (list string))
    (i : nat) (t : tensor) (lists : gmap string (list elem * list Z))
    (c : string) (values : list elem) (index : list Z) :
  tensors !! i = Some (t, Some lists) -> is_Some (tensor_names !! i) ->
  lists !! c = Some (values, index) ->
  (forall (j : nat) (g : Group) (ns : list string),
     (i < j)%nat -> tensors !! j = Some g -> tensor_names !! j = Some ns ->
     (c ∉ ns) /\ forall d, g.2 = Some d -> d !! c = None) ->
  assemble_columns tensors tensor_names !! c = Some (Pair values index).
Proof.
  intros Ht [ns Hns] Hc Hlater. rewrite assemble_columns_foldl.
  assert (Hz : zip tensors tensor_names !! i = Some ((t, Some lists), ns)).
  { apply lookup_zip_with_Some. exists (t, Some lists), ns. auto. }
  rewrite <- (take_drop_middle _ _ _ Hz), foldl_app. cbn [foldl].
  set (X := foldl assemble_step ∅ (take i (zip tensors tensor_names))).
  assert (Hkeep : forall post X0,
            (forall g ns', (g, ns') ∈ post ->
               (c ∉ ns') /\ forall d, g.2 = Some d -> d !! c = None) ->
            foldl assemble_step X0 post !! c = X0 !! c).
  { induction post as [|[g ns'] post IH]; intros X0 Hpost; [reflexivity|].
    cbn [foldl]. rewrite IH by (intros; apply Hpost; right; assumption).
    destruct (Hpost g ns' ltac:(left)) as [Hout Hd].
    apply assemble_step_other; assumption. }
  rewrite Hkeep; [apply assemble_step_pair, Hc|].
  intros g ns' Hin. apply list_elem_of_lookup in Hin as (j & Hj).
  rewrite lookup_drop in Hj.
  apply lookup_zip_with_Some in Hj as (g' & ns'' & Heq & Hg & Hn).
  injection Heq as -> ->.
  apply (Hlater (S i + j)%nat); [lia | assumption..].
Qed.

(** C10. For a loader built from a schema with distinct column names, a
    column is picked for sparse materialisation (it is in [sparse_names]
    and has an entry in [sparse_max]) if and only if it is a list column
    whose value count exists and has [min] equal to [max].
    [_handle_tensors] returns exactly when each of those columns is among
    the assembled ones and passes [_to_sparse_tensor], and the first
    label is among the assembled columns: no other column makes it
    raise.  When it returns, the entry of each of those columns is the
    result of [_to_sparse_tensor], and the entry of any other column is
    returned as assembled; for a list column without a value count or
    with [min <> max], that is the [(values, index)] pair that its tensor
    group holds for it. *)
Theorem sparse_materialized_iff (dataset : Dataset) (batch_size : Z)
    (shuffle : bool) (seed_fn : option (RandomState -> Z)) (parts_per_chunk : Z)
    (global_size global_rank : option Z) (drop_last use_nnz : bool)
    (rng : RandomState) (L : Loader)
    (Hinit : __init__ dataset batch_size shuffle seed_fn parts_per_chunk
               global_size global_rank drop_last use_nnz rng = Ok L)
    (Hnodup : NoDup (schema dataset).*1) :
  (forall c spec, (c, spec) ∈ schema dataset ->
     (c ∈ sparse_names (attrs L) /\ is_Some (sparse_max (attrs L) !! c))
     <-> has_fixed_length spec) /\
  (forall tensors tensor_names,
     let X0 := assemble_columns tensors tensor_names in
     (is_ok (_handle_tensors (attrs L) tensors tensor_names) = true
      <-> (forall c spec, (c, spec) ∈ schema dataset -> has_fixed_length spec ->
             exists v, X0 !! c = Some v /\
                       is_ok (_to_sparse_tensor (attrs L) v c) = true) /\
          (forall label, head (label_names (attrs L)) = Some label -> label ∈ dom X0)) /\
     forall X labels,
       _handle_tensors (attrs L) tensors tensor_names = Ok (X, labels) ->
       forall c spec, (c, spec) ∈ schema dataset ->
         head (label_names (attrs L)) <> Some c ->
         (has_fixed_length spec ->
          exists v t,
            X0 !! c = Some v /\
            _to_sparse_tensor (attrs L) v c = Ok t /\
            X !! c = Some (Lone t)) /\
         (~ has_fixed_length spec ->
          X !! c = X0 !! c /\
          forall (i : nat) (t : tensor) (lists : gmap string (list elem * list Z))
                 (values : list elem) (index : list Z),
            tensors !! i = Some (t, Some lists) -> is_Some (tensor_names !! i) ->
            lists !! c = Some (values, index) ->
            (forall (j : nat) (g : Group) (ns : list string),
               (i < j)%nat -> tensors !! j = Some g -> tensor_names !! j = Some ns ->
               (c ∉ ns) /\ forall d, g.2 = Some d -> d !! c = None) ->
            X !! c = Some (Pair values index))).
Proof.
  destruct (sparse_materialized_eq dataset batch_size shuffle seed_fn parts_per_chunk
              global_size global_rank drop_last use_nnz rng L Hinit Hnodup)
    as [Hpick Hout].
  split; [exact Hpick|].
  intros tensors tensor_names X0. split.
  - destruct (init_ok_inv _ _ _ _ _ _ _ _ _ _ _ Hinit) as (drm & sd & Hscan & _).
    destruct (scan_columns_ok _ _ _ _ _ _ _ _ _ Hscan Hnodup) as (Hsn & _ & _).
    cbn in Hsn.
    assert (Hnd : NoDup (sparse_names (attrs L))).
    { rewrite Hsn. apply NoDup_list_columns, Hnodup. }
    pose proof (handle_tensors_ok_eq (attrs L) tensors tensor_names Hnd) as Hiff.
    cbv zeta in Hiff. rewrite Hiff. fold X0. split.
    + intros [Hall Hlabel]. split; [|exact Hlabel].
      intros c spec Hin Hfix. apply Hall; apply (Hpick c spec Hin), Hfix.
    + intros [Hall Hlabel]. split; [|exact Hlabel].
      intros c Hc Hmax.
      assert (Hcol : exists spec, (c, spec) ∈ schema dataset).
      { rewrite Hsn in Hc. apply elem_of_list_columns in Hc as (spec & Hin & _). eauto. }
      destruct Hcol as (spec & Hin).
      apply (Hall c spec Hin). apply (Hpick c spec Hin). auto.
  - intros X labels Hrun c spec Hin Hlabel.
    destruct (Hout tensors tensor_names X labels Hrun c spec Hin Hlabel) as [Hyes Hno].
    split; [exact Hyes|]. intros Hnfix. split; [apply Hno, Hnfix|].
    intros i t lists values index Ht Hns Hc Hlater.
    rewrite (Hno Hnfix).
    apply (assemble_columns_pair tensors tensor_names i t lists c values index);
      assumption.
Qed.

End Emitted.

(** ** The properties on threads, shards and list columns on concrete loaders *)

(** A call that returns, from its result alone. *)
Lemma run_ok {S A : Type} (m : st S A) (s : S) (a : A) :
  (m s).2 = Ok a -> m s = ((m s).1, Ok a).
Proof. destruct (m s) as [s' r]. cbn. intros ->. reflexivity. Qed.

(** A worker that has not returned yet when the consumer comes to the end
    of the epoch leaves it waiting in [q_out.get()]; one that has returned
    lets it raise [StopIteration]. *)
Example epoch_end_finds_worker_alive :
  ((_ ← Threads.__iter__ (steady 0);
    Threads.next_n (steady 0) example_handle example_tensor_len 3)
     (fresh_system (example_loader [[1; 2; 3]] 2 1 false false 1 0))).2
  = Blocked.
Proof. vm_compute. reflexivity. Qed.

Example epoch_end_finds_worker_returned :
  ((_ ← Threads.__iter__ (steady 1);
    Threads.next_n (steady 1) example_handle example_tensor_len 3)
     (fresh_system (example_loader [[1; 2; 3]] 2 1 false false 1 0))).2
  = Raise StopIteration.
Proof. vm_compute. reflexivity. Qed.

(** On a batch of two rows the fixed-length column [seq] is materialised,
    the ragged column [tags] keeps its pair although its first row has
    seven values, and the target [y] is split off. *)
Example handle_tensors_session_batch :
  _handle_tensors (attrs session_loader) session_tensors [["seq"; "tags"]; ["y"]]
  = Ok ({[ "seq" := @Lone list_runtime [1; 2; 3; 4; 5; 6; 7; 8; 9; 10];
           "tags" := @Pair list_runtime [1; 2; 3; 4; 5; 6; 7; 8] [0; 7] ]},
        Some (@Lone list_runtime [7; 8])).
Proof. vm_compute. reflexivity. Qed.

(** C5, as stated, fails once [_shuffle_indices], which [__iter__] calls
    when [shuffle] is set, has permuted the index array in place: rank
    [0] of [2] over five partitions does not get the block [0; 1; 2],
    for the ceiling [3] of [5 / 2], but the entries [4; 3; 2] found at
    its positions, and the queue built next, as after [_set_epochs],
    reads those partitions. *)
Lemma indices_for_process_not_the_block :
  let self := (_shuffle_indices (example_loader five_partitions 2 1 true false 2 0)).1 in
  len (indices self) = 5 /\
  global_size (attrs self) = 2 /\ global_rank (attrs self) = 0 /\
  (3 - 1) * 2 < 5 <= 3 * 2 /\
  shard_block 5 3 0 = [0; 1; 2] /\
  _indices_for_process self = Ok [4; 3; 2] /\
  _indices_for_process self <> Ok (shard_block 5 3 0) /\
  _data_iter self (_epochs self) = Ok ([Ok [5]; Ok [4]; Ok [3]], 3).
Proof. vm_compute. repeat split; congruence. Qed.

Lemma indices_for_process_spec_witness :
  let P := 5 in
  let S := 2 in
  let l := reverse (arange 5) in
  exists (per_shard : Z) (blocks : Z -> list Z),
    (per_shard - 1) * S < P <= per_shard * S /\
    (forall self : @Loader list_runtime,
       indices self = l ->
       global_size (attrs self) = S ->
       0 <= global_rank (attrs self) < S ->
       (P < S -> _indices_for_process self = Raise IndexError) /\
       (S <= P -> _indices_for_process self = Ok (blocks (global_rank (attrs self))))) /\
    (forall r : Z,
       0 <= r ->
       Forall2 (fun pos idx => l !! Z.to_nat pos = Some idx)
         (shard_block P per_shard r) (blocks r)) /\
    (forall r i : Z,
       0 <= r ->
       i ∈ shard_block P per_shard r
       <-> r * per_shard <= i < r * per_shard + per_shard /\ 0 <= i < P) /\
    (l = arange P -> forall r : Z, 0 <= r -> blocks r = shard_block P per_shard r) /\
    (forall r1 r2 i : Z,
       0 <= r1 < S -> 0 <= r2 < S -> r1 <> r2 ->
       i ∈ blocks r1 -> i ∉ blocks r2) /\
    (forall i : Z, 0 <= i < P <-> exists r : Z, 0 <= r < S /\ i ∈ blocks r).
Proof.
  cbv zeta.
  apply (@indices_for_process_spec list_runtime 5 2 (reverse (arange 5))); [lia | lia |].
  apply reverse_Permutation.
Defined.

Lemma sparse_materialized_iff_witness :
  (forall c spec, (c, spec) ∈ schema session_dataset ->
     (c ∈ sparse_names (attrs session_loader)
      /\ is_Some (sparse_max (attrs session_loader) !! c))
     <-> has_fixed_length spec) /\
  (forall (tensors : list (@Group list_runtime)) (tensor_names : list (list string)),
     let X0 := assemble_columns tensors tensor_names in
     (is_ok (_handle_tensors (attrs session_loader) tensors tensor_names) = true
      <-> (forall c spec, (c, spec) ∈ schema session_dataset -> has_fixed_length spec ->
             exists v, X0 !! c = Some v /\
                       is_ok (_to_sparse_tensor (attrs session_loader) v c) = true) /\
          (forall label, head (label_names (attrs session_loader)) = Some label ->
             label ∈ dom X0)) /\
     forall X labels,
       _handle_tensors (attrs session_loader) tensors tensor_names = Ok (X, labels) ->
       forall c spec, (c, spec) ∈ schema session_dataset ->
         head (label_names (attrs session_loader)) <> Some c ->
         (has_fixed_length spec ->
          exists v t,
            X0 !! c = Some v /\
            _to_sparse_tensor (attrs session_loader) v c = Ok t /\
            X !! c = Some (Lone t)) /\
         (~ has_fixed_length spec ->
          X !! c = X0 !! c /\
          forall (i : nat) (t : @tensor list_runtime)
                 (lists : gmap string (list (@elem list_runtime) * list Z))
                 (values : list (@elem list_runtime)) (index : list Z),
            tensors !! i = Some (t, Some lists) -> is_Some (tensor_names !! i) ->
            lists !! c = Some (values, index) ->
            (forall (j : nat) (g : @Group list_runtime) (ns : list string),
               (i < j)%nat -> tensors !! j = Some g -> tensor_names !! j = Some ns ->
               (c ∉ ns) /\ forall d, g.2 = Some d -> d !! c = None) ->
            X !! c = Some (Pair values index))).
Proof.
  apply (sparse_materialized_iff session_dataset 2 false None 1 None None
           false false (0 : @RandomState list_runtime) session_loader).
  - vm_compute. reflexivity.
  - cbn. repeat (apply NoDup_cons_2; [rewrite ?not_elem_of_cons; repeat split;
                                 (discriminate || apply not_elem_of_nil)|]).
    apply NoDup_nil_2.
Defined.

Lemma init_single_process_reads_all_witness :
  indices session_loader = [0; 1; 2] /\
  _indices_for_process session_loader = Ok [0; 1; 2].
Proof.
  destruct (init_single_process_reads_all session_dataset 2 false None 1 None None
              false false (0 : @RandomState list_runtime) session_loader)
    as (Hindices & _ & Hall).
  - vm_compute. reflexivity.
  - left. reflexivity.
  - left. reflexivity.
  - split; [exact Hindices | apply Hall; discriminate].
Defined.

Lemma iter_restarts_queue_witness :
  let sched := steady 1 in
  let started :=
    (Threads.__iter__ sched
       (fresh_system (example_loader [[1; 2; 3]] 2 1 false false 1 0))).1 in
  let stopped := (Threads.stop sched started).1 in
  let sys' := (Threads.__iter__ sched stopped).1 in
  exists (q : ChunkQueue.t) (t : Thread),
    __buff (Threads.loader sys') = Some q /\ ChunkQueue.stopped q = false /\
    _workers (Threads.loader sys') = Some [t] /\
    Threads.worker sys' = Threads.load_chunks (attrs (Threads.loader sys')) q /\
    Threads.alive (Threads.worker sys') = true /\
    _batch_itr (Threads.loader sys') = None /\
    num_rows_processed (Threads.loader sys') = 0.
Proof.
  cbv zeta.
  apply (iter_restarts_queue (steady 1)
           (Threads.stop (steady 1)
              (Threads.__iter__ (steady 1)
                 (fresh_system (example_loader [[1; 2; 3]] 2 1 false false 1 0))).1).1).
  apply (run_ok (Threads.__iter__ (steady 1))). vm_compute. reflexivity.
Defined.

Lemma epoch_rows_accounted_witness :
  let sched := steady 1 in
  let self := example_loader ten_partitions 64 2 true true 1 0 in
  let rows := concat ten_partitions in
  let R := len rows in
  let b := batch_size (attrs self) in
  let kept := if drop_last (attrs self) then take (Z.to_nat (R / b * b)) rows else rows in
  exists (batches : list (list Z))
         (outs : list (gmap string (@Entry list_runtime) * option (@Entry list_runtime)))
         (sys : Threads.System),
    (_ ← Threads.__iter__ sched;
     Threads.next_n sched example_handle example_tensor_len (length batches))
      {| Threads.loader := self; Threads.worker := Threads.Exit; Threads.ticks := 0 |}
    = (sys, Ok outs) /\
    Forall2 (fun rows out => example_handle rows = Ok out) batches outs /\
    (let '(sys', r) :=
       Threads._get_next_batch sched example_handle example_tensor_len sys in
     r = Blocked \/
     (r = Raise StopIteration /\
      _workers (Threads.loader sys') = None /\ _batch_itr (Threads.loader sys') = None)) /\
    sumZ (len <$> batches) = (if drop_last (attrs self) then R / b * b else R) /\
    concat batches ≡ₚ kept /\
    (shuffle (attrs self) = false -> concat batches = kept) /\
    Forall (fun batch => 1 <= len batch <= b) batches.
Proof.
  cbv zeta.
  apply (epoch_rows_accounted (steady 1) example_handle example_tensor_len
           (example_loader ten_partitions 64 2 true true 1 0) ten_partitions 1000
           Threads.Exit 0%nat).
  - reflexivity.
  - reflexivity.
  - simpl. lia.
  - intros chunk. apply reverse_Permutation.
  - vm_compute. reflexivity.
  - intros rows. reflexivity.
Defined.
